(** * simag: the knowledge store, the atoms and the sentence evaluator

    A shallow embedding of [simag/core/parser.py] and
    [simag/core/kblogic.py].

    Conventions of the embedding.
    - A Python exception is a value of [exn]; a call that may raise
      returns [res A].
    - A fuzzy value is the rational number the parsed literal denotes
      (type [Q]); the rounding of [float] is not modelled.
    - A [datetime] is an integer time stamp; [datetime.now()] is the
      explicit argument [now].
    - The tri-valued truth of the source ([True], [False], [None]) is
      [option bool].
    - [hash(tuple(names))] is represented by the tuple of names itself
      (hash collisions are not modelled).
    - The store maps ([individuals], [classes], [relations]) are finite
      maps; dictionaries whose iteration order the source relies on
      ([results], [nodes], [obj_dic]) are association lists in insertion
      order.
    - Evaluation is sequential.  The locks of [thread_manager] are
      taken on atoms, which are not hashable: the table of locks stays
      empty and is not part of the state. *)

From Stdlib Require Import Ascii String QArith.
From stdpp Require Import gmap strings list fin_maps.

Local Open Scope Z_scope.
Local Open Scope string_scope.
Local Open Scope list_scope.

(** ** Exceptions and results *)

Inductive exn :=
| AssertionError
| TypeError
| KeyError
| IndexError
| AttributeError
| NameError
| NotCompFuncError
| NotImplementedError.

Inductive res (A : Type) :=
| Ret (a : A)
| Raise (e : exn).
Arguments Ret {A} a.
Arguments Raise {A} e.

Definition res_bind {A B : Type} (m : res A) (f : A → res B) : res B :=
  match m with
  | Ret a => f a
  | Raise e => Raise e
  end.

Notation "x <- m ;; k" := (res_bind m (fun x => k))
  (at level 20, m at level 99, k at level 200, only parsing).
Notation "' pat <- m ;; k" :=
  (res_bind m (fun x => match x with pat => k end))
  (at level 20, pat pattern, m at level 99, k at level 200, only parsing).

(** A loop over a list that stops at the first exception. *)
Fixpoint res_fold {A B : Type} (f : B → A → res B) (l : list A) (b : B)
  : res B :=
  match l with
  | [] => Ret b
  | x :: rest => b' <- f b x ;; res_fold f rest b'
  end.

(** [try: m except: h] with a bare [except]. *)
Definition try_except {A : Type} (m : res A) (h : A) : A :=
  match m with
  | Ret a => a
  | Raise _ => h
  end.

(** [try: m except E: h] for one exception class. *)
Definition try_except_on {A : Type} (E : exn → bool) (m : res A) (h : res A)
  : res A :=
  match m with
  | Ret a => Ret a
  | Raise e => if E e then h else Raise e
  end.

Definition is_KeyError (e : exn) : bool :=
  match e with KeyError => true | _ => false end.

(** ** Strings *)

(** ['$' in s] *)
Fixpoint has_dollar (s : string) : bool :=
  match s with
  | EmptyString => false
  | String c s' => if Ascii.eqb c "$"%char then true else has_dollar s'
  end.

(** [s[0]], which raises [IndexError] on the empty string. *)
Definition first_char (s : string) : res Ascii.ascii :=
  match s with
  | EmptyString => Raise IndexError
  | String c _ => Ret c
  end.

(** [s[0] == '$'] *)
Definition starts_with_dollar (s : string) : res bool :=
  c <- first_char s ;; Ret (Ascii.eqb c "$"%char).

(** ** Fuzzy values *)

Definition Qlt_bool (x y : Q) : bool := negb (Qle_bool y x).

(** [val > 1 or val < 0] *)
Definition illegal_value (v : Q) : bool :=
  Qlt_bool 1 v || Qlt_bool v 0.

Definition legal_value (v : Q) : Prop := (0 <= v)%Q ∧ (v <= 1)%Q.

(** ** The parser's output for one assertion (consumed here) *)

Record ast_arg := mk_ast_arg {
  a_term : string;
  a_uval : option (string * Q)       (* (op, value) *)
}.

Record ast_pred := mk_ast_pred {
  a_klass : string;
  a_pargs : list ast_arg
}.

Record ast_func := mk_ast_func {
  a_func : string;
  a_fargs : list ast_arg
}.

(** ** Membership atoms: [LogPredicate], [GroundedTerm], [FreeTerm] *)

Inductive pred_class := GroundedTerm | FreeTerm.

Record LogPredicate := mkPred {
  pclass : pred_class;
  parent : string;
  term : string;
  value : Q;
  op : string;
  dates : option (list Z)
}.

(** [LogPredicate.__init__]: the message of the range error is built
    with [val[1]] on a float, so the exception that leaves is a
    [TypeError]. *)
Definition LogPredicate_init (pred : ast_pred)
  : res (string * string * Q * string * option (list Z)) :=
  match a_pargs pred with
  | [] => Raise IndexError
  | arg :: _ =>
      match a_uval arg with
      | None => Raise TypeError
      | Some (o, val) =>
          if illegal_value val then Raise TypeError
          else Ret (a_klass pred, a_term arg, val, o, None)
      end
  end.

(** [GroundedTerm.__init__(pred)] with [fromfree] false. *)
Definition GroundedTerm_init (pred : ast_pred) : res LogPredicate :=
  '(p, t, val, o, ds) <- LogPredicate_init pred ;;
  if negb (String.eqb o "=") then Raise AssertionError
  else if illegal_value val then Raise AssertionError
  else Ret (mkPred GroundedTerm p t val o ds).

(** [GroundedTerm.__init__(pred, fromfree=True, sbj=sbj)]: every
    attribute of the free term is copied, then the term is replaced. *)
Definition GroundedTerm_fromfree (pred : LogPredicate) (sbj : string)
  : res LogPredicate :=
  match pclass pred with
  | FreeTerm =>
      Ret (mkPred GroundedTerm (parent pred) sbj (value pred) (op pred)
             (dates pred))
  | GroundedTerm => Raise AssertionError
  end.

(** [FreeTerm.__init__] *)
Definition FreeTerm_init (pred : ast_pred) : res LogPredicate :=
  '(p, t, val, o, ds) <- LogPredicate_init pred ;;
  Ret (mkPred FreeTerm p t val o ds).

Inductive fact_type := grounded_term | free_term.

(** [make_fact(pred, f_type)] on a parsed assertion. *)
Definition make_fact (pred : ast_pred) (f_type : fact_type)
  : res LogPredicate :=
  match f_type with
  | grounded_term => GroundedTerm_init pred
  | free_term => FreeTerm_init pred
  end.

(** [FreeTerm.substitute(sbj)] ([val] is [None], [ground] false):
    a copy with the term replaced. *)
Definition FreeTerm_substitute (self : LogPredicate) (sbj : string)
  : LogPredicate :=
  mkPred (pclass self) (parent self) sbj (value self) (op self) (dates self).

(** The test on one atom inside [_eval_time_truth]:
    [(len(dates) % 2 or len(dates) == 1) and dates[-1] < now];
    an atom without [dates] counts as true. *)
Definition is_true_now (now : Z) (ds : option (list Z)) : bool :=
  match ds with
  | None => true
  | Some l =>
      if Nat.odd (length l) || Nat.eqb (length l) 1
      then bool_decide (List.last l 0 < now)
      else false
  end.

(** [MetaForAtoms.__eval_time_truth]: the final test is
    [(a and b) is True or (a and b) is False]. *)
Definition eval_time_truth (now : Z) (self_dates other_dates : option (list Z))
  : bool :=
  let isTrueSelf := is_true_now now self_dates in
  let isTrueOther := is_true_now now other_dates in
  Bool.eqb (isTrueOther && isTrueSelf) true
  || Bool.eqb (isTrueOther && isTrueSelf) false.

(** [GroundedTerm.__eq__] *)
Definition GroundedTerm_eq (now : Z) (self other : LogPredicate) : bool :=
  if negb (eval_time_truth now (dates self) (dates other)) then false
  else if String.eqb (parent other) (parent self)
          && String.eqb (term other) (term self)
  then true else false.

(** [FreeTerm.__eq__] (the other operand is a [LogPredicate]). *)
Definition FreeTerm_eq (now : Z) (self other : LogPredicate) : bool :=
  if negb (eval_time_truth now (dates self) (dates other)) then false
  else if String.eqb (op self) "=" && Qeq_bool (value other) (value self)
  then true
  else if String.eqb (op self) ">" && Qlt_bool (value self) (value other)
  then true
  else if String.eqb (op self) "<" && Qlt_bool (value other) (value self)
  then true
  else false.

(** [self == other] dispatches on the class of the left operand. *)
Definition pred_eq (now : Z) (self other : LogPredicate) : bool :=
  match pclass self with
  | GroundedTerm => GroundedTerm_eq now self other
  | FreeTerm => FreeTerm_eq now self other
  end.

(** Modelled from the spec: [update] of a stored membership atom is
    called by [add_ctg] but is not defined under src/.  The spec says
    atoms are "updated by [update] (value and timestamps)" and that a
    re-assertion "updates in place and appends to the time history":
    the stored atom takes the new value and the time of the update is
    appended to its dates. *)
Definition pred_update (now : Z) (stored fact : LogPredicate) : LogPredicate :=
  mkPred (pclass stored) (parent stored) (term stored) (value fact)
    (op stored) (Some (default [] (dates stored) ++ [now])%list).

(** ** Relation atoms: [LogFunction], [RelationFunc] *)

(** One element of [args]: a bare term, or the tuple [(term, value, op)]. *)
Inductive func_arg :=
| ArgBare (t : string)
| ArgVal (t : string) (v : Q) (o : string).

(** What [x[1]] yields on an element of [args]: the value of a tuple,
    or the second character of a bare term. *)
Inductive rel_value :=
| VNum (q : Q)
| VChr (c : ascii).

Record LogFunction := mkFunc {
  func : string;
  args : list func_arg;
  args_ID : list string;
  arity : nat;
  fvalue : rel_value;
  fdates : option (list Z)
}.

Definition arg_name (a : func_arg) : string :=
  match a with
  | ArgBare t => t
  | ArgVal t _ _ => t
  end.

(** [x[1]] on an element of [args]. *)
Definition arg_snd (a : func_arg) : res rel_value :=
  match a with
  | ArgVal _ v _ => Ret (VNum v)
  | ArgBare (String _ (String c _)) => Ret (VChr c)
  | ArgBare _ => Raise IndexError
  end.

(** The loop of [LogFunction.__init__] that builds [mk_args]. *)
Fixpoint mk_args (l : list ast_arg) : res (list func_arg) :=
  match l with
  | [] => Ret []
  | a :: l' =>
      match a_uval a with
      | Some (o, val) =>
          if illegal_value val then Raise AssertionError
          else rest <- mk_args l' ;; Ret (ArgVal (a_term a) val o :: rest)
      | None => rest <- mk_args l' ;; Ret (ArgBare (a_term a) :: rest)
      end
  end.

(** [RelationFunc.__init__]: [self.value = mk_args[0][1]]. *)
Definition RelationFunc_init (sent : ast_func) : res LogFunction :=
  margs <- mk_args (a_fargs sent) ;;
  match margs with
  | [] => Raise IndexError
  | a0 :: _ =>
      v <- arg_snd a0 ;;
      Ret (mkFunc (a_func sent) margs (map a_term (a_fargs sent))
             (length margs) v None)
  end.

(** [make_function(sent, 'relation')] *)
Definition make_function (sent : ast_func) : res LogFunction :=
  RelationFunc_init sent.

(** [LogFunction.get_args] *)
Definition get_args (f : LogFunction) : list string :=
  map arg_name (args f).

Definition set_arg_name (a : func_arg) (n : string) : func_arg :=
  match a with
  | ArgBare _ => ArgBare n
  | ArgVal _ v o => ArgVal n v o
  end.

Fixpoint subst_args (l : list func_arg) (names : list string)
  : res (list func_arg) :=
  match l with
  | [] => Ret []
  | a :: l' =>
      match names with
      | [] => Raise IndexError
      | n :: names' =>
          rest <- subst_args l' names' ;; Ret (set_arg_name a n :: rest)
      end
  end.

(** [LogFunction.substitute(args)] for a list of names. *)
Definition LogFunction_substitute (self : LogFunction) (names : list string)
  : res LogFunction :=
  new_args <- subst_args (args self) names ;;
  Ret (mkFunc (func self) new_args names (arity self) (fvalue self)
         (fdates self)).

(** The test of one position in [chk_args_eq]; [true] means the names
    differ.  For a tuple the source compares [other.args[x][0]] with the
    term, and [x[0]] of a bare term is its first character. *)
Definition arg_differs (arg : func_arg) (oarg : func_arg) : res bool :=
  match arg, oarg with
  | ArgVal t _ _, ArgVal t' _ _ => Ret (negb (String.eqb t' t))
  | ArgVal t _ _, ArgBare s =>
      c <- first_char s ;; Ret (negb (String.eqb (String c EmptyString) t))
  | ArgBare t, ArgBare s => Ret (negb (String.eqb s t))
  | ArgBare _, ArgVal _ _ _ => Ret true
  end.

Fixpoint chk_args_loop (self_args : list func_arg) (x : nat)
  (other_args : list func_arg) : res bool :=
  match self_args with
  | [] => Ret true
  | arg :: rest =>
      match other_args !! x with
      | None => Raise IndexError
      | Some oarg =>
          d <- arg_differs arg oarg ;;
          if d then Ret false else chk_args_loop rest (S x) other_args
      end
  end.

(** [RelationFunc.chk_args_eq]: [true] stands for the source's [True],
    [false] for any of the tuples it returns otherwise. *)
Definition chk_args_eq (self other : LogFunction) : res bool :=
  if negb (Nat.eqb (arity other) (arity self)) then Ret false
  else if negb (String.eqb (func other) (func self)) then Ret false
  else chk_args_loop (args self) 0 (args other).

(** One round of the value loop of [RelationFunc.__eq__]. *)
Definition rel_arg_result (arg oarg : func_arg) : res (option bool) :=
  match arg with
  | ArgBare _ => Ret None
  | ArgVal _ v o =>
      if String.eqb o "=" then
        w <- arg_snd oarg ;;
        match w with
        | VNum q => Ret (Some (Qeq_bool v q))
        | VChr _ => Ret (Some false)
        end
      else if String.eqb o ">" then
        w <- arg_snd oarg ;;
        match w with
        | VNum q => Ret (Some (negb (Qlt_bool q v)))
        | VChr _ => Raise TypeError
        end
      else if String.eqb o "<" then
        w <- arg_snd oarg ;;
        match w with
        | VNum q => Ret (Some (negb (Qlt_bool v q)))
        | VChr _ => Raise TypeError
        end
      else Ret (Some true)
  end.

Fixpoint rel_eq_loop (self_args : list func_arg) (x : nat)
  (other_args : list func_arg) (result : option bool) : res (option bool) :=
  match self_args with
  | [] => Ret result
  | arg :: rest =>
      match arg with
      | ArgBare _ => rel_eq_loop rest (S x) other_args result
      | ArgVal _ _ _ =>
          match other_args !! x with
          | None => Raise IndexError
          | Some oarg =>
              r <- rel_arg_result arg oarg ;;
              rel_eq_loop rest (S x) other_args r
          end
      end
  end.

(** [RelationFunc.__eq__]: [result] is bound only when some argument
    is a tuple. *)
Definition RelationFunc_eq (now : Z) (self other : LogFunction) : res bool :=
  comparable <- chk_args_eq self other ;;
  if negb comparable then Raise NotCompFuncError
  else
    result <- rel_eq_loop (args self) 0 (args other) None ;;
    let time_truth := eval_time_truth now (fdates self) (fdates other) in
    if time_truth then
      match result with
      | None => Raise NameError
      | Some r => Ret r
      end
    else Ret false.

(** Modelled from the spec: [update] of a stored relation atom is called
    by [add_rel] but is not defined under src/.  As for membership atoms
    ("value and timestamps"): the stored atom takes the arguments of the
    new one, which carry the values, and its [value], and the time of
    the update is appended to its dates. *)
Definition func_update (now : Z) (stored f : LogFunction) : LogFunction :=
  mkFunc (func stored) (args f) (args_ID stored) (arity stored) (fvalue f)
    (Some (default [] (fdates stored) ++ [now])%list).

(** ** Sentences *)

Inductive Atom :=
| APred (p : LogPredicate)
| AFunc (f : LogFunction).

(** The tree that [traverse_ast] builds: an operator node has the
    particles of its [lhs] and [rhs] in [next].  Time-calculus atoms
    are not part of the model. *)
Inductive Particle :=
| LogicAtom (pred : Atom)
| LogicIndCond (lhs rhs : Particle)
| LogicEquivalence (lhs rhs : Particle)
| LogicImplication (lhs rhs : Particle)
| LogicConjunction (lhs rhs : Particle)
| LogicDisjunction (lhs rhs : Particle).

(** A [LogSentence].  [sent_id] stands for the identity of the object
    (sentences are compared by identity).  A sentence has no creation
    time: no line of the source sets the attribute [created] that the
    inference engine sorts by. *)
Record LogSentence := mkSent {
  sent_id : nat;
  start : Particle;
  var_order : option (list string)
}.

Definition same_sent (a b : LogSentence) : bool :=
  Nat.eqb (sent_id a) (sent_id b).

(** [sent in sents] *)
Definition sent_in (s : LogSentence) (l : list LogSentence) : bool :=
  existsb (same_sent s) l.

(** ** The knowledge store: [Individual], [Category], [Representation] *)

Record Individual := mkInd {
  name : string;
  categ : list LogPredicate;
  relations : gmap string (list LogFunction);
  cog : list (string * list LogSentence)
}.

(** [Individual(name)] *)
Definition new_Individual (n : string) : Individual := mkInd n [] ∅ [].

(** A [Category]; [parents] and [relations] are attributes that exist
    only once they have been set; [is_Relation] tells the subclass
    [Relation]. *)
Record Category := mkCat {
  cname : string;
  ccog : list LogSentence;
  parents : option (list LogPredicate);
  crelations : option (gmap string (list LogFunction));
  is_Relation : bool
}.

(** [Category(name)] and [Relation(name)] *)
Definition new_Category (n : string) : Category := mkCat n [] None None false.
Definition new_Relation (n : string) : Category := mkCat n [] None None true.

Record Representation := mkRepr {
  individuals : gmap string Individual;
  classes : gmap string Category
}.

(** [Representation()] *)
Definition empty_Representation : Representation := mkRepr ∅ ∅.

(** [ctg_rec.index(name)] over [ctg_rec = [f.parent for f in atoms]]. *)
Definition ctg_index (n : string) (atoms : list LogPredicate) : option nat :=
  fst <$> list_find (λ f, parent f = n) atoms.

(** The body shared by [Individual.add_ctg] and [Category.add_ctg]. *)
Definition add_ctg_list (now : Z) (atoms : list LogPredicate)
  (fact : LogPredicate) : list LogPredicate :=
  match ctg_index (parent fact) atoms with
  | None => atoms ++ [fact]
  | Some idx => alter (λ stored, pred_update now stored fact) idx atoms
  end.

(** [Individual.add_ctg] *)
Definition Individual_add_ctg (now : Z) (self : Individual)
  (fact : LogPredicate) : Individual :=
  mkInd (name self) (add_ctg_list now (categ self) fact) (relations self)
    (cog self).

(** [Category.add_ctg] *)
Definition Category_add_ctg (now : Z) (self : Category)
  (fact : LogPredicate) : Category :=
  match parents self with
  | None =>
      mkCat (cname self) (ccog self) (Some [fact]) (crelations self)
        (is_Relation self)
  | Some ps =>
      mkCat (cname self) (ccog self) (Some (add_ctg_list now ps fact))
        (crelations self) (is_Relation self)
  end.

(** The loop shared by [Individual.test_ctg] and [Category.test_ctg]:
    the first stored atom of the category, compared with [pred == categ]. *)
Definition test_ctg_list (now : Z) (atoms : list LogPredicate)
  (pred : LogPredicate) : option bool :=
  match list_find (λ ctg, parent ctg = parent pred) atoms with
  | None => None
  | Some (_, found) => Some (pred_eq now pred found)
  end.

(** [Individual.test_ctg] *)
Definition Individual_test_ctg (now : Z) (self : Individual)
  (pred : LogPredicate) : option bool :=
  test_ctg_list now (categ self) pred.

(** [Category.test_ctg] *)
Definition Category_test_ctg (now : Z) (self : Category)
  (pred : LogPredicate) : option bool :=
  match parents self with
  | None => None
  | Some ps => test_ctg_list now ps pred
  end.

(** [Individual.check_ctg] and [Category.check_ctg] *)
Definition check_ctg_list (atoms : list LogPredicate) (n : list string)
  : list string :=
  map parent (filter (λ c, parent c ∈ n) atoms).

Definition Individual_check_ctg (self : Individual) (n : list string)
  : list string :=
  check_ctg_list (categ self) n.

Definition Category_check_ctg (self : Category) (n : list string)
  : list string :=
  match parents self with
  | None => []
  | Some ps => check_ctg_list ps n
  end.

(** The [for rel in rels] loop of [add_rel]: the first stored atom with
    the same shape is updated; when none matches the bucket is left as
    it is. *)
Fixpoint add_rel_loop (now : Z) (rels : list LogFunction) (f : LogFunction)
  : res (list LogFunction) :=
  match rels with
  | [] => Ret []
  | rel :: rest =>
      same <- chk_args_eq rel f ;;
      if same then Ret (func_update now rel f :: rest)
      else rest' <- add_rel_loop now rest f ;; Ret (rel :: rest')
  end.

(** The body shared by [Individual.add_rel] and [Category.add_rel] once
    the [relations] dictionary exists. *)
Definition add_rel_map (now : Z) (rels : gmap string (list LogFunction))
  (f : LogFunction) : res (gmap string (list LogFunction)) :=
  match rels !! func f with
  | None => Ret (<[func f := [f]]> rels)
  | Some bucket =>
      bucket' <- add_rel_loop now bucket f ;;
      Ret (<[func f := bucket']> rels)
  end.

(** [Individual.add_rel] *)
Definition Individual_add_rel (now : Z) (self : Individual) (f : LogFunction)
  : res Individual :=
  rels <- add_rel_map now (relations self) f ;;
  Ret (mkInd (name self) (categ self) rels (cog self)).

(** [Category.add_rel]; on a [Relation] the attribute is a property
    whose getter cannot be called, which raises [TypeError]. *)
Definition Category_add_rel (now : Z) (self : Category) (f : LogFunction)
  : res Category :=
  if is_Relation self then Raise TypeError
  else
    match crelations self with
    | None =>
        Ret (mkCat (cname self) (ccog self) (parents self)
               (Some {[func f := [f]]}) false)
    | Some rels =>
        rels' <- add_rel_map now rels f ;;
        Ret (mkCat (cname self) (ccog self) (parents self) (Some rels') false)
    end.

(** The loop shared by the two [test_rel]: the first stored atom with
    the same [args_ID] decides. *)
Fixpoint test_rel_loop (now : Z) (funcs : list LogFunction) (f : LogFunction)
  : res (option bool) :=
  match funcs with
  | [] => Ret None
  | g :: rest =>
      if bool_decide (args_ID g = args_ID f)
      then (b <- RelationFunc_eq now f g ;; Ret (Some b))
      else test_rel_loop now rest f
  end.

(** [Individual.test_rel] *)
Definition Individual_test_rel (now : Z) (self : Individual) (f : LogFunction)
  : res (option bool) :=
  match relations self !! func f with
  | None => Ret None
  | Some funcs => test_rel_loop now funcs f
  end.

(** [Category.test_rel] *)
Definition Category_test_rel (now : Z) (self : Category) (f : LogFunction)
  : res (option bool) :=
  match crelations self with
  | None => Ret None
  | Some rels =>
      match rels !! func f with
      | None => Ret None
      | Some funcs => test_rel_loop now funcs f
      end
  end.

(** [get_rel()] without argument: the names of the relation buckets. *)
Definition Individual_get_rel (self : Individual) : list string :=
  (map_to_list (relations self)).*1.

Definition Category_get_rel (self : Category) : list string :=
  match crelations self with
  | None => []
  | Some rels => (map_to_list rels).*1
  end.

(** [Representation.up_memb] *)
Definition up_memb (now : Z) (kb : Representation) (pred : LogPredicate)
  : Representation :=
  let subject := term pred in
  let categ_name := parent pred in
  let kb1 :=
    if has_dollar subject then
      (* a new individual, or one more membership of a known one *)
      let ind := default (new_Individual subject) (individuals kb !! subject) in
      mkRepr (<[subject := Individual_add_ctg now ind pred]> (individuals kb))
        (classes kb)
    else
      (* a known class, or a new subclass of an other class *)
      let cls := default (new_Category subject) (classes kb !! subject) in
      mkRepr (individuals kb)
        (<[subject := Category_add_ctg now cls pred]> (classes kb)) in
  match classes kb1 !! categ_name with
  | Some _ => kb1
  | None =>
      mkRepr (individuals kb1)
        (<[categ_name := new_Category categ_name]> (classes kb1))
  end.

(** The last step of each branch of [up_rel]: the relation's own
    [Relation] object is created when absent. *)
Definition ensure_relation (kb : Representation) (relation : string)
  : Representation :=
  match classes kb !! relation with
  | Some _ => kb
  | None =>
      mkRepr (individuals kb) (<[relation := new_Relation relation]> (classes kb))
  end.

(** One round of the loop of [up_rel], for one argument name. *)
Definition up_rel_step (now : Z) (kb : Representation) (f : LogFunction)
  (subject : string) : res Representation :=
  if has_dollar subject then
    ind' <- Individual_add_rel now
              (default (new_Individual subject) (individuals kb !! subject)) f ;;
    Ret (ensure_relation
           (mkRepr (<[subject := ind']> (individuals kb)) (classes kb))
           (func f))
  else
    cat' <- Category_add_rel now
              (default (new_Category subject) (classes kb !! subject)) f ;;
    Ret (ensure_relation
           (mkRepr (individuals kb) (<[subject := cat']> (classes kb)))
           (func f)).

(** A statement that mutates the store leaves the store it reached and,
    if it raised, the exception. *)
Definition effect : Type := Representation * option exn.

Fixpoint up_rel_loop (now : Z) (kb : Representation) (f : LogFunction)
  (subjects : list string) : effect :=
  match subjects with
  | [] => (kb, None)
  | subject :: rest =>
      match up_rel_step now kb f subject with
      | Ret kb' => up_rel_loop now kb' f rest
      | Raise e => (kb, Some e)
      end
  end.

(** [Representation.up_rel] *)
Definition up_rel (now : Z) (kb : Representation) (f : LogFunction) : effect :=
  up_rel_loop now kb f (get_args f).

(** [Representation.test_pred]; the class of the atom selects [kls]. *)
Definition test_pred (now : Z) (kb : Representation) (p : Atom)
  : res (option bool) :=
  match p with
  | APred pr =>
      let subject := term pr in
      d <- starts_with_dollar subject ;;
      if d then
        Ret (try_except
               (ind <- match individuals kb !! subject with
                       | Some i => Ret i
                       | None => Raise KeyError
                       end ;;
                Ret (Individual_test_ctg now ind pr))
               None)
      else
        Ret (try_except
               (ind <- match individuals kb !! subject with
                       | Some i => Ret i
                       | None => Raise KeyError
                       end ;;
                Ret (Individual_test_ctg now ind pr))
               None)
  | AFunc f =>
      match get_args f with
      | [] => Ret None
      | subject :: _ =>
          d <- starts_with_dollar subject ;;
          if d then
            Ret (try_except
                   (ind <- match individuals kb !! subject with
                           | Some i => Ret i
                           | None => Raise KeyError
                           end ;;
                    Individual_test_rel now ind f)
                   None)
          else
            Ret (try_except
                   (cls <- match classes kb !! subject with
                           | Some c => Ret c
                           | None => Raise KeyError
                           end ;;
                    Category_test_rel now cls f)
                   None)
      end
  end.

(** ** Insertion-ordered dictionaries keyed by names *)

Definition dict (V : Type) : Type := list (string * V).

Fixpoint dict_get {V : Type} (k : string) (d : dict V) : option V :=
  match d with
  | [] => None
  | (k', v) :: rest => if String.eqb k' k then Some v else dict_get k rest
  end.

(** [d[k] = v]: an existing key keeps its position. *)
Fixpoint dict_set {V : Type} (k : string) (v : V) (d : dict V) : dict V :=
  match d with
  | [] => [(k, v)]
  | (k', v') :: rest =>
      if String.eqb k' k then (k', v) :: rest
      else (k', v') :: dict_set k v rest
  end.

(** [d.setdefault(k, v)] as a statement. *)
Definition dict_setdefault {V : Type} (k : string) (v : V) (d : dict V)
  : dict V :=
  match dict_get k d with
  | Some _ => d
  | None => dict_set k v d
  end.

(** [d.update(other)] *)
Definition dict_update {V : Type} (d other : dict V) : dict V :=
  fold_left (λ acc kv, dict_set kv.1 kv.2 acc) other d.

(** [Representation.objs_by_ctg]: each subject that holds at least one of
    the names, with the names it holds. *)
Definition objs_by_ctg_individuals (kb : Representation) (ctgs : gset string)
  : dict (gset string) :=
  fold_left
    (λ ctg_dic (ki : string * Individual),
       let ind := ki.2 in
       let s := Individual_check_ctg ind (elements ctgs) in
       let t := (list_to_set (Individual_get_rel ind) ∩ ctgs)
                  ∪ list_to_set s in
       if bool_decide (size t ≠ 0%nat) then dict_set (name ind) t ctg_dic
       else ctg_dic)
    (map_to_list (individuals kb)) [].

Definition objs_by_ctg_classes (kb : Representation) (ctgs : gset string)
  : dict (gset string) :=
  fold_left
    (λ ctg_dic (kc : string * Category),
       let cls := kc.2 in
       let s := Category_check_ctg cls (elements ctgs) in
       let t := (list_to_set (Category_get_rel cls) ∩ ctgs)
                  ∪ list_to_set s in
       if bool_decide (size t ≠ 0%nat) then dict_set (cname cls) t ctg_dic
       else ctg_dic)
    (map_to_list (classes kb)) [].

(** ** The sentence evaluator *)

(** [a and b] on truth values: [a] when it is falsy, otherwise [b]. *)
Definition py_and (a b : option bool) : option bool :=
  match a with
  | Some true => b
  | _ => a
  end.

Definition is_True (r : option bool) : bool :=
  match r with Some true => true | _ => false end.
Definition is_False (r : option bool) : bool :=
  match r with Some false => true | _ => false end.
Definition is_None (r : option bool) : bool :=
  match r with None => true | _ => false end.

(** The value a [LogicImplication] node reports from [_results]. *)
Definition implication_value (r0 r1 : option bool) : option bool :=
  if is_None (py_and r0 r1) then None
  else if is_False r1 && is_True r0 then Some false
  else Some true.

(** The value a [LogicEquivalence] node reports. *)
Definition equivalence_value (r0 r1 : option bool) : option bool :=
  if existsb is_None [r0; r1] then None
  else if bool_decide (r0 = r1) then Some true
  else Some false.

(** The value a [LogicConjunction] node reports from [resolve]. *)
Definition conjunction_value (results : list (option bool)) : option bool :=
  if forallb is_True results && negb (Nat.eqb (length results) 0) then Some true
  else if existsb is_False results then Some false
  else None.

(** The value a [LogicDisjunction] node reports from [resolve]; the
    second test is [all([True for x in results if x is False])]. *)
Definition disjunction_value (results : list (option bool)) : option bool :=
  if existsb is_True results && negb (Nat.eqb (length results) 0) then Some true
  else if forallb (λ b : bool, b)
            (map (λ _, true) (filter (λ x, is_False x = true) results))
  then Some false
  else None.

(** [proof.assigned]: variable name to constant. *)
Definition assignment : Type := dict string.

(** [LogicAtom.isvar] *)
Definition isvar (t : string) (assigned : assignment) : string :=
  default t (dict_get t assigned).

(** The arguments of a relation atom with the assigned variables
    replaced. *)
Definition assigned_args (f : LogFunction) (assigned : assignment)
  : list string :=
  map (λ a, isvar a assigned) (get_args f).

Definition lookup_individual (kb : Representation) (n : string)
  : res Individual :=
  match individuals kb !! n with
  | Some i => Ret i
  | None => Raise KeyError
  end.

Definition lookup_class (kb : Representation) (n : string) : res Category :=
  match classes kb !! n with
  | Some c => Ret c
  | None => Raise KeyError
  end.

(** [LogicAtom.resolve]: the truth of one atom, looked up in the store.
    Only the membership branch catches the [KeyError] of a missing
    subject. *)
Definition LogicAtom_resolve (now : Z) (kb : Representation)
  (assigned : assignment) (a : Atom) : res (option bool) :=
  match a with
  | AFunc f =>
      let names := assigned_args f assigned in
      test <- LogFunction_substitute f names ;;
      match names with
      | [] => Raise IndexError
      | a0 :: _ =>
          d <- starts_with_dollar a0 ;;
          if d then
            ind <- lookup_individual kb a0 ;; Individual_test_rel now ind test
          else
            cls <- lookup_class kb a0 ;; Category_test_rel now cls test
      end
  | APred p =>
      let sbj := isvar (term p) assigned in
      match pclass p with
      | GroundedTerm => Raise AttributeError
      | FreeTerm =>
          let test := FreeTerm_substitute p sbj in
          d <- starts_with_dollar sbj ;;
          if negb d then
            try_except_on is_KeyError
              (cls <- lookup_class kb sbj ;; Ret (Category_test_ctg now cls test))
              (Ret None)
          else
            try_except_on is_KeyError
              (ind <- lookup_individual kb sbj ;;
               Ret (Individual_test_ctg now ind test))
              (Ret None)
      end
  end.

(** [resolve] of each particle class; the value is the one the particle
    hands to [parent.return_value]. *)
Fixpoint resolve (now : Z) (kb : Representation) (assigned : assignment)
  (p : Particle) : res (option bool) :=
  match p with
  | LogicAtom a => LogicAtom_resolve now kb assigned a
  | LogicIndCond _ _ => Raise AssertionError
  | LogicEquivalence l r =>
      r0 <- resolve now kb assigned l ;;
      r1 <- resolve now kb assigned r ;;
      Ret (equivalence_value r0 r1)
  | LogicImplication l r =>
      r0 <- resolve now kb assigned l ;;
      r1 <- resolve now kb assigned r ;;
      Ret (implication_value r0 r1)
  | LogicConjunction l r =>
      r0 <- resolve now kb assigned l ;;
      r1 <- resolve now kb assigned r ;;
      Ret (conjunction_value [r0; r1])
  | LogicDisjunction l r =>
      r0 <- resolve now kb assigned l ;;
      r1 <- resolve now kb assigned r ;;
      Ret (disjunction_value [r0; r1])
  end.

(** [proof.result]: absent, or what was stored in it. *)
Inductive sentence_result :=
| RUnset
| RNone
| RBool (b : bool)
| RPreds (l : list Atom).

(** The sentence being evaluated: the store it works on and its
    [result] attribute. *)
Definition proof_state : Type := Representation * sentence_result.

(** The end of [LogicAtom.substitute]: the asserted atom is appended
    to [proof.result]. *)
Definition result_append (r : sentence_result) (a : Atom)
  : res sentence_result :=
  match r with
  | RUnset => Ret (RPreds [a])
  | RPreds l => Ret (RPreds (l ++ [a])%list)
  | RNone | RBool _ => Raise AttributeError
  end.

(** [LogicAtom.substitute]: the atom is grounded with the assigned
    variables and asserted into the store. *)
Definition LogicAtom_substitute (now : Z) (assigned : assignment) (a : Atom)
  (st : proof_state) : proof_state * option exn :=
  let '(kb, result) := st in
  match a with
  | AFunc f =>
      match LogFunction_substitute f (assigned_args f assigned) with
      | Raise e => (st, Some e)
      | Ret pred =>
          match up_rel now kb pred with
          | (kb', Some e) => ((kb', result), Some e)
          | (kb', None) =>
              match result_append result (AFunc pred) with
              | Raise e => ((kb', result), Some e)
              | Ret result' => ((kb', result'), None)
              end
          end
      end
  | APred p =>
      let sbj := isvar (term p) assigned in
      match pclass p with
      | GroundedTerm => (st, Some AttributeError)
      | FreeTerm =>
          match GroundedTerm_fromfree p sbj with
          | Raise e => (st, Some e)
          | Ret pred =>
              let kb' := up_memb now kb pred in
              match result_append result (APred pred) with
              | Raise e => ((kb', result), Some e)
              | Ret result' => ((kb', result'), None)
              end
          end
      end
  end.

(** [substitute] of each particle class. *)
Fixpoint substitute (now : Z) (assigned : assignment) (p : Particle)
  (st : proof_state) : proof_state * option exn :=
  match p with
  | LogicAtom a => LogicAtom_substitute now assigned a st
  | LogicIndCond l r =>
      match resolve now st.1 assigned l with
      | Raise e => (st, Some e)
      | Ret (Some true) => substitute now assigned r st
      | Ret _ => (st, None)
      end
  | LogicConjunction l r =>
      match substitute now assigned l st with
      | (st1, Some e) => (st1, Some e)
      | (st1, None) => substitute now assigned r st1
      end
  | LogicEquivalence _ _ | LogicImplication _ _ | LogicDisjunction _ _ =>
      (st, Some AssertionError)
  end.

Definition truth_result (v : option bool) : sentence_result :=
  match v with
  | None => RNone
  | Some b => RBool b
  end.

(** [solve_proof] of the start particle. *)
Definition solve_proof (now : Z) (assigned : assignment) (p : Particle)
  (kb : Representation) : proof_state * option exn :=
  match p with
  | LogicAtom _ => ((kb, RUnset), Some AttributeError)
  | LogicIndCond l r =>
      match resolve now kb assigned l with
      | Raise e => ((kb, RUnset), Some e)
      | Ret (Some true) => substitute now assigned r (kb, RUnset)
      | Ret (Some false) => ((kb, RBool false), None)
      | Ret None => ((kb, RUnset), None)
      end
  | LogicEquivalence l r =>
      match (r0 <- resolve now kb assigned l ;;
             r1 <- resolve now kb assigned r ;;
             Ret (equivalence_value r0 r1)) with
      | Raise e => ((kb, RUnset), Some e)
      | Ret v => ((kb, truth_result v), None)
      end
  | LogicImplication l r =>
      match (r0 <- resolve now kb assigned l ;;
             r1 <- resolve now kb assigned r ;;
             Ret (implication_value r0 r1)) with
      | Raise e => ((kb, RUnset), Some e)
      | Ret v => ((kb, truth_result v), None)
      end
  | LogicConjunction l r =>
      match (r0 <- resolve now kb assigned l ;;
             r1 <- resolve now kb assigned r ;;
             Ret (conjunction_value [r0; r1])) with
      | Raise e => ((kb, RUnset), Some e)
      | Ret (Some b) => ((kb, RBool b), None)
      | Ret None => ((kb, RUnset), None)
      end
  | LogicDisjunction l r =>
      match (r0 <- resolve now kb assigned l ;;
             r1 <- resolve now kb assigned r ;;
             Ret (disjunction_value [r0; r1])) with
      | Raise e => ((kb, RUnset), Some e)
      | Ret (Some b) => ((kb, RBool b), None)
      | Ret None => ((kb, RUnset), None)
      end
  end.

(** ** Predicates of a sentence *)

Definition atom_name (a : Atom) : string :=
  match a with
  | APred p => parent p
  | AFunc f => func f
  end.

(** [LogSentence.get_all_preds]: the atoms in the order of
    [sent.particles] (a node, then its left and its right subtree). *)
Fixpoint all_preds (p : Particle) : list Atom :=
  match p with
  | LogicAtom a => [a]
  | LogicIndCond l r | LogicEquivalence l r | LogicImplication l r
  | LogicConjunction l r | LogicDisjunction l r =>
      all_preds l ++ all_preds r
  end.

Definition get_all_preds (sent : LogSentence) : list Atom :=
  all_preds (start sent).

(** The atoms whose nearest ancestor among [|>], [=>], [<=>] has them
    on the wanted side; [here] tells whether the current subtree is on
    that side. *)
Fixpoint side_preds (want_left here : bool) (p : Particle) : list Atom :=
  match p with
  | LogicAtom a => if here then [a] else []
  | LogicIndCond l r | LogicEquivalence l r | LogicImplication l r =>
      side_preds want_left want_left l ++ side_preds want_left (negb want_left) r
  | LogicConjunction l r | LogicDisjunction l r =>
      side_preds want_left here l ++ side_preds want_left here r
  end.

(** [LogSentence.get_preds(branch)]: only the branch ['l'] selects the
    left side, any other string selects the right side. *)
Definition get_preds (sent : LogSentence) (branch : string) : list Atom :=
  match start sent with
  | LogicIndCond _ _ | LogicEquivalence _ _ | LogicImplication _ _ =>
      side_preds (String.eqb branch "l") false (start sent)
  | _ => get_all_preds sent
  end.

(** ** Calling a sentence *)

(** The loop of [LogSentence.__call__] that binds [var_order[n]] to
    [args[n]]; [None] is the early [return] on a constant that is not
    an individual of the store. *)
Fixpoint assign_vars (kb : Representation) (vars consts : list string)
  (assigned : assignment) : option assignment :=
  match consts, vars with
  | [], _ => Some assigned
  | const :: consts', v :: vars' =>
      match individuals kb !! const with
      | None => None
      | Some _ => assign_vars kb vars' consts' (dict_set v const assigned)
      end
  | _ :: _, [] => Some assigned
  end.

(** [Representation.thread_manager(to_lock, unlock)]: both branches use
    the atom as a key of [self._locked] ([p in self._locked],
    [self._locked[p]]).  The classes of the atoms ([GroundedTerm],
    [FreeTerm], [RelationFunc]) define [__eq__] and no [__hash__], so
    the first atom raises [TypeError]; without atoms the call does
    nothing. *)
Definition thread_manager (to_lock : list Atom) (unlock : bool) : option exn :=
  match to_lock with
  | [] => None
  | _ :: _ => Some TypeError
  end.

(** The three lines of [LogSentence.__call__] that evaluate the
    sentence: the atoms of the right side are locked, the start particle
    is solved, the atoms are unlocked. *)
Definition locked_proof (now : Z) (assigned : assignment) (sent : LogSentence)
  (kb : Representation) : proof_state * option exn :=
  let preds := get_preds sent "r" in
  match thread_manager preds false with
  | Some e => ((kb, RUnset), Some e)
  | None =>
      match solve_proof now assigned (start sent) kb with
      | (st, Some e) => (st, Some e)
      | (st, None) =>
          match thread_manager preds true with
          | Some e => (st, Some e)
          | None => (st, None)
          end
      end
  end.

(** [LogSentence.__call__(ag, args)]: the store after the call and what
    the call returns ([RUnset] and [RNone] are both Python's [None]). *)
Definition LogSentence_call (now : Z) (kb : Representation)
  (sent : LogSentence) (args_ : list string) : proof_state * option exn :=
  match var_order sent with
  | None => locked_proof now [] sent kb
  | Some vo =>
      if Nat.eqb (length vo) (length args_) then
        match assign_vars kb vo args_ [] with
        | None => ((kb, RUnset), None)
        | Some assigned => locked_proof now assigned sent kb
        end
      else ((kb, RUnset), None)
  end.


(** ** The inference engine *)

Record InferNode := mkNode {
  node_id : nat;                 (* identity of the node object *)
  rule : LogSentence;
  const : string;
  ants : list string;
  subs : dict (gset string)
}.

(** One antecedent's contribution to [subs] in [InferNode.__init__]. *)
Definition subs_add (d : dict (gset string)) (v name_ : string)
  : dict (gset string) :=
  match dict_get v d with
  | Some s => dict_set v (s ∪ {[name_]}) d
  | None => d
  end.

Definition subs_of_ant (d : dict (gset string)) (ant : Atom)
  : dict (gset string) :=
  match ant with
  | AFunc f => fold_left (λ acc v, subs_add acc v (func f)) (get_args f) d
  | APred p => subs_add d (term p) (parent p)
  end.

(** [InferNode(nc, ants, const, rule)] *)
Definition InferNode_init (id : nat) (nc : list string) (ants_ : list Atom)
  (const_ : string) (rule_ : LogSentence) : InferNode :=
  let subs0 : dict (gset string) :=
    match var_order rule_ with
    | Some vo => fold_left (λ acc v, dict_set v ∅ acc) vo []
    | None => []
    end in
  mkNode id rule_ const_ nc (fold_left subs_of_ant ants_ subs0).

(** [SortedListWithKey(key=lambda x: x.rule.created).add(node)]: [add]
    computes the key of the new node before it touches the list, and a
    [LogSentence] has no attribute [created]. *)
Definition sorted_add (n : InferNode) (l : list InferNode)
  : res (list InferNode) :=
  Raise AttributeError.

(** The state of the rule discovery ([get_rules]). *)
Record rules_state := mkRules {
  rs_nodes : dict (list InferNode);
  rs_next : nat;
  rs_ctgs : list string;
  rs_done : list (option string);
  rs_rules : list LogSentence
}.

(** [mk_node(pos)] inside [get_rules], with the [nc], [preds] and [sent]
    of the enclosing loop. *)
Definition mk_node (st : rules_state) (nc : list string) (preds : list Atom)
  (sent : LogSentence) (pos : string) : res rules_state :=
  res_fold
    (λ acc const_atom,
       let pred := atom_name const_atom in
       let node := InferNode_init (rs_next acc) nc preds pred sent in
       let bucket := default [] (dict_get pred (rs_nodes acc)) in
       bucket' <- sorted_add node bucket ;;
       Ret (mkRules (dict_set pred bucket' (rs_nodes acc))
              (S (rs_next acc)) (rs_ctgs acc) (rs_done acc) (rs_rules acc)))
    (get_preds sent pos) st.

(** [[e for e in nc if e not in self.done and e not in self.ctgs]] *)
Definition fresh_names (st : rules_state) (nc : list string) : list string :=
  filter (λ e, (Some e ∉ rs_done st) ∧ (e ∉ rs_ctgs st)) nc.

Definition extend_ctgs (st : rules_state) (nc2 : list string) : rules_state :=
  mkRules (rs_nodes st) (rs_next st) (rs_ctgs st ++ nc2) (rs_done st)
    (rs_rules st).

(** The body of [for sent in chk_rules] in [get_rules]. *)
Definition get_rules_sent (c : string) (st : rules_state) (sent : LogSentence)
  : res rules_state :=
  let preds := get_preds sent "l" in
  let nc := map atom_name preds in
  st1 <- mk_node st nc preds sent "right" ;;
  let st2 := extend_ctgs st1 (fresh_names st1 nc) in
  if bool_decide (c ∈ nc) then
    let preds' := get_preds sent "right" in
    let nc' := map atom_name preds' in
    st3 <- mk_node st2 nc' preds' sent "left" ;;
    Ret (extend_ctgs st3 (fresh_names st3 nc'))
  else Ret st2.

(** Modelled from the spec: [OrderedSet] of simag/core/_helpers.py is
    not under src/.  The rule discovery of the spec fetches the
    sentences of the cog list and visits each new one: [OrderedSet(cog)]
    is the list without repeats, [chk_rules - self.rules] drops the
    sentences seen before and [self.rules | chk_rules] adds the new
    ones, sentences being compared by identity. *)
Fixpoint ordered_set (l : list LogSentence) : list LogSentence :=
  match l with
  | [] => []
  | s :: rest =>
      s :: filter (λ t, same_sent s t = false) (ordered_set rest)
  end.

Definition ordered_diff (a b : list LogSentence) : list LogSentence :=
  filter (λ s, sent_in s b = false) a.

Definition ordered_union (a b : list LogSentence) : list LogSentence :=
  a ++ ordered_diff b a.

(** The calls of [get_rules] that [infer_facts] repeats while [ctgs]
    exists: a name without a class raises [NoSolutionError], which
    [infer_facts] swallows; any other exception leaves [infer_facts].
    The result is [chk_ctgs] and the nodes; [None] only when the fuel
    runs out. *)
Fixpoint get_rules (fuel : nat) (kb : Representation) (st : rules_state)
  : option (res (rules_state * gset string)) :=
  match fuel with
  | O => None
  | S fuel' =>
      match reverse (rs_ctgs st) with
      | [] =>
          Some (Ret (st, list_to_set (omap id (tail (rs_done st)))))
      | c :: rest_rev =>
          let st1 := mkRules (rs_nodes st) (rs_next st) (reverse rest_rev)
                       (rs_done st ++ [Some c]) (rs_rules st) in
          match classes kb !! c with
          | None => get_rules fuel' kb st1
          | Some cls =>
              let chk_rules := ordered_diff (ordered_set (ccog cls))
                                 (rs_rules st1) in
              match res_fold (get_rules_sent c) chk_rules st1 with
              | Raise e => Some (Raise e)
              | Ret st2 =>
                  get_rules fuel' kb
                    (mkRules (rs_nodes st2) (rs_next st2) (rs_ctgs st2)
                       (rs_done st2) (ordered_union (rs_rules st2) chk_rules))
              end
          end
      end
  end.

(** The state of one [Inference] object once the rules are known. *)
Record Inference := mkInf {
  kb : Representation;
  vrs : gset string;
  nodes : dict (list InferNode);
  results : dict (dict (option bool));
  obj_dic : dict (gset string);
  queue : list (nat * list (list string));   (* node to memoized tuples *)
  updated : list bool;
  actv_q : option (string * string * Atom)
}.

Definition set_kb (i : Inference) (k : Representation) : Inference :=
  mkInf k (vrs i) (nodes i) (results i) (obj_dic i) (queue i) (updated i)
    (actv_q i).
Definition set_results (i : Inference) (r : dict (dict (option bool)))
  : Inference :=
  mkInf (kb i) (vrs i) (nodes i) r (obj_dic i) (queue i) (updated i) (actv_q i).
Definition set_obj_dic (i : Inference) (o : dict (gset string)) : Inference :=
  mkInf (kb i) (vrs i) (nodes i) (results i) o (queue i) (updated i) (actv_q i).
Definition set_queue (i : Inference) (q : list (nat * list (list string)))
  : Inference :=
  mkInf (kb i) (vrs i) (nodes i) (results i) (obj_dic i) q (updated i)
    (actv_q i).
Definition set_updated (i : Inference) (u : list bool) : Inference :=
  mkInf (kb i) (vrs i) (nodes i) (results i) (obj_dic i) (queue i) u (actv_q i).
Definition set_actv_q (i : Inference) (a : string * string * Atom)
  : Inference :=
  mkInf (kb i) (vrs i) (nodes i) (results i) (obj_dic i) (queue i) (updated i)
    (Some a).

(** A method of [Inference]: it may run out of fuel ([None]), and
    otherwise leaves a state and a value or an exception. *)
Definition eng (A : Type) : Type := Inference → option (Inference * res A).

Definition eng_ret {A : Type} (a : A) : eng A := λ s, Some (s, Ret a).
Definition eng_raise {A : Type} (e : exn) : eng A := λ s, Some (s, Raise e).
Definition eng_get : eng Inference := λ s, Some (s, Ret s).
Definition eng_modify (f : Inference → Inference) : eng unit :=
  λ s, Some (f s, Ret tt).
Definition eng_bind {A B : Type} (m : eng A) (f : A → eng B) : eng B :=
  λ s, match m s with
       | None => None
       | Some (s', Ret a) => f a s'
       | Some (s', Raise e) => Some (s', Raise e)
       end.

Notation "x <~ m ;; k" := (eng_bind m (fun x => k))
  (at level 20, m at level 99, k at level 200, only parsing).

(** A [for] loop over a list inside a method. *)
Fixpoint eng_for {A : Type} (l : list A) (body : A → eng unit) : eng unit :=
  match l with
  | [] => eng_ret tt
  | x :: rest => _ <~ body x ;; eng_for rest body
  end.

(** [Inference.map_vars]: [subactv] is [[set()] * subs_num], one set
    shared by every position, so each position receives the candidates
    of every variable. *)
Definition map_vars (inf : Inference) (node : InferNode)
  : list (list string) :=
  let shared : gset string :=
    fold_left
      (λ acc (vt : string * gset string),
         let t := vt.2 in
         fold_left
           (λ acc' (os : string * gset string),
              let s := os.2 in
              if bool_decide (size t ≤ size s)%nat
                 && bool_decide (size (s ∩ t) = size t)
              then acc' ∪ {[os.1]} else acc')
           (obj_dic inf) acc)
      (subs node) ∅ in
  replicate (length (subs node)) (elements shared).

(** [itertools.product] over the lists of [mapped], as a list. *)
Fixpoint product (ls : list (list string)) : list (list string) :=
  match ls with
  | [] => [[]]
  | l :: rest => flat_map (λ x, map (cons x) (product rest)) l
  end.

Definition memo_of (inf : Inference) (node : InferNode) : list (list string) :=
  match list_find (λ e : nat * list (list string), e.1 = node_id node)
          (queue inf) with
  | Some (_, e) => e.2
  | None => []
  end.

Definition memo_add (inf : Inference) (node : InferNode) (args_ : list string)
  : Inference :=
  set_queue inf
    (map (λ e : nat * list (list string),
            if Nat.eqb e.1 (node_id node) then (e.1, args_ :: e.2) else e)
       (queue inf)).

(** [self.results[query_obj][query] = v] *)
Definition set_result (query_obj query_ : string) (v : bool) : eng unit :=
  inf <~ eng_get ;;
  match dict_get query_obj (results inf) with
  | None => eng_raise KeyError
  | Some d =>
      eng_modify (λ i, set_results i
        (dict_set query_obj (dict_set query_ (Some v) d) (results i)))
  end.

(** The body of the loop of [add_ctg] inside [unify], for one asserted
    atom [r]; [pred] is the atom of the active query.  The clause
    [except NotCompFuncError] names what kblogic.py imports from
    parser.py; the exception that [RelationFunc.__eq__] raises is of the
    class defined inside [make_function], which no module-level name
    refers to, so the clause catches nothing that [==] raises. *)
Definition add_ctg_one (now : Z) (query_obj query_ : string) (pred : Atom)
  (r : Atom) : eng unit :=
  match r with
  | AFunc rf =>
      _ <~ eng_modify (λ i, set_obj_dic i
             (fold_left (λ d obj, dict_setdefault obj {[func rf]} d)
                (get_args rf) (obj_dic i))) ;;
      match pred with
      | AFunc pf =>
          match RelationFunc_eq now pf rf with
          | Ret b => set_result query_obj query_ b
          | Raise e => eng_raise e
          end
      | APred _ => eng_ret tt
      end
  | APred rp =>
      _ <~ eng_modify (λ i, set_obj_dic i
             (dict_setdefault (term rp) {[parent rp]} (obj_dic i))) ;;
      match pred with
      | APred pp => set_result query_obj query_ (pred_eq now pp rp)
      | AFunc _ => eng_ret tt
      end
  end.

(** The [while not proof_result and len(mapped) > 0] loop of [unify];
    [cands] is [mapped] in the order [mapped.pop()] yields it. *)
Fixpoint try_args (now : Z) (query_obj query_ : string) (pred : Atom)
  (node : InferNode) (cands : list (list string)) : eng unit :=
  match cands with
  | [] => eng_ret tt
  | args_ :: rest =>
      inf <~ eng_get ;;
      if bool_decide (args_ ∈ memo_of inf node)
      then try_args now query_obj query_ pred node rest
      else
        let '((kb', proof_result), e) :=
          LogSentence_call now (kb inf) (rule node) args_ in
        _ <~ eng_modify (λ i, set_kb i kb') ;;
        match e with
        | Some e => eng_raise e
        | None =>
            match proof_result with
            | RPreds l =>
                _ <~ eng_modify (λ i, set_updated i (updated i ++ [true])) ;;
                _ <~ eng_for l (add_ctg_one now query_obj query_ pred) ;;
                _ <~ eng_modify (λ i, memo_add i node args_) ;;
                match l with
                | [] => try_args now query_obj query_ pred node rest
                | _ :: _ => eng_ret tt
                end
            | RBool true =>
                (* [for r in proof_result] on a bool *)
                _ <~ eng_modify (λ i, set_updated i (updated i ++ [true])) ;;
                eng_raise TypeError
            | RBool false | RNone | RUnset =>
                try_args now query_obj query_ pred node rest
            end
        end
  end.

(** The [for node in self.nodes[p]] loop of [unify], in the order of the
    sorted list; it returns the extended [chk]. *)
Fixpoint unify_nodes (now : Z) (query_obj query_ : string) (pred : Atom)
  (p : string) (done : list string) (ns : list InferNode) (chk : list string)
  : eng (list string) :=
  match ns with
  | [] => eng_ret chk
  | node :: rest =>
      inf <~ eng_get ;;
      let mapped := product (map_vars inf node) in
      _ <~ try_args now query_obj query_ pred node (reverse mapped) ;;
      unify_nodes now query_obj query_ pred p done rest
        (if bool_decide (p ∈ done) then chk else ants node ++ chk)
  end.

(** [Inference.unify(p, chk, done)]: [true] stands for the [True] the
    outermost call returns, [false] for [None]; the value of the
    recursive call is dropped by the source. *)
Fixpoint unify (fuel : nat) (now : Z) (p : string)
  (chk done : list string) : eng bool :=
  match fuel with
  | O => λ _, None
  | S fuel' =>
      inf <~ eng_get ;;
      match actv_q inf with
      | None => eng_raise AttributeError
      | Some (query_obj, query_, pred) =>
          chk1 <~ match dict_get p (nodes inf) with
                  | Some ns => unify_nodes now query_obj query_ pred p done ns chk
                  | None => eng_ret chk
                  end ;;
          inf1 <~ eng_get ;;
          if bool_decide (query_ ∈ default ∅ (dict_get query_obj (obj_dic inf1)))
          then eng_ret true
          else
            match chk1 with
            | [] => eng_ret false
            | p' :: chk2 =>
                _ <~ unify fuel' now p' chk2 (done ++ [p]) ;;
                eng_ret false
            end
      end
  end.

(** The [while not result and k is True] loop of [query] inside
    [infer_facts]. *)
Fixpoint query_loop (fuel : nat) (now : Z) (q : string) : eng unit :=
  match fuel with
  | O => λ _, None
  | S fuel' =>
      result <~ unify fuel' now q [] [] ;;
      inf <~ eng_get ;;
      let k := bool_decide (true ∈ updated inf) in
      _ <~ eng_modify (λ i, set_updated i []) ;;
      if negb result && k then query_loop fuel' now q else eng_ret tt
  end.

(** [query(pred, q)] inside [infer_facts]: the memoization table is
    emptied, then the loop runs. *)
Definition query (fuel : nat) (now : Z) (q : string) : eng unit :=
  _ <~ eng_modify (λ i, set_queue i
         (flat_map (λ kv : string * list InferNode,
                      map (λ n, (node_id n, [])) kv.2) (nodes i))) ;;
  _ <~ eng_modify (λ i, set_updated i []) ;;
  query_loop fuel now q.

(** ** Parsing *)

(** The abstract syntax tree of a sentence, as much of it as
    [traverse_ast] reads. *)
Inductive ast_expr :=
| AstKlass (p : ast_pred)
| AstFunc (f : ast_func)
| AstOp (o : string) (lhs rhs : ast_expr).

(** A statement that [make_logic_sent] turns into a sentence.  [as_id]
    is the identity of the object that is built. *)
Record ast_sentence := mkAstSent {
  as_id : nat;
  as_vars : option (list string);
  as_expr : ast_expr
}.

Inductive ast_assertion :=
| AssertKlass (p : ast_pred)
| AssertFunc (f : ast_func).

Inductive ast_stmt :=
| StmtCog (s : ast_sentence)
| StmtRule (s : ast_sentence)
| StmtAssertion (l : list ast_assertion).

(** [traverse_ast]: an atom is built with [make_function] or with
    [make_fact(_, 'free_term')]; an operator the chain of [if]s does not
    know leaves [particle] unbound. *)
Fixpoint traverse_ast (remain : ast_expr) : res Particle :=
  match remain with
  | AstFunc f => form <- make_function f ;; Ret (LogicAtom (AFunc form))
  | AstKlass p => form <- make_fact p free_term ;; Ret (LogicAtom (APred form))
  | AstOp o lhs rhs =>
      if String.eqb o "|>" then
        l <- traverse_ast lhs ;; r <- traverse_ast rhs ;; Ret (LogicIndCond l r)
      else if String.eqb o "<=>" then
        l <- traverse_ast lhs ;; r <- traverse_ast rhs ;;
        Ret (LogicEquivalence l r)
      else if String.eqb o "=>" then
        l <- traverse_ast lhs ;; r <- traverse_ast rhs ;;
        Ret (LogicImplication l r)
      else if String.eqb o "&&" then
        l <- traverse_ast lhs ;; r <- traverse_ast rhs ;;
        Ret (LogicConjunction l r)
      else if String.eqb o "||" then
        l <- traverse_ast lhs ;; r <- traverse_ast rhs ;;
        Ret (LogicDisjunction l r)
      else Raise NameError
  end.

(** [make_logic_sent]: the particles of the tree and the variables of
    the statement. *)
Definition make_logic_sent (ast : ast_sentence) : res LogSentence :=
  p <- traverse_ast (as_expr ast) ;;
  Ret (mkSent (as_id ast) p (as_vars ast)).

(** The lists of [ParseResults]; the class has no other attribute. *)
Record ParseResults := mkParse {
  assert_memb : list LogPredicate;
  assert_rel : list LogFunction;
  assert_rules : list LogSentence;
  assert_cogs : list LogSentence
}.

(** The body of [for assertion in stmt.assertion]: a membership is
    built as a grounded term under [tell] and as a free term under
    [ask]. *)
Definition parse_assertion (tell_ : bool) (results_ : ParseResults)
  (a : ast_assertion) : res ParseResults :=
  match a with
  | AssertKlass p =>
      memb <- make_fact p (if tell_ then grounded_term else free_term) ;;
      Ret (mkParse (assert_memb results_ ++ [memb]) (assert_rel results_)
             (assert_rules results_) (assert_cogs results_))
  | AssertFunc f =>
      fn <- make_function f ;;
      Ret (mkParse (assert_memb results_) (assert_rel results_ ++ [fn])
             (assert_rules results_) (assert_cogs results_))
  end.

(** [logic_parser(string, tell)], from the tree of the grammar on. *)
Definition logic_parser (tell_ : bool) (ast : list ast_stmt) : res ParseResults :=
  res_fold
    (λ results_ stmt,
       match stmt with
       | StmtCog s =>
           sent <- make_logic_sent s ;;
           Ret (mkParse (assert_memb results_) (assert_rel results_)
                  (assert_rules results_) (assert_cogs results_ ++ [sent]))
       | StmtRule s =>
           sent <- make_logic_sent s ;;
           Ret (mkParse (assert_memb results_) (assert_rel results_)
                  (assert_rules results_ ++ [sent]) (assert_cogs results_))
       | StmtAssertion l => res_fold (parse_assertion tell_) l results_
       end)
    ast (mkParse [] [] [] []).

(** ** Queries *)

(** What [ask] receives: a query string (here the tree of the grammar)
    or an atom. *)
Inductive ask_sent :=
| AskString (ast : list ast_stmt)
| AskAtom (a : Atom).

(** What [get_query] computes. *)
Record query_state := mkQS {
  qs_results : dict (dict (option bool));
  qs_vrs : gset string;
  qs_terms : dict (list Atom);
  qs_ctgs : list string
}.

Definition terms_append (k : string) (a : Atom) (d : dict (list Atom))
  : dict (list Atom) :=
  match dict_get k d with
  | None => dict_set k [a] d
  | Some l => dict_set k (l ++ [a]) d
  end.

(** [D = self.results.setdefault(k, {}); D[n] = True] *)
Definition results_mark_true (k n : string) (r : dict (dict (option bool)))
  : dict (dict (option bool)) :=
  dict_set k (dict_set n (Some true) (default [] (dict_get k r))) r.

(** [assert_memb] inside [get_query] *)
Definition get_query_assert_memb (now : Z) (kb_ : Representation)
  (st : query_state) (p : LogPredicate) : res query_state :=
  result <- test_pred now kb_ (APred p) ;;
  if is_True result then
    Ret (mkQS (results_mark_true (term p) (parent p) (qs_results st))
           (qs_vrs st) (qs_terms st) (qs_ctgs st))
  else
    Ret (mkQS (qs_results st) (qs_vrs st)
           (terms_append (term p) (APred p) (qs_terms st))
           (qs_ctgs st ++ [parent p])).

(** [assert_rel] inside [get_query] *)
Definition get_query_assert_rel (now : Z) (kb_ : Representation)
  (st : query_state) (p : LogFunction) : res query_state :=
  result <- test_pred now kb_ (AFunc p) ;;
  let st1 :=
    fold_left
      (λ acc obj,
         if is_True result then
           mkQS (results_mark_true obj (func p) (qs_results acc))
             (qs_vrs acc) (qs_terms acc) (qs_ctgs acc)
         else
           mkQS (qs_results acc) (qs_vrs acc)
             (terms_append obj (AFunc p) (qs_terms acc)) (qs_ctgs acc))
      (get_args p) st in
  if is_True result then Ret st1
  else Ret (mkQS (qs_results st1) (qs_vrs st1) (qs_terms st1)
              (qs_ctgs st1 ++ [func p])).

(** [Inference.get_query] ([ignore_current] is left at [False]).  For
    a string, the loops over [assert_rel] and [assert_memb] are followed
    by [for q in query.queries], and [ParseResults] has no attribute
    [queries]. *)
Definition get_query (now : Z) (kb_ : Representation) (sent : ask_sent)
  : res query_state :=
  match sent with
  | AskString ast =>
      query_ <- logic_parser false ast ;;
      st1 <- res_fold (get_query_assert_rel now kb_) (assert_rel query_)
               (mkQS [] ∅ [] []) ;;
      st2 <- res_fold (get_query_assert_memb now kb_) (assert_memb query_)
               st1 ;;
      Raise AttributeError
  | AskAtom (AFunc f) =>
      result <- test_pred now kb_ (AFunc f) ;;
      let '(rs, qy) :=
        fold_left
          (λ (acc : dict (dict (option bool)) * dict (list Atom)) obj,
             (if is_True result
              then dict_set obj [(func f, Some true)] acc.1 else acc.1,
              dict_set obj [AFunc f] acc.2))
          (get_args f) ([], []) in
      Ret (mkQS rs ∅ qy [func f])
  | AskAtom (APred p) =>
      match pclass p with
      | FreeTerm =>
          Ret (mkQS [] {[term p]} [(term p, [APred p])] [parent p])
      | GroundedTerm =>
          result <- test_pred now kb_ (APred p) ;;
          Ret (mkQS (if is_True result
                     then [(term p, [(parent p, Some true)])] else [])
                 ∅ [(term p, [APred p])] [parent p])
      end
  end.

(** The body of [for pred in preds] in [infer_facts] for a [var] that is
    not a variable of the query. *)
Definition infer_pred (fuel : nat) (now : Z) (var : string) (pred : Atom)
  : eng unit :=
  let q := atom_name pred in
  _ <~ eng_modify (λ i, set_actv_q i (var, q, pred)) ;;
  inf <~ eng_get ;;
  _ <~ (if bool_decide (is_Some (dict_get q
                         (default [] (dict_get var (results inf)))))
        then eng_ret tt
        else query fuel now q) ;;
  eng_modify (λ i, set_results i
    (dict_set var
       (dict_setdefault q None (default [] (dict_get var (results i))))
       (results i))).

(** The body of [for pred in preds] for a [var] in [self.vrs]: every
    round of the loop over [obj_dic] raises, a relation by
    [NotImplementedError], a membership inside
    [make_fact(pred, 'grounded_term', from_free=True, sbj=obj)], whose
    keyword is not the [fromfree] of [GroundedTerm.__init__]. *)
Definition infer_var_pred (pred : Atom) : eng unit :=
  inf <~ eng_get ;;
  match obj_dic inf with
  | [] => eng_ret tt
  | _ :: _ =>
      match pred with
      | AFunc _ => eng_raise NotImplementedError
      | APred _ => eng_raise AttributeError
      end
  end.

(** The loop [for var, preds in self.query.items()] of [infer_facts]. *)
Definition infer_query_item (fuel : nat) (now : Z)
  (item : string * list Atom) : eng unit :=
  let '(var, preds) := item in
  inf <~ eng_get ;;
  if bool_decide (var ∈ vrs inf) then eng_for preds infer_var_pred
  else
    _ <~ eng_modify (λ i, set_results i
           (dict_setdefault var [] (results i))) ;;
    eng_for preds (infer_pred fuel now var).

(** [Inference(kb, sent)]: [infer_facts] from the query to the
    results.  [None] only when the fuel runs out. *)
Definition infer_facts (fuel : nat) (now : Z) (kb_ : Representation)
  (sent : ask_sent) : option (Inference * res unit) :=
  match get_query now kb_ sent with
  | Raise e => Some (mkInf kb_ ∅ [] [] [] [] [] None, Raise e)
  | Ret qs =>
      match get_rules fuel kb_ (mkRules [] 0 (qs_ctgs qs) [None] []) with
      | None => None
      | Some (Raise e) =>
          Some (mkInf kb_ (qs_vrs qs) [] (qs_results qs) [] [] [] None, Raise e)
      | Some (Ret (rs, chk_ctgs)) =>
          let od := dict_update (objs_by_ctg_individuals kb_ chk_ctgs)
                      (objs_by_ctg_classes kb_ chk_ctgs) in
          eng_for (qs_terms qs) (infer_query_item fuel now)
            (mkInf kb_ (qs_vrs qs) (rs_nodes rs) (qs_results qs) od [] [] None)
      end
  end.

(** The loops of [ask] under [single is True]: the first value that is
    not [True] is returned. *)
Fixpoint ask_values (vals : list (option bool)) : option bool :=
  match vals with
  | [] => Some true
  | Some false :: _ => Some false
  | None :: _ => None
  | Some true :: rest => ask_values rest
  end.

Definition ask_single (results_ : dict (dict (option bool))) : option bool :=
  ask_values (flat_map (λ answ : string * dict (option bool), answ.2.*2)
                results_).

(** What [ask] returns. *)
Inductive answer :=
| Single (v : option bool)
| Mapping (r : dict (dict (option bool))).

(** [Representation.ask(sent, single)]: the store after the call and the
    answer or the exception. *)
Definition ask (fuel : nat) (now : Z) (kb_ : Representation) (sent : ask_sent)
  (single : bool) : option (Representation * res answer) :=
  match infer_facts fuel now kb_ sent with
  | None => None
  | Some (inf, Raise e) => Some (kb inf, Raise e)
  | Some (inf, Ret _) =>
      Some (kb inf,
            Ret (if single then Single (ask_single (results inf))
                 else Mapping (results inf)))
  end.

(** ** [tell]: storing *)

(** [Category.add_cog] *)
Definition Category_add_cog (self : Category) (sent : LogSentence) : Category :=
  if sent_in sent (ccog self) then self
  else mkCat (cname self) (ccog self ++ [sent]) (parents self)
         (crelations self) (is_Relation self).

(** [Individual.add_cog] *)
Definition Individual_add_cog (self : Individual) (p : string)
  (sent : LogSentence) : Individual :=
  match dict_get p (cog self) with
  | Some l =>
      if sent_in sent l
      then mkInd (name self) (categ self) (relations self)
             (dict_set p [sent] (cog self))
      else mkInd (name self) (categ self) (relations self)
             (dict_set p (l ++ [sent]) (cog self))
  | None =>
      mkInd (name self) (categ self) (relations self)
        (dict_set p [sent] (cog self))
  end.

Definition set_class (kb_ : Representation) (k : string) (c : Category)
  : Representation :=
  mkRepr (individuals kb_) (<[k := c]> (classes kb_)).

Definition set_individual (kb_ : Representation) (k : string) (i : Individual)
  : Representation :=
  mkRepr (<[k := i]> (individuals kb_)) (classes kb_).

(** [Category(n)] for a membership atom, [Relation(n)] for a relation. *)
Definition new_class_for (a : Atom) (n : string) : Category :=
  match a with
  | APred _ => new_Category n
  | AFunc _ => new_Relation n
  end.

(** The first loop of [save_rule]: the rule is indexed under the name
    of each of its atoms. *)
Definition save_rule_index (proof : LogSentence) (kb_ : Representation)
  (p : Atom) : Representation :=
  let n := atom_name p in
  match classes kb_ !! n with
  | Some cls =>
      if negb (sent_in proof (ccog cls))
      then set_class kb_ n (Category_add_cog cls proof)
      else set_class kb_ n (Category_add_cog (new_class_for p n) proof)
  | None => set_class kb_ n (Category_add_cog (new_class_for p n) proof)
  end.

(** The characters of a name, which is what [proof(self, obj)] binds the
    variables to when [obj] is a string. *)
Fixpoint chars (s : string) : list string :=
  match s with
  | EmptyString => []
  | String c rest => String c EmptyString :: chars rest
  end.

(** A loop of statements that stops at the first exception. *)
Fixpoint effect_for {A : Type} (l : list A)
  (body : Representation → A → effect) (kb_ : Representation) : effect :=
  match l with
  | [] => (kb_, None)
  | x :: rest =>
      match body kb_ x with
      | (kb', Some e) => (kb', Some e)
      | (kb', None) => effect_for rest body kb'
      end
  end.

(** [Representation.save_rule] *)
Definition save_rule (now : Z) (kb_ : Representation) (proof : LogSentence)
  : effect :=
  let preds := get_all_preds proof in
  let kb1 := fold_left (save_rule_index proof) preds kb_ in
  let n : gset string := list_to_set (map atom_name preds) in
  let od := dict_update (objs_by_ctg_individuals kb1 n)
              (objs_by_ctg_classes kb1 n) in
  effect_for od.*1
    (λ k obj,
       let '((k', _), e) := LogSentence_call now k proof (chars obj) in (k', e))
    kb1.

(** [chk_args(p)] inside [add_cog], for the subject [sbj] of the atom
    [pred]. *)
Definition add_cog_chk_args (sent : LogSentence) (pred : Atom)
  (kb_ : Representation) (sbj p : string) : Representation :=
  if match var_order sent with
     | Some vo => bool_decide (sbj ∈ vo)
     | None => false
     end
  then
    match classes kb_ !! p with
    | Some cls => set_class kb_ p (Category_add_cog cls sent)
    | None => set_class kb_ p (Category_add_cog (new_class_for pred sbj) sent)
    end
  else
    if has_dollar sbj then
      set_individual kb_ sbj
        (Individual_add_cog
           (default (new_Individual sbj) (individuals kb_ !! sbj)) p sent)
    else
      match classes kb_ !! sbj with
      | Some cls => set_class kb_ sbj (Category_add_cog cls sent)
      | None =>
          set_class kb_ sbj (Category_add_cog (new_class_for pred sbj) sent)
      end.

(** [Representation.add_cog]: the sentence is indexed, then
    [sent.get_preds('r', return_obj=True)] is called, with a keyword
    that [get_preds] does not accept. *)
Definition add_cog (kb_ : Representation) (sent : LogSentence) : effect :=
  let kb1 :=
    fold_left
      (λ k pred,
         match pred with
         | AFunc f =>
             fold_left (λ k' sbj, add_cog_chk_args sent pred k' sbj (func f))
               (get_args f) k
         | APred p => add_cog_chk_args sent pred k (term p) (parent p)
         end)
      (get_all_preds sent) kb_ in
  (kb1, Some TypeError).

(** [Representation.tell], from the tree of the grammar on.  The parse
    is complete before the first atom is stored.  The records of the
    belief maintenance system are kept apart from the store and are not
    part of the model. *)
Definition tell (now : Z) (kb_ : Representation) (ast : list ast_stmt) : effect :=
  match logic_parser true ast with
  | Raise e => (kb_, Some e)
  | Ret results_ =>
      match effect_for (assert_memb results_)
              (λ k a, (up_memb now k a, None)) kb_ with
      | (kb1, Some e) => (kb1, Some e)
      | (kb1, None) =>
          match effect_for (assert_rel results_) (up_rel now) kb1 with
          | (kb2, Some e) => (kb2, Some e)
          | (kb2, None) =>
              match effect_for (assert_rules results_) (save_rule now) kb2 with
              | (kb3, Some e) => (kb3, Some e)
              | (kb3, None) => effect_for (assert_cogs results_) add_cog kb3
              end
          end
      end
  end.

(** * Example stores and queries *)

Definition cold_09 : LogPredicate :=
  mkPred GroundedTerm "cold" "$Water" (9 # 10) "=" None.
Definition cold_01 : LogPredicate :=
  mkPred GroundedTerm "cold" "$Water" (1 # 10) "=" None.

Definition told (now : Z) (kb_ : Representation) (ast : list ast_stmt)
  : Representation :=
  (tell now kb_ ast).1.

Definition memb_stmt (k t : string) (v : Q) : ast_stmt :=
  StmtAssertion [AssertKlass (mk_ast_pred k [mk_ast_arg t (Some ("=", v))])].

Definition free_atom (k t : string) (v : Q) : LogPredicate :=
  mkPred FreeTerm k t v "=" None.

(** The store after [tell("professor[$Lucy,u=0]")]. *)
Definition kb_lucy_not_professor : Representation :=
  told 0 empty_Representation [memb_stmt "professor" "$Lucy" 0].

Definition lucy_professor_implies_person : Particle :=
  LogicImplication (LogicAtom (APred (free_atom "professor" "$Lucy" 1)))
    (LogicAtom (APred (free_atom "person" "$Lucy" 1))).

Definition klass_atom (k t : string) (v : Q) : ast_expr :=
  AstKlass (mk_ast_pred k [mk_ast_arg t (Some ("=", v))]).

(** The store after [tell("professor[$Lucy,u=1]")]. *)
Definition kb_lucy_professor : Representation :=
  told 0 empty_Representation [memb_stmt "professor" "$Lucy" 1].

(** The store after the rule [drunk[x,u=1] |> sober[x,u=0]] and the fact
    [drunk[$Lucy,u=1]]. *)
Definition kb_drunk_lucy : Representation :=
  told 1
    (told 0 empty_Representation
       [StmtRule (mkAstSent 1 (Some ["x"])
                    (AstOp "|>" (klass_atom "drunk" "x" 1)
                       (klass_atom "sober" "x" 0)))])
    [memb_stmt "drunk" "$Lucy" 1].

(** * Invariants of the store *)

(** An invariant of the store given by a property [PI] of each
    individual and a property [PC] of each class, under their keys. *)
Definition store_inv (PI : string → Individual → Prop)
  (PC : string → Category → Prop) (kb_ : Representation) : Prop :=
  map_Forall PI (individuals kb_) ∧ map_Forall PC (classes kb_).

(** Every atom of a particle has the property [Fa]. *)
Fixpoint particle_atoms (Fa : Atom → Prop) (p : Particle) : Prop :=
  match p with
  | LogicAtom a => Fa a
  | LogicIndCond l r | LogicEquivalence l r | LogicImplication l r
  | LogicConjunction l r | LogicDisjunction l r =>
      particle_atoms Fa l ∧ particle_atoms Fa r
  end.

(** The state of an [Inference] over the store [kb0] that holds no
    node. *)
Definition idle (kb0 : Representation) (i : Inference) : Prop :=
  kb i = kb0 ∧ nodes i = [].

(** A method of [Inference] keeps a property of the state, also when it
    raises. *)
Definition eng_preserves {A : Type} (I : Inference → Prop) (m : eng A) : Prop :=
  ∀ s s' r, I s → m s = Some (s', r) → I s'.

(** The stores that sequences of [tell] and [ask] reach, including the
    stores that a call that raised leaves behind. *)
Inductive reachable : Representation → Prop :=
| reachable_empty : reachable empty_Representation
| reachable_tell (now : Z) (kb_ : Representation) (ast : list ast_stmt) :
    reachable kb_ → reachable (tell now kb_ ast).1
| reachable_ask (fuel : nat) (now : Z) (kb_ : Representation)
    (sent : ask_sent) (single : bool) (kb' : Representation) (r : res answer) :
    reachable kb_ → ask fuel now kb_ sent single = Some (kb', r) →
    reachable kb'.





(** The membership atoms a subject holds, as an individual and as a
    class. *)
Definition individual_membs (kb_ : Representation) (subject : string)
  : list LogPredicate :=
  match individuals kb_ !! subject with
  | Some ind => categ ind
  | None => []
  end.

Definition class_membs (kb_ : Representation) (subject : string)
  : list LogPredicate :=
  match classes kb_ !! subject with
  | Some cls => default [] (parents cls)
  | None => []
  end.

(** The relation atoms a subject holds under one relation name. *)
Definition individual_rels (kb_ : Representation) (subject relation : string)
  : list LogFunction :=
  match individuals kb_ !! subject with
  | Some ind => default [] (relations ind !! relation)
  | None => []
  end.

Definition class_rels (kb_ : Representation) (subject relation : string)
  : list LogFunction :=
  match classes kb_ !! subject with
  | Some cls =>
      match crelations cls with
      | Some rels => default [] (rels !! relation)
      | None => []
      end
  | None => []
  end.

(** The list of membership atoms [up_memb] works on for a subject: the
    individual's when the name holds a [$], the class's otherwise. *)
Definition subject_membs (kb_ : Representation) (subject : string)
  : list LogPredicate :=
  if has_dollar subject then individual_membs kb_ subject
  else class_membs kb_ subject.

(** At most one membership atom per category, one relation atom per
    bucket, and individuals only under names with a [$], holding atoms
    about themselves. *)
Definition unique_PI (k : string) (ind : Individual) : Prop :=
  has_dollar k = true ∧ NoDup (parent <$> categ ind) ∧
  Forall (λ p, term p = k) (categ ind) ∧
  map_Forall (λ _ bucket, length bucket = 1%nat) (relations ind).

Definition unique_PC (_ : string) (cls : Category) : Prop :=
  (∀ ps, parents cls = Some ps → NoDup (parent <$> ps)) ∧
  (∀ rels, crelations cls = Some rels →
           map_Forall (λ _ bucket, length bucket = 1%nat) rels).

(** The store after [tell("cold[$Water,u=0.9]")], and after the later
    [tell("cold[$Water,u=0.1]")] at time 5. *)
Definition kb_cold_09 : Representation :=
  told 0 empty_Representation [memb_stmt "cold" "$Water" (9 # 10)].

Definition cold_water_ast (v : Q) : ast_pred :=
  mk_ast_pred "cold" [mk_ast_arg "$Water" (Some ("=", v))].

Definition cold_water (v : Q) : LogPredicate :=
  mkPred GroundedTerm "cold" "$Water" v "=" None.









(** The parse of [<friend[obj,u=v;sbj]>] and the atom it builds. *)
Definition friend_ast (obj sbj : string) (v : Q) : ast_func :=
  mk_ast_func "friend" [mk_ast_arg obj (Some ("=", v)); mk_ast_arg sbj None].

Definition friend_atom (obj sbj : string) (v : Q) : LogFunction :=
  mkFunc "friend" [ArgVal obj v "="; ArgBare sbj] [obj; sbj] 2 (VNum v) None.

(** The store after [tell("<friend[$John,u=1;$Lucy]>")], and after the
    later [tell("<friend[$John,u=1;$Mary]>")]. *)
Definition kb_john_lucy : Representation :=
  told 0 empty_Representation
    [StmtAssertion [AssertFunc (friend_ast "$John" "$Lucy" 1)]].

Definition kb_john_lucy_mary : Representation :=
  told 1 kb_john_lucy
    [StmtAssertion [AssertFunc (friend_ast "$John" "$Mary" 1)]].


(** The store after [tell("animal[cow,u=1]")] and the atom told. *)
Definition kb_cow : Representation :=
  told 0 empty_Representation [memb_stmt "animal" "cow" 1].

Definition animal_cow : LogPredicate :=
  mkPred GroundedTerm "animal" "cow" 1 "=" None.

(** The store after [<friend[$Bob,u=1;$Lucy]>] and the rule
    [:vars:x:(<friend[$Ghost,u=1;x]> |> happy[x,u=1])], whose antecedent
    names a subject the store does not hold. *)
Definition kb_ghost_relation_rule : Representation :=
  told 1
    (told 0 empty_Representation
       [StmtAssertion [AssertFunc (friend_ast "$Bob" "$Lucy" 1)]])
    [StmtRule (mkAstSent 1 (Some ["x"])
                 (AstOp "|>" (AstFunc (friend_ast "$Ghost" "x" 1))
                    (klass_atom "happy" "x" 1)))].

(** The query [happy[$Lucy,u=1]], as an atom. *)
Definition happy_lucy : Atom :=
  APred (mkPred GroundedTerm "happy" "$Lucy" 1 "=" None).

(** Two rules with the consequent [flies], told one after the other,
    then [bird[$Tweety,u=1]]: the older rule asserts the value 0.3, the
    newer one 0.7. *)
Definition kb_two_rules : Representation :=
  told 3
    (told 2
       (told 1 empty_Representation
          [StmtRule (mkAstSent 1 (Some ["x"])
                       (AstOp "|>" (klass_atom "bird" "x" 1)
                          (klass_atom "flies" "x" (3 # 10))))])
       [StmtRule (mkAstSent 2 (Some ["x"])
                    (AstOp "|>" (klass_atom "bird" "x" 1)
                       (klass_atom "flies" "x" (7 # 10))))])
    [memb_stmt "bird" "$Tweety" 1].

(** The rule [:vars:x:(bird[x,u=1] |> flies[x,u=v])] as the sentence
    that [make_logic_sent] builds. *)
Definition flies_rule (id : nat) (v : Q) : LogSentence :=
  mkSent id
    (LogicIndCond (LogicAtom (APred (free_atom "bird" "x" 1)))
       (LogicAtom (APred (free_atom "flies" "x" v))))
    (Some ["x"]).

(** The query [flies[$Tweety,u=0.7]], as an atom. *)
Definition flies_tweety : Atom :=
  APred (mkPred GroundedTerm "flies" "$Tweety" (7 # 10) "=" None).



(** The atom of [<enemy[$John,u=1;$Lucy]>]. *)
Definition enemy_atom : LogFunction :=
  mkFunc "enemy" [ArgVal "$John" 1 "="; ArgBare "$Lucy"] ["$John"; "$Lucy"] 2
    (VNum 1) None.

(** * Further methods of the atoms and of the store *)

(** [isinstance(arg, tuple)] on an element of [args]. *)
Definition is_valued (a : func_arg) : bool :=
  match a with
  | ArgVal _ _ _ => true
  | ArgBare _ => false
  end.

(** The loop of [RelationFunc.__ne__]: the first tuple argument reads
    [other.arg], an attribute no atom has; a bare argument is skipped,
    so [result] is bound in no round. *)
Fixpoint rel_ne_loop (self_args : list func_arg) (result : option bool)
  : res (option bool) :=
  match self_args with
  | [] => Ret result
  | ArgBare _ :: rest => rel_ne_loop rest result
  | ArgVal _ _ _ :: _ => Raise AttributeError
  end.

(** [RelationFunc.__ne__]: [Some true] is the [True] of the last line,
    [None] the [None] of a call that falls off its end. *)
Definition RelationFunc_ne (now : Z) (self other : LogFunction)
  : res (option bool) :=
  comparable <- chk_args_eq self other ;;
  if negb comparable then Raise NotCompFuncError
  else
    result <- rel_ne_loop (args self) None ;;
    let time_truth := eval_time_truth now (fdates self) (fdates other) in
    if negb time_truth then
      match result with
      | None => Raise NameError
      | Some r => if negb r then Ret (Some true) else Ret None
      end
    else Ret None.

(** A membership atom together with the attribute [oldTerm] that
    [change_params] sets and deletes. *)
Record PredParams := mkPredParams {
  pp_atom : LogPredicate;
  pp_oldTerm : option string
}.

Definition set_term (p : LogPredicate) (t : string) : LogPredicate :=
  mkPred (pclass p) (parent p) t (value p) (op p) (dates p).

(** [LogPredicate.change_params(new, revert)] *)
Definition LogPredicate_change_params (self : PredParams) (new : string)
  (revert : bool) : res PredParams :=
  if negb revert then
    Ret (mkPredParams (set_term (pp_atom self) new)
           (Some (term (pp_atom self))))
  else
    match pp_oldTerm self with
    | None => Raise AttributeError
    | Some old => Ret (mkPredParams (set_term (pp_atom self) old) None)
    end.

(** A relation atom together with the attributes [oldTerm] and [term]
    that [change_params] sets. *)
Record FuncParams := mkFuncParams {
  fp_atom : LogFunction;
  fp_oldTerm : option (list func_arg);
  fp_term : option (list func_arg)
}.

Definition set_args (f : LogFunction) (l : list func_arg) : LogFunction :=
  mkFunc (func f) l (args_ID f) (arity f) (fvalue f) (fdates f).

(** The loop of [LogFunction.change_params]: [args] is changed in place,
    so the rounds before an [IndexError] have taken effect. *)
Fixpoint change_args (l : list func_arg) (new : list string)
  : list func_arg * option exn :=
  match l with
  | [] => ([], None)
  | a :: l' =>
      match new with
      | [] => (a :: l', Some IndexError)
      | n :: new' =>
          let '(rest, e) := change_args l' new' in (set_arg_name a n :: rest, e)
      end
  end.

(** [LogFunction.change_params(new, revert)]: the branch of [revert]
    assigns the saved arguments to [self.term]. *)
Definition LogFunction_change_params (self : FuncParams) (new : list string)
  (revert : bool) : FuncParams * option exn :=
  if negb revert then
    let '(l, e) := change_args (args (fp_atom self)) new in
    (mkFuncParams (set_args (fp_atom self) l) (Some (args (fp_atom self)))
       (fp_term self), e)
  else
    match fp_oldTerm self with
    | None => (self, Some AttributeError)
    | Some old => (mkFuncParams (fp_atom self) None (Some old), None)
    end.

(** The argument [ctg] of [get_ctg]. *)
Inductive ctg_arg :=
| CtgNone
| CtgName (n : string)
| CtgPred (p : LogPredicate).

(** What [get_ctg] returns. *)
Inductive ctg_answer :=
| CtgDict (d : dict Q)
| CtgValue (v : option Q)
| CtgObj (o : option LogPredicate).

(** [{c.parent: c.value for c in atoms}] *)
Definition ctg_values (atoms : list LogPredicate) : dict Q :=
  fold_left (λ d c, dict_set (parent c) (value c) d) atoms [].

(** [for c in atoms: if c.parent == ctg: return c] *)
Definition ctg_by_name (atoms : list LogPredicate) (n : string)
  : option LogPredicate :=
  snd <$> list_find (λ c, parent c = n) atoms.

(** [for c in atoms: if ctg == c: return c] *)
Definition ctg_by_eq (now : Z) (atoms : list LogPredicate) (ctg : LogPredicate)
  : option LogPredicate :=
  snd <$> list_find (λ c, pred_eq now ctg c = true) atoms.

(** The part of [get_ctg] after [obj is True] has failed: an atom used
    as the key of the dictionary is not hashable. *)
Definition ctg_lookup (atoms : list LogPredicate) (ctg : ctg_arg)
  : res ctg_answer :=
  let cat := ctg_values atoms in
  match ctg with
  | CtgNone => Ret (CtgDict cat)
  | CtgName n => Ret (CtgValue (dict_get n cat))
  | CtgPred _ => Raise TypeError
  end.

(** [Individual.get_ctg(ctg, obj)] *)
Definition Individual_get_ctg (now : Z) (self : Individual) (ctg : ctg_arg)
  (obj : bool) : res ctg_answer :=
  if obj then
    match ctg with
    | CtgName n => Ret (CtgObj (ctg_by_name (categ self) n))
    | CtgPred p => Ret (CtgObj (ctg_by_eq now (categ self) p))
    | CtgNone => Raise AssertionError
    end
  else ctg_lookup (categ self) ctg.

(** [Category.get_ctg(ctg, obj)]: [self.parents] is read without the
    [hasattr] test of [test_ctg] and [check_ctg]. *)
Definition Category_get_ctg (now : Z) (self : Category) (ctg : ctg_arg)
  (obj : bool) : res ctg_answer :=
  if obj then
    match ctg with
    | CtgPred p =>
        match parents self with
        | None => Raise AttributeError
        | Some ps => Ret (CtgObj (ctg_by_eq now ps p))
        end
    | CtgName _ | CtgNone => Raise AssertionError
    end
  else
    match parents self with
    | None => Raise AttributeError
    | Some ps => ctg_lookup ps ctg
    end.

(** What [get_rel(func)] returns: [None], the stored atom, or the list
    of the relation names. *)
Inductive rel_answer :=
| RelNone
| RelFunc (f : LogFunction)
| RelNames (l : list string).

(** [for f in funcs: if f.args_ID == func.args_ID: return f] *)
Definition rel_by_id (funcs : list LogFunction) (f : LogFunction)
  : option LogFunction :=
  snd <$> list_find (λ g, args_ID g = args_ID f) funcs.

(** [Individual.get_rel(func)] with a function: when the bucket holds no
    atom of these arguments the method goes on to the list of names. *)
Definition Individual_get_rel_func (self : Individual) (f : LogFunction)
  : rel_answer :=
  match relations self !! func f with
  | None => RelNone
  | Some funcs =>
      match rel_by_id funcs f with
      | Some g => RelFunc g
      | None => RelNames (Individual_get_rel self)
      end
  end.

(** [Category.get_rel(func)] with a function. *)
Definition Category_get_rel_func (self : Category) (f : LogFunction)
  : rel_answer :=
  match crelations self with
  | None => RelNone
  | Some rels =>
      match rels !! func f with
      | None => RelNone
      | Some funcs =>
          match rel_by_id funcs f with
          | Some g => RelFunc g
          | None => RelNone
          end
      end
  end.

(** The verdict of one round of the loop of [RelationFunc.__eq__] on a
    tuple [(_, v, o)] of the left atom and a tuple of value [v'] of the
    right one. *)
Definition value_verdict (o : string) (v v' : Q) : bool :=
  if String.eqb o "=" then Qeq_bool v v'
  else if String.eqb o ">" then negb (Qlt_bool v' v)
  else if String.eqb o "<" then negb (Qlt_bool v v')
  else true.

(** The atom of [<likes[a,u=v;b,u=w]>]. *)
Definition likes_atom (a b : string) (v w : Q) : LogFunction :=
  mkFunc "likes" [ArgVal a v "="; ArgVal b w "="] [a; b] 2 (VNum v) None.

(** A particle without [|>], [=>] or [<=>] below it. *)
Fixpoint flat (p : Particle) : bool :=
  match p with
  | LogicAtom _ => true
  | LogicConjunction l r | LogicDisjunction l r => flat l && flat r
  | LogicIndCond _ _ | LogicEquivalence _ _ | LogicImplication _ _ => false
  end.

(** The rule [:vars:x:(drunk[x,u=1] |> sober[x,u=0])]. *)
Definition drunk_rule : LogSentence :=
  mkSent 1
    (LogicIndCond (LogicAtom (APred (free_atom "drunk" "x" 1)))
       (LogicAtom (APred (free_atom "sober" "x" 0))))
    (Some ["x"]).

(** The atoms of a parse tree, from left to right. *)
Fixpoint ast_atoms (e : ast_expr) : list (ast_pred + ast_func) :=
  match e with
  | AstKlass p => [inl p]
  | AstFunc f => [inr f]
  | AstOp _ l r => ast_atoms l ++ ast_atoms r
  end.

(** Every operator of a parse tree is one that [traverse_ast] tests
    for. *)
Fixpoint known_ops (e : ast_expr) : bool :=
  match e with
  | AstKlass _ | AstFunc _ => true
  | AstOp o l r =>
      (String.eqb o "|>" || String.eqb o "<=>" || String.eqb o "=>"
       || String.eqb o "&&" || String.eqb o "||")
      && known_ops l && known_ops r
  end.

(** The atom that [traverse_ast] builds from an atom of the tree: a free
    term from a membership, a relation from a function. *)
Definition built_from (leaf : ast_pred + ast_func) (a : Atom) : Prop :=
  match leaf, a with
  | inl p, APred q => make_fact p free_term = Ret q
  | inr f, AFunc g => make_function f = Ret g
  | _, _ => False
  end.




(** No answer of the results is [False]. *)
Definition no_false (results_ : dict (dict (option bool))) : Prop :=
  Forall (λ kv : string * dict (option bool),
            Forall (λ kv' : string * option bool, kv'.2 ≠ Some false) kv.2)
    results_.

(** The state of an [Inference] over the store [kb0] that holds no node
    and no answer [False]. *)
Definition quiet (kb0 : Representation) (s : Inference) : Prop :=
  idle kb0 s ∧ no_false (results s).

(** A method returns from every state of [J], in a state of [J]. *)
Definition eng_ok {A : Type} (J : Inference → Prop) (m : eng A) : Prop :=
  ∀ s, J s → ∃ s' r, m s = Some (s', r) ∧ J s'.

(** Whether [LogSentence.__call__] gets as far as the evaluation: a
    sentence without variables always does, one with variables when it
    is given as many constants as it has variables, all of them
    individuals of the store. *)
Definition reaches_evaluation (kb_ : Representation) (sent : LogSentence)
  (args_ : list string) : bool :=
  match var_order sent with
  | None => true
  | Some vo =>
      Nat.eqb (length vo) (length args_)
      && bool_decide (is_Some (assign_vars kb_ vo args_ []))
  end.
(** * Properties *)

(** ** Helper facts on values and results *)

Lemma Qlt_bool_iff (x y : Q) : Qlt_bool x y = true ↔ (x < y)%Q.
Proof.
  unfold Qlt_bool. rewrite negb_true_iff, <- not_true_iff_false, Qle_bool_iff.
  split.
  - apply Qnot_le_lt.
  - apply Qlt_not_le.
Qed.

Lemma illegal_value_false (v : Q) : illegal_value v = false ↔ legal_value v.
Proof.
  unfold illegal_value, legal_value.
  rewrite orb_false_iff, <- !not_true_iff_false, !Qlt_bool_iff.
  split.
  - intros [H1 H0]. split; apply Qnot_lt_le; assumption.
  - intros [H0 H1]. split; apply Qle_not_lt; assumption.
Qed.

Lemma illegal_value_true (v : Q) : illegal_value v = true ↔ ¬ legal_value v.
Proof.
  rewrite <- illegal_value_false. destruct (illegal_value v); split; congruence.
Qed.

(** ** Membership equality (C8) *)

(** C8, counterexample: two grounded atoms of the same subject and
    category, both under the comparator [=], with the values 0.9 and
    0.1, compare equal. *)
Lemma grounded_eq_ignores_value :
  parent cold_09 = parent cold_01 ∧ term cold_09 = term cold_01 ∧
  op cold_09 = "=" ∧ op cold_01 = "=" ∧
  ¬ (value cold_09 == value cold_01)%Q ∧
  pred_eq 0 cold_09 cold_01 = true.
Proof.
  repeat split; try reflexivity.
  intros H. apply Qeq_bool_iff in H. vm_compute in H. discriminate.
Qed.

(** C8, as amended: an atom with dates is currently true exactly when
    the number of its dates is odd and the last one lies in the past; if
    the time test of the two atoms fails the atoms are unequal; past
    that test a free atom is compared through its comparator and the two
    values ([=] wants equal values, [>] a greater value on the other
    side, [<] a smaller one), and a grounded atom through category and
    subject alone. *)
Theorem membership_equality (now : Z) (self other : LogPredicate) :
  (∀ l, is_true_now now (Some l) = true ↔
        Nat.odd (length l) = true ∧ List.last l 0 < now) ∧
  (FreeTerm_eq now self other = true ↔
     eval_time_truth now (dates self) (dates other) = true ∧
     ((op self = "=" ∧ (value other == value self)%Q) ∨
      (op self = ">" ∧ (value self < value other)%Q) ∨
      (op self = "<" ∧ (value other < value self)%Q))) ∧
  (GroundedTerm_eq now self other = true ↔
     eval_time_truth now (dates self) (dates other) = true ∧
     parent other = parent self ∧ term other = term self).
Proof.
  split; [|split].
  - intros l. unfold is_true_now.
    destruct (Nat.odd (length l)) eqn:Hodd; simpl.
    + rewrite bool_decide_eq_true. tauto.
    + destruct (Nat.eqb (length l) 1) eqn:H1.
      * apply Nat.eqb_eq in H1. rewrite H1 in Hodd. discriminate.
      * split; [discriminate | intros [? _]; discriminate].
  - unfold FreeTerm_eq.
    destruct (eval_time_truth now (dates self) (dates other)); simpl;
      [|split; [discriminate | intros [? _]; discriminate]].
    destruct (String.eqb_spec (op self) "=") as [He|He]; simpl.
    + destruct (Qeq_bool (value other) (value self)) eqn:Hq.
      * apply Qeq_bool_iff in Hq. split; auto.
      * rewrite He; simpl. split; [discriminate|].
        intros [_ [[_ H]|[[H _]|[H _]]]]; try discriminate.
        apply Qeq_bool_iff in H. congruence.
    + destruct (String.eqb_spec (op self) ">") as [Hg|Hg]; simpl.
      * destruct (Qlt_bool (value self) (value other)) eqn:Hq.
        -- apply Qlt_bool_iff in Hq. split; auto.
        -- rewrite Hg; simpl. split; [discriminate|].
           intros [_ [[H _]|[[_ H]|[H _]]]]; try discriminate.
           apply Qlt_bool_iff in H. congruence.
      * destruct (String.eqb_spec (op self) "<") as [Hl|Hl]; simpl.
        -- destruct (Qlt_bool (value other) (value self)) eqn:Hq.
           ++ apply Qlt_bool_iff in Hq. split; auto 6.
           ++ split; [discriminate|].
              intros [_ [[H _]|[[H _]|[_ H]]]]; try congruence.
              apply Qlt_bool_iff in H. congruence.
        -- split; [discriminate|].
           intros [_ [[H _]|[[H _]|[H _]]]]; congruence.
  - unfold GroundedTerm_eq.
    destruct (eval_time_truth now (dates self) (dates other)); simpl;
      [|split; [discriminate | intros [? _]; discriminate]].
    destruct (String.eqb_spec (parent other) (parent self)) as [Hp|Hp];
      destruct (String.eqb_spec (term other) (term self)) as [Ht|Ht]; simpl;
      split; try discriminate; try tauto.
Qed.

(** ** The implication node (C7) *)

(** C7, counterexample: with a false left side and an unknown right
    side the implication resolves to true, not to unknown. *)
Lemma implication_false_unknown_is_true :
  resolve 1 kb_lucy_not_professor []
    (LogicAtom (APred (free_atom "professor" "$Lucy" 1))) = Ret (Some false) ∧
  resolve 1 kb_lucy_not_professor []
    (LogicAtom (APred (free_atom "person" "$Lucy" 1))) = Ret None ∧
  resolve 1 kb_lucy_not_professor [] lucy_professor_implies_person
    = Ret (Some true) ∧
  solve_proof 1 [] lucy_professor_implies_person kb_lucy_not_professor
    = ((kb_lucy_not_professor, RBool true), None).
Proof. vm_compute. repeat split; reflexivity. Qed.

(** The truth table of [implication_value]. *)
Lemma implication_value_table (r0 r1 : option bool) :
  implication_value r0 r1 =
  match r0, r1 with
  | None, _ => None
  | Some true, None => None
  | Some true, Some false => Some false
  | Some true, Some true => Some true
  | Some false, _ => Some true
  end.
Proof. destruct r0 as [[]|], r1 as [[]|]; reflexivity. Qed.

(** C7, as amended: both sides are resolved; the node is unknown when
    the left side is unknown, or when the left side is true and the
    right side unknown; it is false only when the left side is true and
    the right side false; it is true in every other case, which includes
    a false left side with an unknown right side. *)
Theorem implication_resolve (now : Z) (kb_ : Representation)
  (assigned : assignment) (l r : Particle) (r0 r1 : option bool) :
  resolve now kb_ assigned l = Ret r0 →
  resolve now kb_ assigned r = Ret r1 →
  let v := match r0, r1 with
           | None, _ => None
           | Some true, None => None
           | Some true, Some false => Some false
           | Some true, Some true => Some true
           | Some false, _ => Some true
           end in
  resolve now kb_ assigned (LogicImplication l r) = Ret v ∧
  solve_proof now assigned (LogicImplication l r) kb_
    = ((kb_, truth_result v), None).
Proof.
  intros Hl Hr v. subst v. rewrite <- implication_value_table.
  simpl. rewrite Hl, Hr. simpl. split; reflexivity.
Qed.

Lemma implication_resolve_witness :
  resolve 1 kb_lucy_not_professor [] lucy_professor_implies_person
    = Ret (Some true) ∧
  solve_proof 1 [] lucy_professor_implies_person kb_lucy_not_professor
    = ((kb_lucy_not_professor, RBool true), None).
Proof.
  apply (implication_resolve 1 kb_lucy_not_professor []
           (LogicAtom (APred (free_atom "professor" "$Lucy" 1)))
           (LogicAtom (APred (free_atom "person" "$Lucy" 1)))
           (Some false) None).
  - vm_compute. reflexivity.
  - vm_compute. reflexivity.
Defined.

(** ** Queries given as strings (C1) *)

Lemma get_query_string_raises now kb_ ast :
  ∃ e, get_query now kb_ (AskString ast) = Raise e.
Proof.
  cbn [get_query]. destruct (logic_parser false ast) as [q|e]; simpl; [|eauto].
  destruct (res_fold _ (assert_rel q) _) as [st1|e]; simpl; [|eauto].
  destruct (res_fold _ (assert_memb q) st1) as [st2|e]; simpl; eauto.
Qed.

(** C1, the divergence: [ask] answers no query that is given as a
    string.  [get_query] parses the string, looks its atoms up and then
    reads [query.queries], an attribute that [ParseResults] does not
    have: the call raises and the store is left as it was.  At the
    failing input, the store after [tell("professor[$Lucy,u=1]")] and
    the query ["professor[$Lucy,u=1]"], the lookup of the queried atom
    gives true and [ask] raises [AttributeError]. *)
Theorem ask_string_query_raises :
  (∀ fuel now kb_ ast single,
     ∃ e, ask fuel now kb_ (AskString ast) single = Some (kb_, Raise e)) ∧
  logic_parser false [memb_stmt "professor" "$Lucy" 1]
    = Ret (mkParse [free_atom "professor" "$Lucy" 1] [] [] []) ∧
  test_pred 1 kb_lucy_professor (APred (free_atom "professor" "$Lucy" 1))
    = Ret (Some true) ∧
  (∀ fuel single,
     ask fuel 1 kb_lucy_professor
       (AskString [memb_stmt "professor" "$Lucy" 1]) single
     = Some (kb_lucy_professor, Raise AttributeError)).
Proof.
  split; [|split; [|split]].
  - intros fuel now kb_ ast single. unfold ask, infer_facts.
    destruct (get_query_string_raises now kb_ ast) as [e ->].
    exists e. reflexivity.
  - vm_compute. reflexivity.
  - vm_compute. reflexivity.
  - intros fuel single. unfold ask, infer_facts.
    assert (E : get_query 1 kb_lucy_professor
                  (AskString [memb_stmt "professor" "$Lucy" 1])
                = Raise AttributeError) by (vm_compute; reflexivity).
    rewrite E. reflexivity.
Qed.

(** ** Invariants of the store under [tell] and [ask] *)

Lemma dict_get_values {V : Type} (Q : V → Prop) k (d : dict V) v :
  Forall (λ kv, Q kv.2) d → dict_get k d = Some v → Q v.
Proof.
  induction 1 as [|[k' v'] d Hv Hd IH]; simpl; [discriminate|].
  destruct (String.eqb k' k); [intros [= <-]; exact Hv | exact IH].
Qed.

Lemma dict_set_values {V : Type} (Q : V → Prop) k v (d : dict V) :
  Q v → Forall (λ kv, Q kv.2) d → Forall (λ kv, Q kv.2) (dict_set k v d).
Proof.
  intros Hv. induction 1 as [|[k' v'] d Hv' Hd IH]; simpl.
  - repeat constructor. exact Hv.
  - destruct (String.eqb k' k); constructor; assumption.
Qed.

Lemma res_fold_inv {A B : Type} (I : B → Prop) (f : B → A → res B) l b b' :
  (∀ b x b', I b → f b x = Ret b' → I b') →
  I b → res_fold f l b = Ret b' → I b'.
Proof.
  intros Hf. revert b. induction l as [|x l IH]; intros b Hb; simpl.
  - intros [= <-]. exact Hb.
  - destruct (f b x) as [b1|] eqn:E; simpl; [|discriminate].
    apply IH. eapply Hf; eauto.
Qed.

(** The rule discovery adds no node: the first [add] raises. *)
Lemma mk_node_Ret st nc preds sent pos st' :
  mk_node st nc preds sent pos = Ret st' → st' = st.
Proof.
  unfold mk_node. destruct (get_preds sent pos) as [|a l]; simpl.
  - intros [= <-]. reflexivity.
  - discriminate.
Qed.

Lemma get_rules_sent_nodes c st sent st' :
  get_rules_sent c st sent = Ret st' → rs_nodes st' = rs_nodes st.
Proof.
  unfold get_rules_sent.
  destruct (mk_node st _ _ sent "right") as [st1|] eqn:E1; simpl;
    [|discriminate].
  apply mk_node_Ret in E1 as ->.
  destruct (bool_decide _).
  - destruct (mk_node _ _ _ sent "left") as [st3|] eqn:E3; simpl;
      [|discriminate].
    apply mk_node_Ret in E3 as ->. intros [= <-]. reflexivity.
  - intros [= <-]. reflexivity.
Qed.

Lemma get_rules_nodes fuel kb_ st st' chk_ctgs :
  get_rules fuel kb_ st = Some (Ret (st', chk_ctgs)) →
  rs_nodes st' = rs_nodes st.
Proof.
  revert st. induction fuel as [|fuel IH]; intros st; simpl; [discriminate|].
  destruct (reverse (rs_ctgs st)) as [|c rest_rev].
  - intros [= <- _]. reflexivity.
  - destruct (classes kb_ !! c) as [cls|].
    + destruct (res_fold (get_rules_sent c) _ _) as [st2|] eqn:E2;
        [|discriminate].
      intros H. rewrite (IH _ H). simpl.
      revert E2.
      apply (res_fold_inv (λ s, rs_nodes s = rs_nodes st)); [|reflexivity].
      intros b x b' Hb Hx. rewrite (get_rules_sent_nodes _ _ _ _ Hx). exact Hb.
    + intros H. rewrite (IH _ H). reflexivity.
Qed.

(** ** The inference engine never changes the store *)

Lemma eng_ret_preserves {A : Type} (I : Inference → Prop) (a : A) :
  eng_preserves I (eng_ret a).
Proof. intros s s' r Hs [= <- _]. exact Hs. Qed.

Lemma eng_raise_preserves {A : Type} (I : Inference → Prop) (e : exn) :
  eng_preserves I (@eng_raise A e).
Proof. intros s s' r Hs [= <- _]. exact Hs. Qed.

Lemma eng_modify_preserves (I : Inference → Prop) (f : Inference → Inference) :
  (∀ s, I s → I (f s)) → eng_preserves I (eng_modify f).
Proof. intros Hf s s' r Hs [= <- _]. apply Hf, Hs. Qed.

Lemma eng_bind_preserves {A B : Type} (I : Inference → Prop) (m : eng A)
  (f : A → eng B) :
  eng_preserves I m → (∀ a, eng_preserves I (f a)) →
  eng_preserves I (eng_bind m f).
Proof.
  intros Hm Hf s s' r Hs. unfold eng_bind.
  destruct (m s) as [[s1 [a|e]]|] eqn:E; [| |discriminate].
  - intros H. exact (Hf a s1 s' r (Hm s s1 _ Hs E) H).
  - intros [= <- _]. exact (Hm s s1 _ Hs E).
Qed.

Lemma eng_get_bind_preserves {B : Type} (I : Inference → Prop)
  (f : Inference → eng B) :
  (∀ a, I a → eng_preserves I (f a)) → eng_preserves I (eng_bind eng_get f).
Proof. intros Hf s s' r Hs. unfold eng_bind, eng_get. apply Hf; assumption. Qed.

Lemma eng_for_preserves {A : Type} (I : Inference → Prop) (l : list A)
  (body : A → eng unit) :
  (∀ x, eng_preserves I (body x)) → eng_preserves I (eng_for l body).
Proof.
  intros Hbody. induction l as [|x l IH]; simpl.
  - apply eng_ret_preserves.
  - apply eng_bind_preserves; [apply Hbody | intros _; exact IH].
Qed.

Lemma idle_modify kb0 (f : Inference → Inference) :
  (∀ s, kb (f s) = kb s ∧ nodes (f s) = nodes s) →
  eng_preserves (idle kb0) (eng_modify f).
Proof.
  intros Hf. apply eng_modify_preserves. intros s [Hk Hn].
  destruct (Hf s) as [Hk' Hn']. split; congruence.
Qed.

(** Without nodes [unify] calls no rule. *)
Lemma unify_idle kb0 fuel now p chk done :
  eng_preserves (idle kb0) (unify fuel now p chk done).
Proof.
  revert p chk done. induction fuel as [|fuel IH]; intros p chk done; simpl.
  - intros s s' r _ H. discriminate.
  - apply eng_get_bind_preserves. intros inf [_ Hn].
    destruct (actv_q inf) as [[[query_obj query_] pred]|];
      [|apply eng_raise_preserves].
    rewrite Hn. cbn [dict_get].
    apply eng_bind_preserves; [apply eng_ret_preserves|].
    intros chk1. apply eng_get_bind_preserves. intros inf1 _.
    destruct (bool_decide _); [apply eng_ret_preserves|].
    destruct chk1 as [|p' chk2]; [apply eng_ret_preserves|].
    apply eng_bind_preserves; [apply IH | intros _; apply eng_ret_preserves].
Qed.

Lemma query_loop_idle kb0 fuel now q :
  eng_preserves (idle kb0) (query_loop fuel now q).
Proof.
  induction fuel as [|fuel IH]; simpl.
  - intros s s' r _ H. discriminate.
  - apply eng_bind_preserves; [apply unify_idle|].
    intros result. apply eng_get_bind_preserves. intros inf _.
    apply eng_bind_preserves;
      [apply idle_modify; intros s; split; reflexivity|].
    intros _. destruct (negb result && _); [exact IH | apply eng_ret_preserves].
Qed.

Lemma query_idle kb0 fuel now q :
  eng_preserves (idle kb0) (query fuel now q).
Proof.
  unfold query.
  apply eng_bind_preserves;
    [apply idle_modify; intros s; split; reflexivity|].
  intros _. apply eng_bind_preserves;
    [apply idle_modify; intros s; split; reflexivity|].
  intros _. apply query_loop_idle.
Qed.

Lemma infer_query_item_idle kb0 fuel now item :
  eng_preserves (idle kb0) (infer_query_item fuel now item).
Proof.
  destruct item as [var preds]. unfold infer_query_item.
  apply eng_get_bind_preserves. intros inf _.
  destruct (bool_decide (var ∈ vrs inf)).
  - apply eng_for_preserves. intros pred. unfold infer_var_pred.
    apply eng_get_bind_preserves. intros inf' _.
    destruct (obj_dic inf'); [apply eng_ret_preserves|].
    destruct pred; apply eng_raise_preserves.
  - apply eng_bind_preserves;
      [apply idle_modify; intros s; split; reflexivity|].
    intros _. apply eng_for_preserves. intros pred. unfold infer_pred.
    apply eng_bind_preserves;
      [apply idle_modify; intros s; split; reflexivity|].
    intros _. apply eng_get_bind_preserves. intros inf' _.
    apply eng_bind_preserves.
    + destruct (bool_decide _); [apply eng_ret_preserves|].
      apply query_idle.
    + intros _. apply idle_modify. intros s. split; reflexivity.
Qed.

Lemma infer_facts_idle fuel now kb_ sent inf r :
  infer_facts fuel now kb_ sent = Some (inf, r) → idle kb_ inf.
Proof.
  unfold infer_facts.
  destruct (get_query now kb_ sent) as [qs|e].
  - destruct (get_rules fuel kb_ _) as [[[rs chk_ctgs]|e]|] eqn:E;
      [| |discriminate].
    + apply (eng_for_preserves (idle kb_)).
      * intros item. apply infer_query_item_idle.
      * split; simpl; [reflexivity|].
        exact (get_rules_nodes _ _ _ _ _ E).
    + intros [= <- _]. split; reflexivity.
  - intros [= <- _]. split; reflexivity.
Qed.

Lemma ask_keeps_store fuel now kb_ sent single kb' r :
  ask fuel now kb_ sent single = Some (kb', r) → kb' = kb_.
Proof.
  unfold ask.
  destruct (infer_facts fuel now kb_ sent) as [[inf [[]|e]]|] eqn:E;
    [| |discriminate]; intros [= <- _];
    exact (proj1 (infer_facts_idle _ _ _ _ _ _ E)).
Qed.

Section StoreInvariant.
Variable PI : string → Individual → Prop.
Variable PC : string → Category → Prop.
(** What the asserted atoms must satisfy. *)
Variable F : LogPredicate → Prop.
Variable G : LogFunction → Prop.
(** What the atoms of a sentence must satisfy. *)
Variable Fa : Atom → Prop.

Hypothesis PI_new : ∀ k, has_dollar k = true → PI k (new_Individual k).
Hypothesis PI_add_ctg : ∀ now k ind fact,
  F fact → term fact = k → PI k ind → PI k (Individual_add_ctg now ind fact).
Hypothesis PI_add_rel : ∀ now k ind f ind',
  G f → PI k ind → Individual_add_rel now ind f = Ret ind' → PI k ind'.
Hypothesis PI_add_cog : ∀ k ind p sent,
  PI k ind → PI k (Individual_add_cog ind p sent).
Hypothesis PC_new : ∀ k n, PC k (new_Category n) ∧ PC k (new_Relation n).
Hypothesis PC_add_ctg : ∀ now k cls fact,
  F fact → term fact = k → PC k cls → PC k (Category_add_ctg now cls fact).
Hypothesis PC_add_rel : ∀ now k cls f cls',
  G f → PC k cls → Category_add_rel now cls f = Ret cls' → PC k cls'.
Hypothesis PC_add_cog : ∀ k cls sent,
  particle_atoms Fa (start sent) → PC k cls → PC k (Category_add_cog cls sent).
Hypothesis Fa_pred : ∀ p sbj g,
  Fa (APred p) → GroundedTerm_fromfree p sbj = Ret g → F g.
Hypothesis Fa_func : ∀ f names g,
  Fa (AFunc f) → LogFunction_substitute f names = Ret g → G g.

Lemma new_class_for_ok k a n : PC k (new_class_for a n).
Proof. destruct a; apply PC_new. Qed.

Lemma default_Individual_ok kb_ n :
  has_dollar n = true → store_inv PI PC kb_ →
  PI n (default (new_Individual n) (individuals kb_ !! n)).
Proof.
  intros Hn [Hi _]. destruct (individuals kb_ !! n) eqn:E; simpl.
  - exact (Hi _ _ E).
  - apply PI_new, Hn.
Qed.

Lemma default_Category_ok kb_ n :
  store_inv PI PC kb_ →
  PC n (default (new_Category n) (classes kb_ !! n)).
Proof.
  intros [_ Hc]. destruct (classes kb_ !! n) eqn:E; simpl.
  - exact (Hc _ _ E).
  - apply PC_new.
Qed.

Lemma set_individual_inv kb_ k ind :
  store_inv PI PC kb_ → PI k ind → store_inv PI PC (set_individual kb_ k ind).
Proof.
  intros [Hi Hc] Hind. split; simpl; [|exact Hc].
  apply map_Forall_insert_2; assumption.
Qed.

Lemma set_class_inv kb_ k cls :
  store_inv PI PC kb_ → PC k cls → store_inv PI PC (set_class kb_ k cls).
Proof.
  intros [Hi Hc] Hcls. split; simpl; [exact Hi|].
  apply map_Forall_insert_2; assumption.
Qed.

Lemma up_memb_inv now kb_ pred :
  F pred → store_inv PI PC kb_ → store_inv PI PC (up_memb now kb_ pred).
Proof.
  intros HF Hkb. unfold up_memb.
  set (kb1 := if has_dollar (term pred) then _ else _).
  assert (Hkb1 : store_inv PI PC kb1).
  { subst kb1. destruct (has_dollar (term pred)) eqn:Hd.
    - apply (set_individual_inv kb_); [assumption|].
      apply PI_add_ctg; [assumption|reflexivity|].
      apply default_Individual_ok; assumption.
    - apply (set_class_inv kb_); [assumption|].
      apply PC_add_ctg; [assumption|reflexivity|].
      apply default_Category_ok; assumption. }
  destruct (classes kb1 !! parent pred); [assumption|].
  apply (set_class_inv kb1); [assumption | apply PC_new].
Qed.

Lemma ensure_relation_inv kb_ n :
  store_inv PI PC kb_ → store_inv PI PC (ensure_relation kb_ n).
Proof.
  intros Hkb. unfold ensure_relation.
  destruct (classes kb_ !! n); [assumption|].
  apply (set_class_inv kb_); [assumption | apply PC_new].
Qed.

Lemma up_rel_step_inv now kb_ f subject kb' :
  G f → store_inv PI PC kb_ → up_rel_step now kb_ f subject = Ret kb' →
  store_inv PI PC kb'.
Proof.
  intros HG Hkb. unfold up_rel_step.
  destruct (has_dollar subject) eqn:Hd.
  - destruct (Individual_add_rel _ _ _) as [ind'|] eqn:E; simpl;
      [|discriminate].
    intros [= <-]. apply ensure_relation_inv.
    apply (set_individual_inv kb_); [assumption|].
    eapply PI_add_rel; [exact HG | | exact E].
    apply default_Individual_ok; assumption.
  - destruct (Category_add_rel _ _ _) as [cls'|] eqn:E; simpl;
      [|discriminate].
    intros [= <-]. apply ensure_relation_inv.
    apply (set_class_inv kb_); [assumption|].
    eapply PC_add_rel; [exact HG | | exact E].
    apply default_Category_ok; assumption.
Qed.

Lemma up_rel_inv now kb_ f :
  G f → store_inv PI PC kb_ → store_inv PI PC (up_rel now kb_ f).1.
Proof.
  intros HG. unfold up_rel. generalize (get_args f) as subjects.
  intros subjects. revert kb_.
  induction subjects as [|s subjects IH]; intros kb_ Hkb; simpl;
    [assumption|].
  destruct (up_rel_step now kb_ f s) as [kb'|e] eqn:E; simpl;
    [|assumption].
  apply IH. eapply up_rel_step_inv; eauto.
Qed.

Lemma save_rule_index_inv proof kb_ p :
  particle_atoms Fa (start proof) →
  store_inv PI PC kb_ → store_inv PI PC (save_rule_index proof kb_ p).
Proof.
  intros Hp Hkb. unfold save_rule_index.
  destruct (classes kb_ !! atom_name p) as [cls|] eqn:E.
  - destruct (negb (sent_in proof (ccog cls)));
      apply set_class_inv; try assumption; apply PC_add_cog; try assumption.
    + exact (proj2 Hkb _ _ E).
    + apply new_class_for_ok.
  - apply set_class_inv; [assumption|].
    apply PC_add_cog; [assumption | apply new_class_for_ok].
Qed.

Lemma fold_left_inv {A : Type} (f : Representation → A → Representation)
  (l : list A) kb_ :
  (∀ k x, store_inv PI PC k → store_inv PI PC (f k x)) →
  store_inv PI PC kb_ → store_inv PI PC (fold_left f l kb_).
Proof.
  intros Hf. revert kb_. induction l as [|x l IH]; intros kb_ Hkb; simpl;
    [assumption|]. apply IH, Hf, Hkb.
Qed.

Lemma effect_for_inv {A : Type} (body : Representation → A → effect)
  (Q : A → Prop) (l : list A) kb_ :
  (∀ k x, Q x → store_inv PI PC k → store_inv PI PC (body k x).1) →
  Forall Q l → store_inv PI PC kb_ →
  store_inv PI PC (effect_for l body kb_).1.
Proof.
  intros Hbody Hl. revert kb_.
  induction Hl as [|x l Hx Hl IH]; intros kb_ Hkb; simpl; [assumption|].
  specialize (Hbody kb_ x Hx Hkb).
  destruct (body kb_ x) as [kb' [e|]]; simpl in *; [assumption|].
  apply IH, Hbody.
Qed.

Lemma LogicAtom_substitute_inv now assigned a st :
  Fa a → store_inv PI PC st.1 →
  store_inv PI PC (LogicAtom_substitute now assigned a st).1.1.
Proof.
  intros Ha. destruct st as [kb_ result]. simpl. intros Hkb.
  destruct a as [p|f]; simpl.
  - destruct (pclass p) eqn:Hc; simpl; [assumption|].
    destruct (GroundedTerm_fromfree p (isvar (term p) assigned))
      as [g|e] eqn:Hg; simpl; [|assumption].
    assert (Hkb' : store_inv PI PC (up_memb now kb_ g)).
    { apply up_memb_inv; [|assumption]. eapply Fa_pred; eauto. }
    destruct (result_append result (APred g)); simpl; assumption.
  - destruct (LogFunction_substitute f (assigned_args f assigned))
      as [g|e] eqn:Hg; simpl; [|assumption].
    assert (Hkb' : store_inv PI PC (up_rel now kb_ g).1).
    { apply up_rel_inv; [|assumption]. eapply Fa_func; eauto. }
    destruct (up_rel now kb_ g) as [kb' [e|]]; simpl in *; [assumption|].
    destruct (result_append result (AFunc g)); simpl; assumption.
Qed.

Lemma substitute_inv now assigned p st :
  particle_atoms Fa p → store_inv PI PC st.1 →
  store_inv PI PC (substitute now assigned p st).1.1.
Proof.
  revert st. induction p as [a|l IHl r IHr|l IHl r IHr|l IHl r IHr
                             |l IHl r IHr|l IHl r IHr];
    intros st Hp Hst; simpl; try assumption.
  - apply LogicAtom_substitute_inv; assumption.
  - destruct Hp as [_ Hr].
    destruct (resolve now st.1 assigned l) as [[[]|]|e]; simpl;
      try assumption.
    apply IHr; assumption.
  - destruct Hp as [Hl Hr].
    specialize (IHl st Hl Hst).
    destruct (substitute now assigned l st) as [st1 [e|]]; simpl in *;
      [assumption|].
    apply IHr; assumption.
Qed.

Lemma solve_proof_inv now assigned p kb_ :
  particle_atoms Fa p → store_inv PI PC kb_ →
  store_inv PI PC (solve_proof now assigned p kb_).1.1.
Proof.
  intros Hp Hkb. destruct p as [a|l r|l r|l r|l r|l r]; simpl;
    try assumption.
  - destruct Hp as [_ Hr].
    destruct (resolve now kb_ assigned l) as [[[]|]|e]; simpl;
      try assumption.
    apply (substitute_inv now assigned r (kb_, RUnset)); assumption.
  - destruct (resolve now kb_ assigned l) as [r0|e]; simpl; [|assumption].
    destruct (resolve now kb_ assigned r) as [r1|e]; simpl; assumption.
  - destruct (resolve now kb_ assigned l) as [r0|e]; simpl; [|assumption].
    destruct (resolve now kb_ assigned r) as [r1|e]; simpl; assumption.
  - destruct (resolve now kb_ assigned l) as [r0|e]; simpl; [|assumption].
    destruct (resolve now kb_ assigned r) as [r1|e]; simpl; [|assumption].
    destruct (conjunction_value [r0; r1]); assumption.
  - destruct (resolve now kb_ assigned l) as [r0|e]; simpl; [|assumption].
    destruct (resolve now kb_ assigned r) as [r1|e]; simpl; [|assumption].
    destruct (disjunction_value [r0; r1]); assumption.
Qed.

Lemma locked_proof_inv now assigned sent kb_ :
  particle_atoms Fa (start sent) → store_inv PI PC kb_ →
  store_inv PI PC (locked_proof now assigned sent kb_).1.1.
Proof.
  intros Hp Hkb. unfold locked_proof.
  destruct (thread_manager (get_preds sent "r") false); [assumption|].
  pose proof (solve_proof_inv now assigned (start sent) kb_ Hp Hkb) as H.
  destruct (solve_proof now assigned (start sent) kb_) as [st [e|]];
    [exact H|].
  destruct (thread_manager (get_preds sent "r") true); exact H.
Qed.

Lemma LogSentence_call_inv now kb_ sent args_ :
  particle_atoms Fa (start sent) → store_inv PI PC kb_ →
  store_inv PI PC (LogSentence_call now kb_ sent args_).1.1.
Proof.
  intros Hp Hkb. unfold LogSentence_call.
  destruct (var_order sent) as [vo|].
  - destruct (Nat.eqb (length vo) (length args_)); [|assumption].
    destruct (assign_vars kb_ vo args_ []); [|assumption].
    apply locked_proof_inv; assumption.
  - apply locked_proof_inv; assumption.
Qed.

Lemma save_rule_inv now kb_ proof :
  particle_atoms Fa (start proof) → store_inv PI PC kb_ →
  store_inv PI PC (save_rule now kb_ proof).1.
Proof.
  intros Hp Hkb. unfold save_rule.
  apply (effect_for_inv _ (λ _, True)).
  - intros k obj _ Hk.
    pose proof (LogSentence_call_inv now k proof (chars obj) Hp Hk) as H.
    destruct (LogSentence_call now k proof (chars obj)) as [[k' r] e].
    exact H.
  - apply Forall_true. auto.
  - apply fold_left_inv; [|assumption].
    intros k x Hk. apply save_rule_index_inv; assumption.
Qed.

Lemma add_cog_chk_args_inv sent pred kb_ sbj p :
  particle_atoms Fa (start sent) → store_inv PI PC kb_ →
  store_inv PI PC (add_cog_chk_args sent pred kb_ sbj p).
Proof.
  intros Hs Hkb. unfold add_cog_chk_args.
  destruct (match var_order sent with Some vo => _ | None => false end).
  - destruct (classes kb_ !! p) as [cls|] eqn:E;
      apply set_class_inv; try assumption; apply PC_add_cog; try assumption.
    + exact (proj2 Hkb _ _ E).
    + apply new_class_for_ok.
  - destruct (has_dollar sbj) eqn:Hd.
    + apply set_individual_inv; [assumption|].
      apply PI_add_cog, default_Individual_ok; assumption.
    + destruct (classes kb_ !! sbj) as [cls|] eqn:E;
        apply set_class_inv; try assumption; apply PC_add_cog;
        try assumption.
      * exact (proj2 Hkb _ _ E).
      * apply new_class_for_ok.
Qed.

Lemma add_cog_inv kb_ sent :
  particle_atoms Fa (start sent) →
  store_inv PI PC kb_ → store_inv PI PC (add_cog kb_ sent).1.
Proof.
  intros Hs Hkb. unfold add_cog. simpl.
  apply fold_left_inv; [|assumption].
  intros k [p|f] Hk.
  - apply add_cog_chk_args_inv; assumption.
  - apply fold_left_inv; [|assumption].
    intros k' sbj Hk'. apply add_cog_chk_args_inv; assumption.
Qed.

(** What a successful parse yields satisfies the requirements. *)
Hypothesis parse_ok : ∀ tell_ ast results_,
  logic_parser tell_ ast = Ret results_ →
  Forall F (assert_memb results_) ∧ Forall G (assert_rel results_) ∧
  Forall (λ s, particle_atoms Fa (start s)) (assert_rules results_) ∧
  Forall (λ s, particle_atoms Fa (start s)) (assert_cogs results_).

Lemma tell_inv now kb_ ast :
  store_inv PI PC kb_ → store_inv PI PC (tell now kb_ ast).1.
Proof.
  intros Hkb. unfold tell.
  destruct (logic_parser true ast) as [results_|e] eqn:Hparse; [|assumption].
  destruct (parse_ok _ _ _ Hparse) as (Hm & Hr & Hs & Hcg).
  assert (H1 : store_inv PI PC
                 (effect_for (assert_memb results_)
                    (λ k a, (up_memb now k a, None)) kb_).1).
  { apply (effect_for_inv _ F); try assumption.
    intros k x Hx Hk. simpl. apply up_memb_inv; assumption. }
  destruct (effect_for (assert_memb results_) _ kb_) as [kb1 [e|]];
    simpl in *; [assumption|].
  assert (H2 : store_inv PI PC
                 (effect_for (assert_rel results_) (up_rel now) kb1).1).
  { apply (effect_for_inv _ G); try assumption.
    intros k x Hx Hk. apply up_rel_inv; assumption. }
  destruct (effect_for (assert_rel results_) _ kb1) as [kb2 [e|]];
    simpl in *; [assumption|].
  assert (H3 : store_inv PI PC
                 (effect_for (assert_rules results_) (save_rule now) kb2).1).
  { apply (effect_for_inv _ (λ s, particle_atoms Fa (start s)));
      try assumption.
    intros k x Hx Hk. apply save_rule_inv; assumption. }
  destruct (effect_for (assert_rules results_) _ kb2) as [kb3 [e|]];
    simpl in *; [assumption|].
  apply (effect_for_inv _ (λ s, particle_atoms Fa (start s))); try assumption.
  intros k x Hx Hk. apply add_cog_inv; assumption.
Qed.

Lemma ask_inv fuel now kb_ sent single kb' r :
  store_inv PI PC kb_ → ask fuel now kb_ sent single = Some (kb', r) →
  store_inv PI PC kb'.
Proof.
  intros Hkb Hask. rewrite (ask_keeps_store _ _ _ _ _ _ _ Hask). exact Hkb.
Qed.

Lemma reachable_inv kb_ : reachable kb_ → store_inv PI PC kb_.
Proof.
  induction 1 as [|now kb_ ast _ IH|fuel now kb_ sent single kb' r _ IH Hask].
  - split; apply map_Forall_empty.
  - apply tell_inv; assumption.
  - eapply ask_inv; eauto.
Qed.
End StoreInvariant.

(** ** One membership atom per subject and category (C4) *)

Lemma ctg_index_None n atoms :
  ctg_index n atoms = None ↔ n ∉ parent <$> atoms.
Proof.
  unfold ctg_index. destruct (list_find _ atoms) as [[i x]|] eqn:E; simpl.
  - split; [discriminate|]. intros Hn. exfalso. apply Hn.
    apply list_find_Some in E as (Hi & Hx & _).
    rewrite <- Hx. apply list_elem_of_fmap_2. eapply list_elem_of_lookup_2, Hi.
  - split; [|reflexivity]. intros _ Hin.
    apply list_find_None in E.
    apply list_elem_of_fmap in Hin as (y & -> & Hy).
    rewrite Forall_forall in E. exact (E y Hy eq_refl).
Qed.

Lemma ctg_index_Some n atoms idx :
  ctg_index n atoms = Some idx →
  ∃ stored, atoms !! idx = Some stored ∧ parent stored = n.
Proof.
  unfold ctg_index. destruct (list_find _ atoms) as [[i x]|] eqn:E; simpl;
    [|discriminate].
  intros [= <-]. apply list_find_Some in E as (Hi & Hx & _). eauto.
Qed.

Lemma add_ctg_list_parents now atoms fact :
  parent <$> add_ctg_list now atoms fact =
  match ctg_index (parent fact) atoms with
  | None => (parent <$> atoms) ++ [parent fact]
  | Some _ => parent <$> atoms
  end.
Proof.
  unfold add_ctg_list. destruct (ctg_index (parent fact) atoms) as [idx|].
  - rewrite (list_fmap_alter parent _ id).
    + apply list_alter_id. reflexivity.
    + apply Forall_true. reflexivity.
  - rewrite fmap_app. reflexivity.
Qed.

Lemma add_ctg_list_NoDup now atoms fact :
  NoDup (parent <$> atoms) → NoDup (parent <$> add_ctg_list now atoms fact).
Proof.
  intros Hnd. rewrite add_ctg_list_parents.
  destruct (ctg_index (parent fact) atoms) eqn:E; [assumption|].
  apply ctg_index_None in E. apply NoDup_app. split; [assumption|].
  split; [|apply NoDup_singleton].
  intros x Hx Hx'. apply list_elem_of_singleton in Hx'. subst x. auto.
Qed.

Lemma add_ctg_list_terms now k atoms fact :
  term fact = k → Forall (λ p, term p = k) atoms →
  Forall (λ p, term p = k) (add_ctg_list now atoms fact).
Proof.
  intros Hf Ha. unfold add_ctg_list.
  destruct (ctg_index (parent fact) atoms).
  - apply Forall_alter; [assumption|]. intros x _ Hx. exact Hx.
  - apply Forall_app. split; [assumption|]. constructor; [assumption|constructor].
Qed.

Lemma add_rel_loop_length now bucket f bucket' :
  add_rel_loop now bucket f = Ret bucket' → length bucket' = length bucket.
Proof.
  revert bucket'. induction bucket as [|rel rest IH]; intros bucket'; simpl.
  - intros [= <-]. reflexivity.
  - destruct (chk_args_eq rel f) as [[]|]; simpl; try discriminate.
    + intros [= <-]. reflexivity.
    + destruct (add_rel_loop now rest f) as [rest'|]; simpl; [|discriminate].
      intros [= <-]. simpl. f_equal. apply IH. reflexivity.
Qed.

Lemma add_rel_map_unique now rels f rels' :
  map_Forall (λ (_ : string) (bucket : list LogFunction), length bucket = 1%nat) rels →
  add_rel_map now rels f = Ret rels' →
  map_Forall (λ (_ : string) (bucket : list LogFunction), length bucket = 1%nat) rels'.
Proof.
  intros Hrels. unfold add_rel_map.
  destruct (rels !! func f) as [bucket|] eqn:E.
  - destruct (add_rel_loop now bucket f) as [bucket'|] eqn:Hl; simpl;
      [|discriminate].
    intros [= <-]. apply map_Forall_insert_2; [|assumption].
    rewrite (add_rel_loop_length _ _ _ _ Hl). exact (Hrels _ _ E).
  - intros [= <-]. apply map_Forall_insert_2; [reflexivity | assumption].
Qed.

Lemma particle_atoms_True p : particle_atoms (λ _, True) p.
Proof. induction p; simpl; auto. Qed.

Lemma reachable_unique kb_ :
  reachable kb_ → store_inv unique_PI unique_PC kb_.
Proof.
  apply (reachable_inv unique_PI unique_PC (λ _, True) (λ _, True) (λ _, True)).
  - intros k Hk.
    repeat split; [assumption | constructor | constructor | apply map_Forall_empty].
  - intros now k ind fact _ Ht (Hk & Hnd & Hterm & Hr).
    repeat split; try assumption; simpl.
    + apply add_ctg_list_NoDup, Hnd.
    + apply add_ctg_list_terms; assumption.
  - intros now k ind f ind' _ (Hk & Hnd & Hterm & Hr). unfold Individual_add_rel.
    destruct (add_rel_map now (relations ind) f) as [rels|] eqn:E; simpl;
      [|discriminate].
    intros [= <-]. repeat split; try assumption. simpl.
    eapply add_rel_map_unique; eauto.
  - intros k ind p sent H. unfold Individual_add_cog.
    destruct (dict_get p (cog ind)); [destruct (sent_in sent l)|]; exact H.
  - intros k n. split; split; simpl; intros; discriminate.
  - intros now k cls fact _ _ [Hp Hr]. unfold Category_add_ctg.
    destruct (parents cls) as [ps|] eqn:E; split; simpl; try exact Hr.
    + intros ? [= <-]. apply add_ctg_list_NoDup, Hp. reflexivity.
    + intros ? [= <-]. simpl. apply NoDup_singleton.
  - intros now k cls f cls' _ [Hp Hr]. unfold Category_add_rel.
    destruct (is_Relation cls); [discriminate|].
    destruct (crelations cls) as [rels|] eqn:E.
    + destruct (add_rel_map now rels f) as [rels'|] eqn:E'; simpl;
        [|discriminate].
      intros [= <-]. split; simpl; [assumption|].
      intros ? [= <-]. eapply add_rel_map_unique; eauto.
    + intros [= <-]. split; simpl; [assumption|].
      intros ? [= <-]. apply map_Forall_singleton. reflexivity.
  - intros k cls sent _ H. unfold Category_add_cog.
    destruct (sent_in sent (ccog cls)); exact H.
  - auto.
  - auto.
  - intros tell_ ast results_ _. repeat split; apply Forall_true; auto;
      intros s; apply particle_atoms_True.
Qed.

Lemma up_memb_subject_membs now kb_ pred :
  subject_membs (up_memb now kb_ pred) (term pred)
  = add_ctg_list now (subject_membs kb_ (term pred)) pred.
Proof.
  unfold subject_membs, up_memb.
  destruct (has_dollar (term pred)) eqn:Hd.
  - unfold individual_membs.
    match goal with
    | |- context [match classes ?k !! parent pred with _ => _ end] =>
        destruct (classes k !! parent pred)
    end; simpl; rewrite lookup_insert_eq; simpl;
      destruct (individuals kb_ !! term pred); reflexivity.
  - unfold class_membs.
    match goal with
    | |- context [match classes ?k !! parent pred with _ => _ end] =>
        destruct (classes k !! parent pred) eqn:E
    end; simpl in *.
    + rewrite lookup_insert_eq. unfold Category_add_ctg.
      destruct (classes kb_ !! term pred) as [cls|]; simpl;
        [destruct (parents cls)|]; reflexivity.
    + destruct (decide (parent pred = term pred)) as [Heq|Hne].
      * rewrite Heq, lookup_insert_eq in E. discriminate.
      * rewrite lookup_insert_ne by assumption. rewrite lookup_insert_eq.
        unfold Category_add_ctg.
        destruct (classes kb_ !! term pred) as [cls|]; simpl;
          [destruct (parents cls)|]; reflexivity.
Qed.

Lemma tell_one_membership now kb_ a pred :
  make_fact a grounded_term = Ret pred →
  tell now kb_ [StmtAssertion [AssertKlass a]] = (up_memb now kb_ pred, None).
Proof.
  intros H. unfold make_fact in H. unfold tell, logic_parser. simpl.
  rewrite H. reflexivity.
Qed.

(** C4: in every store that sequences of [tell] and [ask] reach, a
    subject holds at most one membership atom per category; telling a
    membership whose (subject, category) is already stored updates the
    stored atom in place, with the new value, and leaves the number of
    stored atoms unchanged. *)
Theorem one_membership_per_category (kb_ : Representation) :
  reachable kb_ →
  (∀ subject,
     NoDup (parent <$> individual_membs kb_ subject) ∧
     NoDup (parent <$> class_membs kb_ subject)) ∧
  (∀ now a pred idx,
     make_fact a grounded_term = Ret pred →
     ctg_index (parent pred) (subject_membs kb_ (term pred)) = Some idx →
     let kb' := (tell now kb_ [StmtAssertion [AssertKlass a]]).1 in
     subject_membs kb' (term pred)
       = alter (λ stored, pred_update now stored pred) idx
           (subject_membs kb_ (term pred)) ∧
     length (subject_membs kb' (term pred))
       = length (subject_membs kb_ (term pred)) ∧
     (∃ stored, subject_membs kb' (term pred) !! idx = Some stored ∧
                parent stored = parent pred ∧ value stored = value pred)).
Proof.
  intros Hreach. pose proof (reachable_unique kb_ Hreach) as [Hi Hc]. split.
  - intros subject. unfold individual_membs, class_membs. split.
    + destruct (individuals kb_ !! subject) as [ind|] eqn:E; [|constructor].
      exact (proj1 (proj2 (Hi _ _ E))).
    + destruct (classes kb_ !! subject) as [cls|] eqn:E; [|constructor].
      destruct (parents cls) as [ps|] eqn:E'; [|constructor].
      exact (proj1 (Hc _ _ E) _ E').
  - intros now a pred idx Hfact Hidx kb'. subst kb'.
    rewrite (tell_one_membership now kb_ a pred Hfact). simpl.
    rewrite up_memb_subject_membs. unfold add_ctg_list. rewrite Hidx.
    split; [reflexivity|]. split; [apply length_alter|].
    apply ctg_index_Some in Hidx as (stored & Hs & Hp).
    exists (pred_update now stored pred).
    rewrite list_lookup_alter, decide_True by reflexivity.
    rewrite Hs. simpl. auto.
Qed.

Lemma one_membership_per_category_witness :
  (NoDup (parent <$> individual_membs kb_cold_09 "$Water") ∧
   NoDup (parent <$> class_membs kb_cold_09 "$Water")) ∧
  (let kb' := (tell 5 kb_cold_09
                 [StmtAssertion [AssertKlass (cold_water_ast (1 # 10))]]).1 in
   subject_membs kb' (term (cold_water (1 # 10)))
     = alter (λ stored, pred_update 5 stored (cold_water (1 # 10))) 0%nat
         (subject_membs kb_cold_09 (term (cold_water (1 # 10)))) ∧
   length (subject_membs kb' (term (cold_water (1 # 10))))
     = length (subject_membs kb_cold_09 (term (cold_water (1 # 10)))) ∧
   (∃ stored,
      subject_membs kb' (term (cold_water (1 # 10))) !! 0%nat = Some stored ∧
      parent stored = parent (cold_water (1 # 10)) ∧
      value stored = value (cold_water (1 # 10)))).
Proof.
  destruct (one_membership_per_category kb_cold_09) as [H1 H2].
  - apply reachable_tell, reachable_empty.
  - split.
    + exact (H1 "$Water").
    + apply (H2 5 (cold_water_ast (1 # 10)) (cold_water (1 # 10)) 0%nat).
      * vm_compute. reflexivity.
      * vm_compute. reflexivity.
Defined.

(** The scenario of the spec: after [cold[$Water,u=0.9]] and then
    [cold[$Water,u=0.1]] the store holds one atom, with the later
    value. *)
Example cold_water_retold :
  subject_membs
    (told 5 kb_cold_09 [StmtAssertion [AssertKlass (cold_water_ast (1 # 10))]])
    "$Water"
  = [mkPred GroundedTerm "cold" "$Water" (1 # 10) "=" (Some [5])].
Proof. vm_compute. reflexivity. Qed.

(** ** Fuzzy values stay in [0,1] (C3) *)























(** ** Direct lookup of a membership (C10, C2) *)

Lemma eval_time_truth_true now a b : eval_time_truth now a b = true.
Proof.
  unfold eval_time_truth.
  destruct (is_true_now now b && is_true_now now a); reflexivity.
Qed.

Lemma test_pred_membership now kb_ p c :
  first_char (term p) = Ret c →
  test_pred now kb_ (APred p)
  = Ret match individuals kb_ !! term p with
        | Some ind => Individual_test_ctg now ind p
        | None => None
        end.
Proof.
  intros Hc. unfold test_pred, starts_with_dollar. rewrite Hc. simpl.
  destruct (Ascii.eqb c "$"); destruct (individuals kb_ !! term p); reflexivity.
Qed.

Lemma has_dollar_first_char s :
  has_dollar s = true → ∃ c, first_char s = Ret c.
Proof. destruct s; [discriminate|]. simpl. eauto. Qed.

Lemma up_memb_class_subject_individuals now kb_ p :
  has_dollar (term p) = false →
  individuals (up_memb now kb_ p) = individuals kb_.
Proof.
  intros Hd. unfold up_memb. rewrite Hd.
  match goal with
  | |- context [match classes ?k !! parent p with _ => _ end] =>
      destruct (classes k !! parent p)
  end; reflexivity.
Qed.

Lemma add_ctg_list_stored now atoms fact :
  parent fact ∈ parent <$> add_ctg_list now atoms fact.
Proof.
  rewrite add_ctg_list_parents.
  destruct (ctg_index (parent fact) atoms) as [idx|] eqn:E.
  - apply ctg_index_Some in E as (stored & Hs & <-).
    apply list_elem_of_fmap_2. eapply list_elem_of_lookup_2, Hs.
  - apply elem_of_app. right. apply list_elem_of_singleton. reflexivity.
Qed.

(** C10: for a membership atom whose subject does not begin with [$],
    [test_pred] reads the individuals alone, whatever the classes hold;
    so, in a store that sequences of [tell] and [ask] reach, a
    membership told about a class subject is stored with the class and
    [test_pred] reports it unknown. *)
Theorem test_pred_class_subject (now : Z) (kb_ : Representation)
  (p : LogPredicate) (c : ascii) :
  first_char (term p) = Ret c → c ≠ "$"%char →
  test_pred now kb_ (APred p)
    = Ret match individuals kb_ !! term p with
          | Some ind => Individual_test_ctg now ind p
          | None => None
          end ∧
  (∀ classes',
     test_pred now (mkRepr (individuals kb_) classes') (APred p)
     = test_pred now kb_ (APred p)) ∧
  (reachable kb_ → has_dollar (term p) = false →
   ∀ now' a, make_fact a grounded_term = Ret p →
     let kb' := (tell now' kb_ [StmtAssertion [AssertKlass a]]).1 in
     parent p ∈ parent <$> class_membs kb' (term p) ∧
     test_pred now kb' (APred p) = Ret None).
Proof.
  intros Hc Hne. split; [|split].
  - apply (test_pred_membership now kb_ p c Hc).
  - intros classes'.
    rewrite (test_pred_membership now kb_ p c Hc).
    rewrite (test_pred_membership now _ p c Hc). reflexivity.
  - intros Hreach Hd now' a Ha kb'. subst kb'.
    rewrite (tell_one_membership now' kb_ a p Ha). cbn [fst]. split.
    + pose proof (up_memb_subject_membs now' kb_ p) as H.
      unfold subject_membs in H. rewrite Hd in H. rewrite H.
      apply add_ctg_list_stored.
    + rewrite (test_pred_membership now _ p c Hc).
      rewrite (up_memb_class_subject_individuals now' kb_ p Hd).
      destruct (individuals kb_ !! term p) as [ind|] eqn:E; [|reflexivity].
      destruct (proj1 (reachable_unique kb_ Hreach) _ _ E) as [Hk _].
      congruence.
Qed.

Lemma test_pred_class_subject_witness :
  test_pred 1 empty_Representation (APred animal_cow)
    = Ret match individuals empty_Representation !! term animal_cow with
          | Some ind => Individual_test_ctg 1 ind animal_cow
          | None => None
          end ∧
  (∀ classes',
     test_pred 1 (mkRepr (individuals empty_Representation) classes')
       (APred animal_cow)
     = test_pred 1 empty_Representation (APred animal_cow)) ∧
  (let kb' := (tell 0 empty_Representation
                 [StmtAssertion
                    [AssertKlass
                       (mk_ast_pred "animal"
                          [mk_ast_arg "cow" (Some ("=", 1%Q))])]]).1 in
   parent animal_cow ∈ parent <$> class_membs kb' (term animal_cow) ∧
   test_pred 1 kb' (APred animal_cow) = Ret None).
Proof.
  destruct (test_pred_class_subject 1 empty_Representation animal_cow "c"%char)
    as (H1 & H2 & H3).
  - reflexivity.
  - discriminate.
  - split; [exact H1|]. split; [exact H2|].
    apply (H3 reachable_empty eq_refl 0
             (mk_ast_pred "animal" [mk_ast_arg "cow" (Some ("=", 1%Q))])).
    vm_compute. reflexivity.
Defined.

(** The round trip does hold for a subject that is an individual: in a
    store that sequences of [tell] and [ask] reach, a grounded membership about a
    name with a [$], once told, is found by [test_pred]. *)
Lemma individual_round_trip (now now' : Z) (kb_ : Representation)
  (a : ast_pred) (p : LogPredicate) :
  reachable kb_ → make_fact a grounded_term = Ret p →
  has_dollar (term p) = true →
  test_pred now' (tell now kb_ [StmtAssertion [AssertKlass a]]).1 (APred p)
  = Ret (Some true).
Proof.
  intros Hreach Ha Hd.
  assert (Hg : pclass p = GroundedTerm).
  { unfold make_fact, GroundedTerm_init in Ha.
    destruct (LogPredicate_init a) as [[[[[pa ta] va] oa] da]|]; simpl in Ha;
      [|discriminate].
    destruct (negb (String.eqb oa "=")); [discriminate|].
    destruct (illegal_value va); [discriminate|].
    injection Ha as <-. reflexivity. }
  assert (Hreach' : reachable (tell now kb_ [StmtAssertion [AssertKlass a]]).1)
    by (constructor; assumption).
  pose proof (reachable_unique _ Hreach') as [Hi _].
  revert Hi. rewrite (tell_one_membership now kb_ a p Ha). cbn [fst]. intros Hi.
  destruct (has_dollar_first_char _ Hd) as [c Hc].
  rewrite (test_pred_membership now' _ p c Hc).
  pose proof (up_memb_subject_membs now kb_ p) as Hm.
  unfold subject_membs in Hm. rewrite Hd in Hm.
  unfold individual_membs at 1 in Hm.
  destruct (individuals (up_memb now kb_ p) !! term p) as [ind|] eqn:E.
  - f_equal. unfold Individual_test_ctg, test_ctg_list.
    destruct (Hi _ _ E) as (_ & _ & Hterm & _).
    destruct (list_find (λ ctg, parent ctg = parent p) (categ ind))
      as [[i found]|] eqn:Hf.
    + apply list_find_Some in Hf as (Hlk & Hpar & _).
      rewrite Forall_forall in Hterm.
      specialize (Hterm found (list_elem_of_lookup_2 _ _ _ Hlk)).
      f_equal. unfold pred_eq. rewrite Hg. unfold GroundedTerm_eq.
      rewrite eval_time_truth_true. simpl.
      rewrite Hpar, Hterm, !String.eqb_refl. reflexivity.
    + exfalso. apply list_find_None in Hf. rewrite Forall_forall in Hf.
      pose proof (add_ctg_list_stored now (individual_membs kb_ (term p)) p)
        as Hin.
      rewrite <- Hm in Hin.
      apply list_elem_of_fmap in Hin as (y & Hy & Hin).
      exact (Hf y Hin (eq_sym Hy)).
  - exfalso.
    pose proof (add_ctg_list_stored now (individual_membs kb_ (term p)) p)
      as Hin.
    rewrite <- Hm in Hin. simpl in Hin. apply elem_of_nil in Hin. exact Hin.
Qed.

(** C2, at the failing input: [tell("animal[cow,u=1]")] succeeds and
    stores the atom with the class [cow], yet [test_pred] reports the
    same atom unknown, and so does [ask] of the atom; [ask] of the
    string raises. *)
Theorem class_round_trip_unknown :
  tell 0 empty_Representation [memb_stmt "animal" "cow" 1] = (kb_cow, None) ∧
  class_membs kb_cow "cow" = [animal_cow] ∧
  test_pred 1 kb_cow (APred animal_cow) = Ret None ∧
  snd <$> ask 10 1 kb_cow (AskAtom (APred animal_cow)) true
    = Some (Ret (Single None)) ∧
  snd <$> ask 10 1 kb_cow (AskString [memb_stmt "animal" "cow" 1]) true
    = Some (Raise AttributeError).
Proof. vm_compute. repeat split; reflexivity. Qed.

(** ** Relation buckets (C5) *)

(** C5, at the failing input: after [<friend[$John,u=1;$Lucy]>], the
    atom [<friend[$John,u=1;$Mary]>] finds the bucket [friend] of
    [$John] with an atom of other arguments, and is not inserted there;
    [$Mary], who had no bucket, stores it, and a lookup of the atom,
    which goes through [$John], reports it unknown. *)
Theorem second_friend_not_stored :
  tell 1 kb_john_lucy [StmtAssertion [AssertFunc (friend_ast "$John" "$Mary" 1)]]
    = (kb_john_lucy_mary, None) ∧
  individual_rels kb_john_lucy_mary "$John" "friend"
    = [friend_atom "$John" "$Lucy" 1] ∧
  individual_rels kb_john_lucy_mary "$Mary" "friend"
    = [friend_atom "$John" "$Mary" 1] ∧
  test_pred 2 kb_john_lucy_mary (AFunc (friend_atom "$John" "$Mary" 1))
    = Ret None.
Proof. vm_compute. repeat split; reflexivity. Qed.

(** What does hold of [add_rel]: a bucket never grows, and every bucket
    of a store that sequences of [tell] and [ask] reach holds exactly
    one atom. *)
Lemma relation_bucket_single (kb_ : Representation) (subject relation : string) :
  reachable kb_ →
  (length (individual_rels kb_ subject relation) ≤ 1)%nat ∧
  (length (class_rels kb_ subject relation) ≤ 1)%nat.
Proof.
  intros Hreach. pose proof (reachable_unique kb_ Hreach) as [Hi Hc].
  unfold individual_rels, class_rels. split.
  - destruct (individuals kb_ !! subject) as [ind|] eqn:E; [|simpl; lia].
    destruct (relations ind !! relation) as [bucket|] eqn:E'; [|simpl; lia].
    destruct (Hi _ _ E) as (_ & _ & _ & Hr). simpl.
    rewrite (Hr _ _ E'). lia.
  - destruct (classes kb_ !! subject) as [cls|] eqn:E; [|simpl; lia].
    destruct (crelations cls) as [rels|] eqn:E'; [|simpl; lia].
    destruct (rels !! relation) as [bucket|] eqn:E''; [|simpl; lia].
    destruct (Hc _ _ E) as [_ Hr]. simpl.
    rewrite (Hr _ E' _ _ E''). lia.
Qed.

(** ** Sentences are never evaluated *)

Lemma all_preds_nonempty p : all_preds p ≠ [].
Proof.
  induction p as [a|l IHl r _|l IHl r _|l IHl r _|l IHl r _|l IHl r _];
    simpl; [discriminate|..];
    (destruct (all_preds l); [contradiction | discriminate]).
Qed.

Lemma side_preds_right_nonempty p : side_preds false true p ≠ [].
Proof.
  induction p as [a|l _ r IHr|l _ r IHr|l _ r IHr|l IHl r _|l IHl r _];
    simpl; [discriminate| | | | |].
  1-3: intros H; apply app_eq_nil in H as [_ H]; exact (IHr H).
  1-2: intros H; apply app_eq_nil in H as [H _]; exact (IHl H).
Qed.

(** Every sentence has an atom on its right side. *)
Lemma get_preds_right_nonempty sent branch :
  String.eqb branch "l" = false → get_preds sent branch ≠ [].
Proof.
  intros Hb. unfold get_preds, get_all_preds. rewrite Hb.
  destruct (start sent) as [a|l r|l r|l r|l r|l r] eqn:E;
    try (rewrite <- E; apply all_preds_nonempty);
    cbn [side_preds negb]; intros H; apply app_eq_nil in H as [_ H];
    exact (side_preds_right_nonempty r H).
Qed.

Lemma locked_proof_raises now assigned sent kb_ :
  locked_proof now assigned sent kb_ = ((kb_, RUnset), Some TypeError).
Proof.
  unfold locked_proof.
  destruct (get_preds sent "r") eqn:E; [|reflexivity].
  exfalso. exact (get_preds_right_nonempty sent "r" eq_refl E).
Qed.

Lemma mk_node_raises st nc preds sent pos :
  String.eqb pos "l" = false →
  mk_node st nc preds sent pos = Raise AttributeError.
Proof.
  intros Hp. unfold mk_node.
  destruct (get_preds sent pos) eqn:E; [|reflexivity].
  exfalso. exact (get_preds_right_nonempty sent pos Hp E).
Qed.

Lemma get_rules_sent_raises c st sent :
  get_rules_sent c st sent = Raise AttributeError.
Proof.
  unfold get_rules_sent. rewrite mk_node_raises by reflexivity. reflexivity.
Qed.

Lemma ordered_set_nonempty l : l ≠ [] → ordered_set l ≠ [].
Proof. destruct l; [contradiction | discriminate]. Qed.

Lemma ordered_diff_nil l : ordered_diff l [] = l.
Proof.
  unfold ordered_diff. induction l as [|x l IH]; [reflexivity|].
  cbn [filter list_filter]. rewrite decide_True by reflexivity.
  f_equal. exact IH.
Qed.

Lemma get_query_atom_ctgs now kb_ a qs :
  get_query now kb_ (AskAtom a) = Ret qs → qs_ctgs qs = [atom_name a].
Proof.
  destruct a as [p|f]; cbn [get_query].
  - destruct (pclass p).
    + destruct (test_pred now kb_ (APred p)); simpl; [|discriminate].
      intros [= <-]. reflexivity.
    + intros [= <-]. reflexivity.
  - destruct (test_pred now kb_ (AFunc f)); simpl; [|discriminate].
    destruct (fold_left _ _ _). intros [= <-]. reflexivity.
Qed.

(** A query for an atom whose category holds a sentence does not get
    past the rule discovery. *)
Lemma ask_atom_rule_raises fuel now kb_ a qs cls single :
  get_query now kb_ (AskAtom a) = Ret qs →
  classes kb_ !! atom_name a = Some cls → ccog cls ≠ [] →
  ask (S fuel) now kb_ (AskAtom a) single = Some (kb_, Raise AttributeError).
Proof.
  intros Hq Hc Hcog.
  unfold ask, infer_facts. rewrite Hq.
  rewrite (get_query_atom_ctgs _ _ _ _ Hq).
  cbn [get_rules rs_ctgs reverse rev_append rs_nodes rs_next rs_done rs_rules].
  change (reverse [atom_name a]) with [atom_name a].
  rewrite Hc. cbn [rs_rules]. rewrite ordered_diff_nil.
  destruct (ordered_set (ccog cls)) as [|s l] eqn:E;
    [exfalso; exact (ordered_set_nonempty _ Hcog E)|].
  cbn [res_fold]. rewrite get_rules_sent_raises. reflexivity.
Qed.

(** ** Exceptions that leave [ask] (C6) *)

(** C6, the divergence: [ask] raises as soon as the category of the
    query holds a sentence.  The rule discovery builds a node for the
    sentence and adds it to a list sorted by [x.rule.created], which no
    sentence has; [infer_facts] catches [NoSolutionError] alone, so the
    [AttributeError] leaves [ask].  At the failing input the store holds
    [<friend[$Bob,u=1;$Lucy]>] and a rule with the consequent
    [happy[x,u=1]], and the query is the atom [happy[$Lucy,u=1]].
    Nor is a comparison of relation atoms of different shape caught:
    [add_ctg] lets the [NotCompFuncError] of [==] through. *)
Theorem ask_raises_on_rule :
  ask 10 2 kb_ghost_relation_rule (AskAtom happy_lucy) true
    = Some (kb_ghost_relation_rule, Raise AttributeError) ∧
  (∀ fuel now kb_ a qs cls single,
     get_query now kb_ (AskAtom a) = Ret qs →
     classes kb_ !! atom_name a = Some cls → ccog cls ≠ [] →
     ask (S fuel) now kb_ (AskAtom a) single
     = Some (kb_, Raise AttributeError)) ∧
  RelationFunc_eq 1 (friend_atom "$John" "$Lucy" 1) enemy_atom
    = Raise NotCompFuncError ∧
  (∀ now query_obj query_ pf rf s,
     RelationFunc_eq now pf rf = Raise NotCompFuncError →
     ∃ s', add_ctg_one now query_obj query_ (AFunc pf) (AFunc rf) s
           = Some (s', Raise NotCompFuncError)).
Proof.
  split; [|split; [exact ask_atom_rule_raises|split]].
  - apply (ask_atom_rule_raises 9%nat 2 kb_ghost_relation_rule happy_lucy
             (mkQS [] ∅ [("$Lucy", [happy_lucy])] ["happy"])
             (mkCat "happy"
                [mkSent 1
                   (LogicIndCond
                      (LogicAtom (AFunc (friend_atom "$Ghost" "x" 1)))
                      (LogicAtom (APred (free_atom "happy" "x" 1))))
                   (Some ["x"])]
                None None false)).
    + vm_compute. reflexivity.
    + vm_compute. reflexivity.
    + discriminate.
  - vm_compute. reflexivity.
  - intros now query_obj query_ pf rf s H. unfold add_ctg_one.
    unfold eng_bind at 1. cbn [eng_modify]. rewrite H. eexists. reflexivity.
Qed.

(** ** The rules of a consequent (C9) *)

(** C9, the divergence: no rule is ever indexed, so no order of
    evaluation exists.  For every sentence [mk_node] raises
    [AttributeError] at the first node, on reading the sort key
    [x.rule.created]; whenever [infer_facts] returns, the inference
    holds no node.  At the failing input the store holds the two rules
    of the consequent [flies], in the order told, and the fact
    [bird[$Tweety,u=1]], and the query for the atom
    [flies[$Tweety,u=0.7]] raises. *)
Theorem no_rule_is_indexed :
  (∀ st nc preds sent,
     mk_node st nc preds sent "right" = Raise AttributeError ∧
     mk_node st nc preds sent "left" = Raise AttributeError) ∧
  (∀ c st sent, get_rules_sent c st sent = Raise AttributeError) ∧
  (∀ fuel now kb_ sent inf r,
     infer_facts fuel now kb_ sent = Some (inf, r) → nodes inf = []) ∧
  ccog <$> classes kb_two_rules !! "flies"
    = Some [flies_rule 1 (3 # 10); flies_rule 2 (7 # 10)] ∧
  (∀ fuel single,
     ask (S fuel) 4 kb_two_rules (AskAtom flies_tweety) single
     = Some (kb_two_rules, Raise AttributeError)).
Proof.
  split; [|split; [|split; [|split]]].
  - intros st nc preds sent. split; apply mk_node_raises; reflexivity.
  - apply get_rules_sent_raises.
  - intros fuel now kb_ sent inf r H.
    exact (proj2 (infer_facts_idle _ _ _ _ _ _ H)).
  - vm_compute. reflexivity.
  - intros fuel single.
    apply (ask_atom_rule_raises fuel 4 kb_two_rules flies_tweety
             (mkQS [] ∅ [("$Tweety", [flies_tweety])] ["flies"])
             (mkCat "flies" [flies_rule 1 (3 # 10); flies_rule 2 (7 # 10)]
                None None false)).
    + vm_compute. reflexivity.
    + vm_compute. reflexivity.
    + discriminate.
Qed.

(** * Further properties of the atoms *)

(** ** Constructors *)

(** X1: a grounded membership is accepted exactly when its first
    argument carries the comparator [=] and a value in [0,1]; the atom
    then has the class, the term and the value of the assertion and no
    dates.  Otherwise the constructor raises: [IndexError] without
    arguments, [TypeError] without a value or with a value outside
    [0,1], [AssertionError] with an other comparator. *)
Theorem grounded_fact_accepted (a : ast_pred) :
  (∀ p, make_fact a grounded_term = Ret p ↔
     ∃ arg rest v,
       a_pargs a = arg :: rest ∧ a_uval arg = Some ("=", v) ∧ legal_value v ∧
       p = mkPred GroundedTerm (a_klass a) (a_term arg) v "=" None) ∧
  (∀ e, make_fact a grounded_term = Raise e →
     match a_pargs a with
     | [] => e = IndexError
     | arg :: _ =>
         match a_uval arg with
         | None => e = TypeError
         | Some (o, v) =>
             if illegal_value v then e = TypeError
             else e = AssertionError ∧ o ≠ "="
         end
     end).
Proof.
  unfold make_fact, GroundedTerm_init, LogPredicate_init.
  destruct (a_pargs a) as [|arg rest] eqn:Ea; cbn [res_bind].
  { split; [|intros e [= <-]; reflexivity].
    intros p. split; [discriminate|]. intros (? & ? & ? & ? & _). discriminate. }
  destruct (a_uval arg) as [[o v]|] eqn:Eu; cbn [res_bind].
  2:{ split; [|intros e [= <-]; reflexivity].
      intros p. split; [discriminate|].
      intros (arg' & rest' & v' & [= <- <-] & Hu & _). congruence. }
  destruct (illegal_value v) eqn:Hv; cbn [res_bind].
  { split; [|intros e [= <-]; reflexivity].
    intros p. split; [discriminate|].
    intros (arg' & rest' & v' & [= <- <-] & Hu & Hl & _).
    rewrite Eu in Hu. injection Hu as _ <-.
    apply illegal_value_true in Hv. contradiction. }
  destruct (String.eqb_spec o "=") as [->|Ho]; cbn [negb]; rewrite ?Hv.
  - split; [|intros e H; discriminate H].
    intros p. split.
    + intros [= <-]. exists arg, rest, v.
      apply illegal_value_false in Hv. repeat split; auto; apply Hv.
    + intros (arg' & rest' & v' & [= <- <-] & Hu & _ & ->).
      rewrite Eu in Hu. injection Hu as <-. reflexivity.
  - split; [|intros e [= <-]; auto].
    intros p. split; [discriminate|].
    intros (arg' & rest' & v' & [= <- <-] & Hu & _).
    rewrite Eu in Hu. injection Hu as -> _. contradiction.
Qed.

Lemma mk_args_names l m :
  mk_args l = Ret m → map arg_name m = map a_term l ∧ length m = length l.
Proof.
  revert m. induction l as [|a l IH]; intros m; simpl.
  - intros [= <-]. split; reflexivity.
  - destruct (a_uval a) as [[o v]|].
    + destruct (illegal_value v); [discriminate|].
      destruct (mk_args l) as [rest|]; [|discriminate].
      intros [= <-]. destruct (IH rest eq_refl) as [H1 H2].
      simpl. rewrite H1, H2. split; reflexivity.
    + destruct (mk_args l) as [rest|]; [|discriminate].
      intros [= <-]. destruct (IH rest eq_refl) as [H1 H2].
      simpl. rewrite H1, H2. split; reflexivity.
Qed.

(** X2: a relation atom that [make_function] builds has the name of the
    sentence, its arguments in the order of the sentence, the tuple of
    their names as [args_ID], their number as arity, which is positive,
    and no dates; its [value] is the value of the first argument, or the
    second character of its name when it carries none. *)
Theorem relation_constructor (sent : ast_func) (f : LogFunction) :
  make_function sent = Ret f →
  func f = a_func sent ∧
  get_args f = map a_term (a_fargs sent) ∧
  args_ID f = get_args f ∧
  arity f = length (a_fargs sent) ∧ length (args f) = arity f ∧
  (0 < arity f)%nat ∧ fdates f = None ∧
  ∃ arg rest, a_fargs sent = arg :: rest ∧
    match a_uval arg with
    | Some (_, v) => fvalue f = VNum v
    | None => ∃ c0 c s, a_term arg = String c0 (String c s) ∧ fvalue f = VChr c
    end.
Proof.
  unfold make_function, RelationFunc_init.
  destruct (mk_args (a_fargs sent)) as [margs|] eqn:E; simpl; [|discriminate].
  destruct (mk_args_names _ _ E) as [Hn Hl].
  destruct margs as [|a0 margs]; [discriminate|].
  destruct (arg_snd a0) as [v|] eqn:Ev; simpl; [|discriminate].
  intros [= <-]. unfold get_args. simpl.
  repeat split; try (symmetry; assumption); try assumption; try reflexivity.
  - simpl in Hl. lia.
  - destruct (a_fargs sent) as [|arg rest]; [discriminate|].
    exists arg, rest. split; [reflexivity|].
    simpl in E. destruct (a_uval arg) as [[o q]|].
    + destruct (illegal_value q); [discriminate|].
      destruct (mk_args rest); [|discriminate].
      injection E as <- _. injection Ev as <-. reflexivity.
    + destruct (mk_args rest); [|discriminate].
      injection E as <- _. simpl in Ev.
      destruct (a_term arg) as [|c0 [|c s]]; try discriminate.
      injection Ev as <-. eauto.
Qed.

Lemma relation_constructor_witness :
  func (friend_atom "$John" "$Lucy" 1) = a_func (friend_ast "$John" "$Lucy" 1) ∧
  get_args (friend_atom "$John" "$Lucy" 1)
    = map a_term (a_fargs (friend_ast "$John" "$Lucy" 1)) ∧
  args_ID (friend_atom "$John" "$Lucy" 1)
    = get_args (friend_atom "$John" "$Lucy" 1) ∧
  arity (friend_atom "$John" "$Lucy" 1)
    = length (a_fargs (friend_ast "$John" "$Lucy" 1)) ∧
  length (args (friend_atom "$John" "$Lucy" 1))
    = arity (friend_atom "$John" "$Lucy" 1) ∧
  (0 < arity (friend_atom "$John" "$Lucy" 1))%nat ∧
  fdates (friend_atom "$John" "$Lucy" 1) = None ∧
  ∃ arg rest, a_fargs (friend_ast "$John" "$Lucy" 1) = arg :: rest ∧
    match a_uval arg with
    | Some (_, v) => fvalue (friend_atom "$John" "$Lucy" 1) = VNum v
    | None => ∃ c0 c s, a_term arg = String c0 (String c s) ∧
                        fvalue (friend_atom "$John" "$Lucy" 1) = VChr c
    end.
Proof.
  apply (relation_constructor (friend_ast "$John" "$Lucy" 1)).
  vm_compute. reflexivity.
Defined.

(** ** Substitution and comparison of relation atoms *)

Lemma subst_args_spec l names :
  match subst_args l names with
  | Ret l' =>
      (length l ≤ length names)%nat ∧ l' = zip_with set_arg_name l names
  | Raise e => e = IndexError ∧ (length names < length l)%nat
  end.
Proof.
  revert names. induction l as [|a l IH]; intros names; simpl.
  - split; [lia|]. destruct names; reflexivity.
  - destruct names as [|n names]; simpl; [split; [reflexivity|lia]|].
    specialize (IH names). destruct (subst_args l names) as [rest|e]; simpl.
    + destruct IH as [Hl ->]. split; [lia|reflexivity].
    + destruct IH as [-> Hl]. split; [reflexivity|lia].
Qed.

Lemma zip_set_arg_names l names :
  map arg_name (zip_with set_arg_name l names) = take (length l) names.
Proof.
  revert names. induction l as [|a l IH]; intros [|n names]; simpl;
    try reflexivity.
  rewrite IH. destruct a; reflexivity.
Qed.

(** X3: [substitute] with a list of names succeeds exactly when there
    are at least as many names as arguments; each argument then takes
    the name at its position and keeps its value and comparator,
    [args_ID] becomes the whole list of names, and the name of the
    relation, the arity, the value and the dates are those of the
    original.  With fewer names the call raises [IndexError]. *)
Theorem substitute_names (self : LogFunction) (names : list string) :
  match LogFunction_substitute self names with
  | Ret subs =>
      (length (args self) ≤ length names)%nat ∧
      args subs = zip_with set_arg_name (args self) names ∧
      get_args subs = take (length (args self)) names ∧
      args_ID subs = names ∧ func subs = func self ∧
      arity subs = arity self ∧ fvalue subs = fvalue self ∧
      fdates subs = fdates self
  | Raise e => e = IndexError ∧ (length names < length (args self))%nat
  end.
Proof.
  unfold LogFunction_substitute.
  pose proof (subst_args_spec (args self) names) as H.
  destruct (subst_args (args self) names) as [l'|e]; simpl; [|exact H].
  destruct H as [Hl ->]. unfold get_args. simpl.
  rewrite zip_set_arg_names. repeat split; auto.
Qed.

Lemma chk_args_loop_same_kind l x o :
  Forall2 (λ a b, is_valued a = is_valued b) l (drop x o) →
  chk_args_loop l x o
    = Ret (bool_decide (map arg_name (drop x o) = map arg_name l)).
Proof.
  revert x. induction l as [|a l IH]; intros x H; simpl.
  - inversion H as [E|]. rewrite bool_decide_eq_true_2; reflexivity.
  - inversion H as [|a' b l' o' Hab Hrest E1 E2]. subst a' l'.
    assert (Hx : o !! x = Some b).
    { rewrite <- (Nat.add_0_r x), <- lookup_drop, <- E2. reflexivity. }
    assert (Hd : drop (S x) o = o').
    { change (S x) with (1 + x)%nat. rewrite Nat.add_comm, <- drop_drop, <- E2.
      reflexivity. }
    rewrite Hx. rewrite <- Hd in Hrest. specialize (IH (S x) Hrest).
    assert (Hdiff : arg_differs a b
                    = Ret (negb (String.eqb (arg_name b) (arg_name a)))).
    { destruct a, b; simpl in *; try discriminate; reflexivity. }
    rewrite Hdiff. simpl.
    destruct (String.eqb_spec (arg_name b) (arg_name a)) as [Hn|Hn]; simpl.
    + rewrite IH, Hd. f_equal. apply bool_decide_ext. rewrite Hn.
      split; [intros ->; reflexivity | intros [= ->]; reflexivity].
    + f_equal. symmetry. apply bool_decide_eq_false_2. intros [= Hh _].
      contradiction.
Qed.

(** X4: on two atoms whose arguments are of the same kind at each
    position (with or without a value), [chk_args_eq] answers [True]
    exactly when the arities, the names of the relation and the names of
    the arguments agree; the values are not looked at. *)
Theorem chk_args_eq_same_kind (self other : LogFunction) :
  Forall2 (λ a b, is_valued a = is_valued b) (args self) (args other) →
  chk_args_eq self other
    = Ret (bool_decide (arity other = arity self ∧ func other = func self ∧
                        get_args other = get_args self)).
Proof.
  intros H. unfold chk_args_eq.
  destruct (Nat.eqb_spec (arity other) (arity self)) as [Ha|Ha]; simpl.
  2:{ f_equal. symmetry. apply bool_decide_eq_false_2. tauto. }
  destruct (String.eqb_spec (func other) (func self)) as [Hf|Hf]; simpl.
  2:{ f_equal. symmetry. apply bool_decide_eq_false_2. tauto. }
  rewrite (chk_args_loop_same_kind (args self) 0 (args other) H).
  f_equal. apply bool_decide_ext. unfold get_args. simpl. tauto.
Qed.

Lemma chk_args_eq_same_kind_witness :
  chk_args_eq (likes_atom "$A" "$B" (1 # 2) 1) (likes_atom "$A" "$B" (9 # 10) 1)
    = Ret (bool_decide
             (arity (likes_atom "$A" "$B" (9 # 10) 1)
                = arity (likes_atom "$A" "$B" (1 # 2) 1) ∧
              func (likes_atom "$A" "$B" (9 # 10) 1)
                = func (likes_atom "$A" "$B" (1 # 2) 1) ∧
              get_args (likes_atom "$A" "$B" (9 # 10) 1)
                = get_args (likes_atom "$A" "$B" (1 # 2) 1))).
Proof.
  apply (chk_args_eq_same_kind (likes_atom "$A" "$B" (1 # 2) 1)
           (likes_atom "$A" "$B" (9 # 10) 1)).
  repeat constructor.
Defined.

Lemma Qlt_bool_irrefl (v : Q) : Qlt_bool v v = false.
Proof.
  unfold Qlt_bool. apply negb_false_iff, Qle_bool_iff, Qle_refl.
Qed.

Lemma rel_eq_loop_self l x o r :
  drop x o = l →
  rel_eq_loop l x o r
    = Ret (if existsb is_valued l then Some true else r).
Proof.
  revert x r. induction l as [|a l IH]; intros x r H; [reflexivity|].
  assert (Hx : o !! x = Some a).
  { rewrite <- (Nat.add_0_r x), <- lookup_drop, H. reflexivity. }
  assert (Hd : drop (S x) o = l).
  { change (S x) with (1 + x)%nat. rewrite Nat.add_comm, <- drop_drop, H.
    reflexivity. }
  destruct a as [t|t v op_]; cbn [rel_eq_loop existsb is_valued orb].
  - apply IH, Hd.
  - rewrite Hx.
    assert (Hr : rel_arg_result (ArgVal t v op_) (ArgVal t v op_)
                 = Ret (Some true)).
    { unfold rel_arg_result. simpl.
      destruct (String.eqb op_ "="); simpl.
      - rewrite (proj2 (Qeq_bool_iff v v) (Qeq_refl v)). reflexivity.
      - destruct (String.eqb op_ ">"); simpl;
          [rewrite Qlt_bool_irrefl; reflexivity|].
        destruct (String.eqb op_ "<"); simpl;
          [rewrite Qlt_bool_irrefl; reflexivity | reflexivity]. }
    rewrite Hr. cbn [res_bind]. rewrite (IH (S x) (Some true) Hd).
    destruct (existsb is_valued l); reflexivity.
Qed.

Lemma Forall2_same_kind_refl (l : list func_arg) :
  Forall2 (λ a b, is_valued a = is_valued b) l l.
Proof. induction l; constructor; auto. Qed.

Lemma chk_args_eq_refl (f : LogFunction) : chk_args_eq f f = Ret true.
Proof.
  unfold chk_args_eq. rewrite Nat.eqb_refl, String.eqb_refl. simpl.
  rewrite (chk_args_loop_same_kind (args f) 0 (args f)
             (Forall2_same_kind_refl _)).
  rewrite bool_decide_eq_true_2; reflexivity.
Qed.

Lemma relation_eq_self (now : Z) (f : LogFunction) :
  RelationFunc_eq now f f
    = if existsb is_valued (args f) then Ret true else Raise NameError.
Proof.
  unfold RelationFunc_eq. rewrite chk_args_eq_refl. simpl.
  rewrite (rel_eq_loop_self (args f) 0 (args f) None eq_refl). simpl.
  rewrite eval_time_truth_true.
  destruct (existsb is_valued (args f)); reflexivity.
Qed.

(** X5: an atom is comparable with itself, and compared with itself it
    is equal when one of its arguments carries a value; when none does,
    the comparison finds [result] unbound and raises. *)
Theorem relation_self_equality (now : Z) (f : LogFunction) :
  chk_args_eq f f = Ret true ∧
  RelationFunc_eq now f f
    = if existsb is_valued (args f) then Ret true else Raise NameError.
Proof. split; [apply chk_args_eq_refl | apply relation_eq_self]. Qed.

Lemma rel_arg_result_valued t v o t' v' o' :
  rel_arg_result (ArgVal t v o) (ArgVal t' v' o')
    = Ret (Some (value_verdict o v v')).
Proof.
  unfold rel_arg_result, value_verdict. simpl.
  destruct (String.eqb o "="); [reflexivity|].
  destruct (String.eqb o ">"); [reflexivity|].
  destruct (String.eqb o "<"); reflexivity.
Qed.

Lemma rel_eq_loop_bare l x o r :
  Forall (λ a, is_valued a = false) l → rel_eq_loop l x o r = Ret r.
Proof.
  intros H. revert x. induction H as [|a l Ha _ IH]; intros x; [reflexivity|].
  destruct a; [|discriminate]. cbn [rel_eq_loop]. apply IH.
Qed.

Lemma rel_eq_loop_last pre t v op_ post t' v' o' x o r :
  Forall2 (λ a b, is_valued a = is_valued b)
    (pre ++ ArgVal t v op_ :: post) (drop x o) →
  Forall (λ a, is_valued a = false) post →
  o !! (x + length pre)%nat = Some (ArgVal t' v' o') →
  rel_eq_loop (pre ++ ArgVal t v op_ :: post) x o r
    = Ret (Some (value_verdict op_ v v')).
Proof.
  revert x r. induction pre as [|a pre IH]; intros x r Hk Hpost Hx.
  - cbn [app rel_eq_loop]. simpl in Hx. rewrite Nat.add_0_r in Hx. rewrite Hx.
    rewrite rel_arg_result_valued. cbn [res_bind].
    apply rel_eq_loop_bare, Hpost.
  - simpl in Hk. inversion Hk as [|a' b l' o'' Hab Hrest E1 E2]. subst a' l'.
    assert (Hb : o !! x = Some b).
    { rewrite <- (Nat.add_0_r x), <- lookup_drop, <- E2. reflexivity. }
    assert (Hd : drop (S x) o = o'').
    { change (S x) with (1 + x)%nat. rewrite Nat.add_comm, <- drop_drop, <- E2.
      reflexivity. }
    rewrite <- Hd in Hrest.
    assert (Hx' : o !! (S x + length pre)%nat = Some (ArgVal t' v' o')).
    { rewrite <- Hx. f_equal. simpl. lia. }
    cbn [app rel_eq_loop]. destruct a as [s|s w p].
    + apply IH; assumption.
    + rewrite Hb. destruct b as [s'|s' w' p']; [discriminate|].
      rewrite rel_arg_result_valued. cbn [res_bind]. apply IH; assumption.
Qed.

(** X6: when two comparable atoms have arguments of the same kind at
    each position, their equality is the verdict of the last argument of
    the left atom that carries a value, against the value at the same
    position of the right atom: [=] wants equal values, [>] a value not
    greater than the other one, [<] a value not smaller.  The values at
    the positions before it do not count. *)
Theorem relation_equality_last_value (now : Z) (self other : LogFunction)
  (pre post : list func_arg) (t t' o o' : string) (v v' : Q) :
  Forall2 (λ a b, is_valued a = is_valued b) (args self) (args other) →
  chk_args_eq self other = Ret true →
  args self = pre ++ ArgVal t v o :: post →
  Forall (λ a, is_valued a = false) post →
  args other !! length pre = Some (ArgVal t' v' o') →
  RelationFunc_eq now self other = Ret (value_verdict o v v').
Proof.
  intros Hk Hc Hargs Hpost Hx. unfold RelationFunc_eq. rewrite Hc.
  cbn [res_bind negb]. rewrite Hargs in Hk |- *.
  rewrite (rel_eq_loop_last pre t v o post t' v' o' 0 (args other) None);
    try assumption.
  cbn [res_bind]. rewrite eval_time_truth_true. reflexivity.
Qed.

Lemma relation_equality_last_value_witness :
  RelationFunc_eq 0 (likes_atom "$A" "$B" (1 # 2) 1)
    (likes_atom "$A" "$B" (9 # 10) 1)
    = Ret (value_verdict "=" 1 1).
Proof.
  apply (relation_equality_last_value 0 (likes_atom "$A" "$B" (1 # 2) 1)
           (likes_atom "$A" "$B" (9 # 10) 1)
           [ArgVal "$A" (1 # 2) "="] [] "$B" "$B" "=" "=" 1 1).
  - repeat constructor.
  - vm_compute. reflexivity.
  - reflexivity.
  - constructor.
  - reflexivity.
Defined.

Lemma rel_ne_loop_spec l :
  rel_ne_loop l None
    = if existsb is_valued l then Raise AttributeError else Ret None.
Proof.
  induction l as [|[t|t v o] l IH]; simpl; [reflexivity | exact IH | reflexivity].
Qed.

(** X7: [!=] on relation atoms never answers [True] or [False]: on
    atoms that are not comparable it raises [NotCompFuncError], on
    comparable atoms it raises [AttributeError] as soon as the left atom
    has an argument with a value, and it returns [None] otherwise. *)
Theorem relation_ne_never_answers (now : Z) (self other : LogFunction) :
  (∀ b, RelationFunc_ne now self other ≠ Ret (Some b)) ∧
  RelationFunc_ne now self other
    = match chk_args_eq self other with
      | Raise e => Raise e
      | Ret false => Raise NotCompFuncError
      | Ret true =>
          if existsb is_valued (args self) then Raise AttributeError
          else Ret None
      end.
Proof.
  assert (H : RelationFunc_ne now self other
              = match chk_args_eq self other with
                | Raise e => Raise e
                | Ret false => Raise NotCompFuncError
                | Ret true =>
                    if existsb is_valued (args self) then Raise AttributeError
                    else Ret None
                end).
  { unfold RelationFunc_ne.
    destruct (chk_args_eq self other) as [[]|e]; cbn [res_bind negb];
      try reflexivity.
    rewrite rel_ne_loop_spec, eval_time_truth_true.
    destruct (existsb is_valued (args self)); reflexivity. }
  split; [|exact H].
  intros b. rewrite H.
  destruct (chk_args_eq self other) as [[]|e]; try discriminate.
  destruct (existsb is_valued (args self)); discriminate.
Qed.

(** X8: the validity dates of two atoms and the current time never
    change the outcome of their comparison: the time test of
    [_eval_time_truth] passes for every pair of atoms. *)
Theorem equality_ignores_dates (now now' : Z) :
  (∀ c pa t v o c' pa' t' v' o' d1 d2 d1' d2',
     pred_eq now (mkPred c pa t v o d1) (mkPred c' pa' t' v' o' d2)
     = pred_eq now' (mkPred c pa t v o d1') (mkPred c' pa' t' v' o' d2')) ∧
  (∀ f a i n w f' a' i' n' w' d1 d2 d1' d2',
     RelationFunc_eq now (mkFunc f a i n w d1) (mkFunc f' a' i' n' w' d2)
     = RelationFunc_eq now' (mkFunc f a i n w d1') (mkFunc f' a' i' n' w' d2')).
Proof.
  split.
  - intros. unfold pred_eq, GroundedTerm_eq, FreeTerm_eq. simpl.
    rewrite !eval_time_truth_true. reflexivity.
  - intros. unfold RelationFunc_eq. simpl.
    rewrite !eval_time_truth_true. reflexivity.
Qed.

(** ** [change_params] *)

(** X9: on a membership atom, [change_params(new)] followed by
    [change_params(revert=True)] gives the atom back, and the saved term
    is gone: a second revert raises [AttributeError]. *)
Theorem change_params_round_trip (self : PredParams) (new ignored : string) :
  ∃ changed,
    LogPredicate_change_params self new false = Ret changed ∧
    term (pp_atom changed) = new ∧
    LogPredicate_change_params changed ignored true
      = Ret (mkPredParams (pp_atom self) None) ∧
    LogPredicate_change_params (mkPredParams (pp_atom self) None) ignored true
      = Raise AttributeError.
Proof.
  eexists. split; [reflexivity|]. split; [reflexivity|]. split; [|reflexivity].
  destruct self as [[c pa t v o d] old]. reflexivity.
Qed.

Lemma change_args_spec l new :
  (length l ≤ length new)%nat →
  change_args l new = (zip_with set_arg_name l new, None).
Proof.
  revert new. induction l as [|a l IH]; intros [|n new] H; simpl in *;
    try reflexivity; try lia.
  rewrite IH by lia. reflexivity.
Qed.

(** X10: on a relation atom, [change_params(new)] with at least as many
    names as arguments renames the arguments and leaves [args_ID] as it
    was; [change_params(revert=True)] then stores the saved arguments in
    the attribute [term] and leaves the renamed arguments in place. *)
Theorem change_params_not_reverted (self : FuncParams)
  (new ignored : list string) :
  (length (args (fp_atom self)) ≤ length new)%nat →
  ∃ changed,
    LogFunction_change_params self new false = (changed, None) ∧
    get_args (fp_atom changed) = take (length (args (fp_atom self))) new ∧
    args_ID (fp_atom changed) = args_ID (fp_atom self) ∧
    LogFunction_change_params changed ignored true
      = (mkFuncParams (fp_atom changed) None (Some (args (fp_atom self))),
         None).
Proof.
  intros H. unfold LogFunction_change_params. simpl.
  rewrite (change_args_spec _ _ H). eexists. split; [reflexivity|].
  simpl. unfold get_args. simpl. rewrite zip_set_arg_names.
  repeat split; reflexivity.
Qed.

Lemma change_params_not_reverted_witness :
  ∃ changed,
    LogFunction_change_params
      (mkFuncParams (friend_atom "$John" "$Lucy" 1) None None)
      ["$Ann"; "$Bob"] false = (changed, None) ∧
    get_args (fp_atom changed)
      = take (length (args (fp_atom
                (mkFuncParams (friend_atom "$John" "$Lucy" 1) None None))))
          ["$Ann"; "$Bob"] ∧
    args_ID (fp_atom changed)
      = args_ID (fp_atom
                   (mkFuncParams (friend_atom "$John" "$Lucy" 1) None None)) ∧
    LogFunction_change_params changed [] true
      = (mkFuncParams (fp_atom changed) None
           (Some (args (fp_atom
              (mkFuncParams (friend_atom "$John" "$Lucy" 1) None None)))),
         None).
Proof.
  apply (change_params_not_reverted
           (mkFuncParams (friend_atom "$John" "$Lucy" 1) None None)
           ["$Ann"; "$Bob"] []).
  simpl. lia.
Defined.

(** * Further properties of the sentence evaluator *)

(** ** The connectives *)

Lemma disjunction_value_pair (r0 r1 : option bool) :
  disjunction_value [r0; r1] = Some (is_True r0 || is_True r1).
Proof. destruct r0 as [[]|], r1 as [[]|]; reflexivity. Qed.

(** X11: a disjunction never resolves to unknown: it is true when one
    of its sides is true and false in every other case, also when both
    sides are unknown; as the start of a sentence it sets the result of
    the sentence to the same value and leaves the store as it is. *)
Theorem disjunction_never_unknown (now : Z) (kb_ : Representation)
  (assigned : assignment) (l r : Particle) (r0 r1 : option bool) :
  resolve now kb_ assigned l = Ret r0 →
  resolve now kb_ assigned r = Ret r1 →
  resolve now kb_ assigned (LogicDisjunction l r)
    = Ret (Some (is_True r0 || is_True r1)) ∧
  solve_proof now assigned (LogicDisjunction l r) kb_
    = ((kb_, RBool (is_True r0 || is_True r1)), None).
Proof.
  intros Hl Hr. cbn [resolve solve_proof]. rewrite Hl, Hr. cbn [res_bind].
  rewrite disjunction_value_pair. split; reflexivity.
Qed.

Lemma disjunction_never_unknown_witness :
  resolve 1 kb_lucy_not_professor []
    (LogicDisjunction (LogicAtom (APred (free_atom "student" "$Lucy" 1)))
       (LogicAtom (APred (free_atom "person" "$Lucy" 1))))
    = Ret (Some (is_True None || is_True None)) ∧
  solve_proof 1 []
    (LogicDisjunction (LogicAtom (APred (free_atom "student" "$Lucy" 1)))
       (LogicAtom (APred (free_atom "person" "$Lucy" 1))))
    kb_lucy_not_professor
    = ((kb_lucy_not_professor, RBool (is_True None || is_True None)), None).
Proof.
  apply (disjunction_never_unknown 1 kb_lucy_not_professor []
           (LogicAtom (APred (free_atom "student" "$Lucy" 1)))
           (LogicAtom (APred (free_atom "person" "$Lucy" 1))) None None).
  - vm_compute. reflexivity.
  - vm_compute. reflexivity.
Defined.

(** X12: a conjunction is true when both sides are true, false when a
    side is false, also next to an unknown side, and unknown otherwise.
    As the start of a sentence it sets the result to true or to false,
    and leaves it unset when the conjunction is unknown. *)
Theorem conjunction_resolve (now : Z) (kb_ : Representation)
  (assigned : assignment) (l r : Particle) (r0 r1 : option bool) :
  resolve now kb_ assigned l = Ret r0 →
  resolve now kb_ assigned r = Ret r1 →
  let v := match r0, r1 with
           | Some true, Some true => Some true
           | Some false, _ | _, Some false => Some false
           | _, _ => None
           end in
  resolve now kb_ assigned (LogicConjunction l r) = Ret v ∧
  solve_proof now assigned (LogicConjunction l r) kb_
    = ((kb_, match v with Some b => RBool b | None => RUnset end), None).
Proof.
  intros Hl Hr v. subst v. cbn [resolve solve_proof]. rewrite Hl, Hr.
  cbn [res_bind]. destruct r0 as [[]|], r1 as [[]|]; split; reflexivity.
Qed.

Lemma conjunction_resolve_witness :
  resolve 1 kb_lucy_not_professor []
    (LogicConjunction (LogicAtom (APred (free_atom "person" "$Lucy" 1)))
       (LogicAtom (APred (free_atom "professor" "$Lucy" 1))))
    = Ret (Some false) ∧
  solve_proof 1 []
    (LogicConjunction (LogicAtom (APred (free_atom "person" "$Lucy" 1)))
       (LogicAtom (APred (free_atom "professor" "$Lucy" 1))))
    kb_lucy_not_professor
    = ((kb_lucy_not_professor, RBool false), None).
Proof.
  apply (conjunction_resolve 1 kb_lucy_not_professor []
           (LogicAtom (APred (free_atom "person" "$Lucy" 1)))
           (LogicAtom (APred (free_atom "professor" "$Lucy" 1)))
           None (Some false)).
  - vm_compute. reflexivity.
  - vm_compute. reflexivity.
Defined.

(** X13: an equivalence is unknown when a side is unknown, and
    otherwise true exactly when both sides have the same truth value;
    as the start of a sentence it sets the result to this value,
    unknown included, and leaves the store as it is. *)
Theorem equivalence_resolve (now : Z) (kb_ : Representation)
  (assigned : assignment) (l r : Particle) (r0 r1 : option bool) :
  resolve now kb_ assigned l = Ret r0 →
  resolve now kb_ assigned r = Ret r1 →
  let v := match r0, r1 with
           | Some a, Some b => Some (Bool.eqb a b)
           | _, _ => None
           end in
  resolve now kb_ assigned (LogicEquivalence l r) = Ret v ∧
  solve_proof now assigned (LogicEquivalence l r) kb_
    = ((kb_, truth_result v), None).
Proof.
  intros Hl Hr v. subst v. cbn [resolve solve_proof]. rewrite Hl, Hr.
  cbn [res_bind]. destruct r0 as [[]|], r1 as [[]|]; split; reflexivity.
Qed.

Lemma equivalence_resolve_witness :
  resolve 1 kb_lucy_not_professor []
    (LogicEquivalence (LogicAtom (APred (free_atom "professor" "$Lucy" 1)))
       (LogicAtom (APred (free_atom "professor" "$Lucy" 0))))
    = Ret (Some (Bool.eqb false true)) ∧
  solve_proof 1 []
    (LogicEquivalence (LogicAtom (APred (free_atom "professor" "$Lucy" 1)))
       (LogicAtom (APred (free_atom "professor" "$Lucy" 0))))
    kb_lucy_not_professor
    = ((kb_lucy_not_professor, truth_result (Some (Bool.eqb false true))), None).
Proof.
  apply (equivalence_resolve 1 kb_lucy_not_professor []
           (LogicAtom (APred (free_atom "professor" "$Lucy" 1)))
           (LogicAtom (APred (free_atom "professor" "$Lucy" 0)))
           (Some false) (Some true)).
  - vm_compute. reflexivity.
  - vm_compute. reflexivity.
Defined.

(** ** Evaluating a sentence *)

(** X14: evaluating a sentence changes the store only when the sentence
    is an indicative conditional whose antecedent resolves to true: in
    every other case, also when the evaluation raises, the store is left
    as it was. *)
Theorem evaluation_read_only (now : Z) (assigned : assignment) (p : Particle)
  (kb_ : Representation) :
  (∀ l r, p = LogicIndCond l r →
          resolve now kb_ assigned l ≠ Ret (Some true)) →
  (solve_proof now assigned p kb_).1.1 = kb_.
Proof.
  intros H. destruct p as [a|l r|l r|l r|l r|l r]; cbn [solve_proof];
    try reflexivity.
  - specialize (H l r eq_refl).
    destruct (resolve now kb_ assigned l) as [[[]|]|e]; try reflexivity.
    contradiction.
  - destruct (resolve now kb_ assigned l) as [r0|e]; [|reflexivity].
    destruct (resolve now kb_ assigned r) as [r1|e]; reflexivity.
  - destruct (resolve now kb_ assigned l) as [r0|e]; [|reflexivity].
    destruct (resolve now kb_ assigned r) as [r1|e]; reflexivity.
  - destruct (resolve now kb_ assigned l) as [r0|e]; [|reflexivity].
    destruct (resolve now kb_ assigned r) as [r1|e]; cbn [res_bind];
      [|reflexivity].
    destruct (conjunction_value [r0; r1]); reflexivity.
  - destruct (resolve now kb_ assigned l) as [r0|e]; [|reflexivity].
    destruct (resolve now kb_ assigned r) as [r1|e]; cbn [res_bind];
      [|reflexivity].
    destruct (disjunction_value [r0; r1]); reflexivity.
Qed.

Lemma evaluation_read_only_witness :
  (solve_proof 1 [("x", "$Lucy")] (start drunk_rule) kb_lucy_not_professor).1.1
    = kb_lucy_not_professor.
Proof.
  apply (evaluation_read_only 1 [("x", "$Lucy")] (start drunk_rule)
           kb_lucy_not_professor).
  intros l r [= <- <-]. vm_compute. discriminate.
Defined.

Lemma assign_vars_missing kb_ vars consts assigned c :
  length vars = length consts → c ∈ consts → individuals kb_ !! c = None →
  assign_vars kb_ vars consts assigned = None.
Proof.
  revert vars assigned.
  induction consts as [|k consts IH]; intros vars assigned Hlen Hc Hk.
  - apply elem_of_nil in Hc. contradiction.
  - destruct vars as [|v vars]; [discriminate|]. simpl.
    apply elem_of_cons in Hc as [->|Hc].
    + rewrite Hk. reflexivity.
    + destruct (individuals kb_ !! k); [|reflexivity].
      apply IH; [simpl in Hlen; lia | assumption | assumption].
Qed.

(** X15: a sentence with variables is evaluated only on as many
    constants as it has variables, all of them individuals of the store:
    with an other number of constants, or with a constant that is not an
    individual (a class, for one), the call returns [None] and leaves
    the store as it was. *)
Theorem call_needs_individuals (now : Z) (kb_ : Representation)
  (sent : LogSentence) (vo args_ : list string) :
  var_order sent = Some vo →
  length vo ≠ length args_ ∨ (∃ c, c ∈ args_ ∧ individuals kb_ !! c = None) →
  LogSentence_call now kb_ sent args_ = ((kb_, RUnset), None).
Proof.
  intros Hvo H. unfold LogSentence_call. rewrite Hvo.
  destruct (Nat.eqb_spec (length vo) (length args_)) as [Hlen|Hlen].
  - destruct H as [H|(c & Hc & Hk)]; [contradiction|].
    rewrite (assign_vars_missing kb_ vo args_ [] c Hlen Hc Hk). reflexivity.
  - reflexivity.
Qed.

Lemma call_needs_individuals_witness :
  LogSentence_call 2 kb_cow drunk_rule ["cow"] = ((kb_cow, RUnset), None).
Proof.
  apply (call_needs_individuals 2 kb_cow drunk_rule ["x"] ["cow"]).
  - reflexivity.
  - right. exists "cow". split; [apply list_elem_of_singleton; reflexivity|].
    vm_compute. reflexivity.
Defined.

Lemma test_ctg_list_appended now atoms g test :
  parent test ∉ parent <$> atoms → parent g = parent test →
  test_ctg_list now (atoms ++ [g]) test = Some (pred_eq now test g).
Proof.
  intros Hn Hg. unfold test_ctg_list.
  induction atoms as [|a atoms IH]; simpl.
  - rewrite decide_True by assumption. reflexivity.
  - rewrite fmap_cons, not_elem_of_cons in Hn. destruct Hn as [Ha Hn].
    rewrite decide_False by (intros E; apply Ha; symmetry; exact E).
    specialize (IH Hn).
    destruct (list_find (λ ctg, parent ctg = parent test) (atoms ++ [g]))
      as [[i found]|]; simpl in *; [|discriminate].
    exact IH.
Qed.

(** X16: when the antecedent of an indicative conditional resolves to
    true and the consequent is a membership atom with the comparator
    [=], about a subject that holds no atom of that category yet, the
    evaluation stores the grounded consequent with the subject, returns
    it as the result of the sentence, and the consequent then resolves
    to true in the new store. *)
Theorem rule_asserts_consequent (now : Z) (kb_ : Representation)
  (assigned : assignment) (l : Particle) (q : LogPredicate) (c : ascii) :
  resolve now kb_ assigned l = Ret (Some true) →
  pclass q = FreeTerm → op q = "=" →
  first_char (isvar (term q) assigned) = Ret c →
  c = "$"%char ∨ has_dollar (isvar (term q) assigned) = false →
  parent q ∉ parent <$> subject_membs kb_ (isvar (term q) assigned) →
  ∃ kb',
    solve_proof now assigned (LogicIndCond l (LogicAtom (APred q))) kb_
      = ((kb', RPreds [APred (mkPred GroundedTerm (parent q)
                                (isvar (term q) assigned) (value q) "="
                                (dates q))]), None) ∧
    subject_membs kb' (isvar (term q) assigned)
      = subject_membs kb_ (isvar (term q) assigned)
        ++ [mkPred GroundedTerm (parent q) (isvar (term q) assigned)
              (value q) "=" (dates q)] ∧
    resolve now kb' assigned (LogicAtom (APred q)) = Ret (Some true).
Proof.
  intros Hl Hfree Hop Hc Hdollar Hnew.
  set (sbj := isvar (term q) assigned) in *.
  set (g := mkPred GroundedTerm (parent q) sbj (value q) "=" (dates q)).
  exists (up_memb now kb_ g).
  assert (Hmembs : subject_membs (up_memb now kb_ g) sbj
                   = subject_membs kb_ sbj ++ [g]).
  { pose proof (up_memb_subject_membs now kb_ g) as H. simpl in H.
    rewrite H. unfold add_ctg_list. simpl.
    rewrite (proj2 (ctg_index_None _ _) Hnew). reflexivity. }
  assert (Heq : pred_eq now (FreeTerm_substitute q sbj) g = true).
  { unfold pred_eq, FreeTerm_substitute. simpl. rewrite Hfree.
    unfold FreeTerm_eq. simpl. rewrite eval_time_truth_true, Hop. simpl.
    rewrite (proj2 (Qeq_bool_iff _ _) (Qeq_refl (value q))). reflexivity. }
  split; [|split; [exact Hmembs|]].
  - cbn [solve_proof]. rewrite Hl. cbn [substitute LogicAtom_substitute].
    fold sbj. rewrite Hfree. unfold GroundedTerm_fromfree. rewrite Hfree, Hop.
    reflexivity.
  - cbn [resolve]. unfold LogicAtom_resolve. fold sbj. rewrite Hfree.
    unfold starts_with_dollar. rewrite Hc. cbn [res_bind].
    assert (Htest : test_ctg_list now (subject_membs kb_ sbj ++ [g])
                      (FreeTerm_substitute q sbj) = Some true).
    { rewrite test_ctg_list_appended; [rewrite Heq; reflexivity | exact Hnew |
        reflexivity]. }
    rewrite <- Hmembs in Htest. unfold subject_membs in Htest, Hmembs.
    destruct Hdollar as [->|Hd].
    + assert (Hd : has_dollar sbj = true).
      { destruct sbj as [|c0 s]; [discriminate|]. simpl in Hc.
        injection Hc as ->. reflexivity. }
      rewrite Hd in Htest, Hmembs. simpl.
      unfold individual_membs in Htest, Hmembs. unfold lookup_individual.
      destruct (individuals (up_memb now kb_ g) !! sbj) as [ind|].
      * simpl. rewrite <- Htest. reflexivity.
      * destruct (app_cons_not_nil _ _ _ Hmembs).
    + rewrite Hd in Htest, Hmembs.
      assert (Hne : Ascii.eqb c "$" = false).
      { destruct sbj as [|c0 s]; [discriminate|]. simpl in Hc, Hd.
        injection Hc as <-. destruct (Ascii.eqb c0 "$"); [discriminate|].
        reflexivity. }
      rewrite Hne. simpl. unfold class_membs in Htest, Hmembs.
      unfold lookup_class.
      destruct (classes (up_memb now kb_ g) !! sbj) as [cls|].
      * simpl. unfold Category_test_ctg.
        destruct (parents cls) as [ps|]; simpl in *.
        -- rewrite <- Htest. reflexivity.
        -- destruct (app_cons_not_nil _ _ _ Hmembs).
      * destruct (app_cons_not_nil _ _ _ Hmembs).
Qed.

Lemma rule_asserts_consequent_witness :
  ∃ kb',
    solve_proof 2 [("x", "$Lucy")]
      (LogicIndCond (LogicAtom (APred (free_atom "drunk" "x" 1)))
         (LogicAtom (APred (free_atom "sober" "x" 0)))) kb_drunk_lucy
      = ((kb', RPreds [APred (mkPred GroundedTerm "sober" "$Lucy" 0 "=" None)]),
         None) ∧
    subject_membs kb' "$Lucy"
      = subject_membs kb_drunk_lucy "$Lucy"
        ++ [mkPred GroundedTerm "sober" "$Lucy" 0 "=" None] ∧
    resolve 2 kb' [("x", "$Lucy")] (LogicAtom (APred (free_atom "sober" "x" 0)))
      = Ret (Some true).
Proof.
  apply (rule_asserts_consequent 2 kb_drunk_lucy [("x", "$Lucy")]
           (LogicAtom (APred (free_atom "drunk" "x" 1)))
           (free_atom "sober" "x" 0) "$"%char).
  - vm_compute. reflexivity.
  - reflexivity.
  - reflexivity.
  - reflexivity.
  - left. reflexivity.
  - intros H. vm_compute in H. inversion H as [|? ? ? H']. inversion H'.
Defined.

(** ** The atoms of a sentence *)

Lemma side_preds_partition p h :
  side_preds true h p ++ side_preds false (negb h) p ≡ₚ all_preds p.
Proof.
  revert h.
  induction p as [a|l IHl r IHr|l IHl r IHr|l IHl r IHr|l IHl r IHr|l IHl r IHr];
    intros h; cbn [side_preds all_preds negb].
  - destruct h; reflexivity.
  - rewrite <- (IHl true), <- (IHr false). cbn [negb]. solve_Permutation.
  - rewrite <- (IHl true), <- (IHr false). cbn [negb]. solve_Permutation.
  - rewrite <- (IHl true), <- (IHr false). cbn [negb]. solve_Permutation.
  - rewrite <- (IHl h), <- (IHr h). solve_Permutation.
  - rewrite <- (IHl h), <- (IHr h). solve_Permutation.
Qed.

Lemma side_preds_flat w h p :
  flat p = true → side_preds w h p = if h then all_preds p else [].
Proof.
  induction p as [a|l IHl r IHr|l IHl r IHr|l IHl r IHr|l IHl r IHr|l IHl r IHr];
    cbn [flat side_preds all_preds]; try discriminate.
  - reflexivity.
  - intros [Hl Hr]%andb_true_iff. rewrite IHl, IHr by assumption.
    destruct h; reflexivity.
  - intros [Hl Hr]%andb_true_iff. rewrite IHl, IHr by assumption.
    destruct h; reflexivity.
Qed.

Lemma get_preds_conditional sent (l r : Particle) :
  side_preds true false (start sent) = side_preds true true l
                                       ++ side_preds true false r →
  side_preds false false (start sent) = side_preds false false l
                                        ++ side_preds false true r →
  get_all_preds sent = all_preds l ++ all_preds r →
  (side_preds true false (start sent) ++ side_preds false false (start sent)
     ≡ₚ get_all_preds sent) ∧
  (flat l = true → flat r = true →
   side_preds true false (start sent) = all_preds l ∧
   side_preds false false (start sent) = all_preds r).
Proof.
  intros H1 H2 H3. rewrite H1, H2, H3. split.
  - rewrite <- (side_preds_partition l true), <- (side_preds_partition r false).
    cbn [negb]. solve_Permutation.
  - intros Hl Hr. rewrite !side_preds_flat by assumption.
    rewrite app_nil_r. split; reflexivity.
Qed.

(** X17: in a sentence whose start is [|>], [=>] or [<=>], every atom
    is on exactly one side: the atoms of [get_preds('l')] and those of
    [get_preds('r')] together are the atoms of the sentence; any branch
    other than ['l'], the word ['left'] included, selects the right
    side; and when neither side holds a further conditional, the left
    side is the atoms of the antecedent and the right side those of the
    consequent.  With any other start every branch gives all atoms. *)
Theorem get_preds_sides (sent : LogSentence) :
  match start sent with
  | LogicIndCond l r | LogicEquivalence l r | LogicImplication l r =>
      (get_preds sent "l" ++ get_preds sent "r" ≡ₚ get_all_preds sent) ∧
      (∀ branch, branch ≠ "l" → get_preds sent branch = get_preds sent "r") ∧
      (flat l = true → flat r = true →
       get_preds sent "l" = all_preds l ∧ get_preds sent "r" = all_preds r)
  | _ => ∀ branch, get_preds sent branch = get_all_preds sent
  end.
Proof.
  unfold get_preds, get_all_preds.
  destruct (start sent) as [a|l r|l r|l r|l r|l r] eqn:E; try reflexivity.
  - pose proof (get_preds_conditional sent l r) as H. rewrite E in H.
    unfold get_all_preds in H. rewrite E in H.
    destruct (H eq_refl eq_refl eq_refl) as [H1 H2].
    split; [exact H1|]. split; [|exact H2].
    intros branch Hb. apply String.eqb_neq in Hb. rewrite Hb. reflexivity.
  - pose proof (get_preds_conditional sent l r) as H. rewrite E in H.
    unfold get_all_preds in H. rewrite E in H.
    destruct (H eq_refl eq_refl eq_refl) as [H1 H2].
    split; [exact H1|]. split; [|exact H2].
    intros branch Hb. apply String.eqb_neq in Hb. rewrite Hb. reflexivity.
  - pose proof (get_preds_conditional sent l r) as H. rewrite E in H.
    unfold get_all_preds in H. rewrite E in H.
    destruct (H eq_refl eq_refl eq_refl) as [H1 H2].
    split; [exact H1|]. split; [|exact H2].
    intros branch Hb. apply String.eqb_neq in Hb. rewrite Hb. reflexivity.
Qed.

(** ** Building a sentence from the parse tree *)

Lemma traverse_ast_atoms e :
  ∀ p, traverse_ast e = Ret p →
       Forall2 built_from (ast_atoms e) (all_preds p) ∧ known_ops e = true.
Proof.
  induction e as [a|f|o l IHl r IHr]; intros p;
    cbn [traverse_ast ast_atoms known_ops].
  - destruct (make_fact a free_term) as [form|] eqn:E; cbn [res_bind];
      [|discriminate].
    intros [= <-]. split; [|reflexivity]. constructor; [exact E|constructor].
  - destruct (make_function f) as [form|] eqn:E; cbn [res_bind];
      [|discriminate].
    intros [= <-]. split; [|reflexivity]. constructor; [exact E|constructor].
  - assert (Hsub : ∀ mk : Particle → Particle → Particle,
              (∀ x y, all_preds (mk x y) = all_preds x ++ all_preds y) →
              res_bind (traverse_ast l)
                (λ x, res_bind (traverse_ast r) (λ y, Ret (mk x y))) = Ret p →
              Forall2 built_from (ast_atoms l ++ ast_atoms r) (all_preds p) ∧
              known_ops l && known_ops r = true).
    { intros mk Hmk.
      destruct (traverse_ast l) as [x|]; [|discriminate].
      destruct (traverse_ast r) as [y|]; [|discriminate].
      cbn [res_bind]. intros [= <-].
      destruct (IHl x eq_refl) as [H1 H2], (IHr y eq_refl) as [H3 H4].
      rewrite Hmk, H2, H4. split; [apply Forall2_app; assumption|reflexivity]. }
    destruct (String.eqb o "|>") eqn:E1.
    { intros H. exact (Hsub LogicIndCond (λ _ _, eq_refl) H). }
    destruct (String.eqb o "<=>") eqn:E2.
    { intros H. exact (Hsub LogicEquivalence (λ _ _, eq_refl) H). }
    destruct (String.eqb o "=>") eqn:E3.
    { intros H. exact (Hsub LogicImplication (λ _ _, eq_refl) H). }
    destruct (String.eqb o "&&") eqn:E4.
    { intros H. exact (Hsub LogicConjunction (λ _ _, eq_refl) H). }
    destruct (String.eqb o "||") eqn:E5.
    { intros H. exact (Hsub LogicDisjunction (λ _ _, eq_refl) H). }
    discriminate.
Qed.

Lemma traverse_ast_total e :
  known_ops e = true →
  Forall (λ leaf, ∃ a, built_from leaf a) (ast_atoms e) →
  ∃ p, traverse_ast e = Ret p.
Proof.
  induction e as [a|f|o l IHl r IHr]; cbn [traverse_ast ast_atoms known_ops].
  - intros _ H. inversion H as [|? ? [[q|g] Hq] _]; subst; cbn [built_from] in Hq;
      [|contradiction].
    rewrite Hq. eauto.
  - intros _ H. inversion H as [|? ? [[q|g] Hg] _]; subst; cbn [built_from] in Hg;
      [contradiction|].
    rewrite Hg. eauto.
  - intros Hk Ha.
    apply andb_true_iff in Hk as [Hk Hr]. apply andb_true_iff in Hk as [Ho Hl].
    apply Forall_app in Ha as [Hal Har].
    destruct (IHl Hl Hal) as [x Hx], (IHr Hr Har) as [y Hy].
    rewrite Hx, Hy. cbn [res_bind].
    destruct (String.eqb o "|>"); [eauto|].
    destruct (String.eqb o "<=>"); [eauto|].
    destruct (String.eqb o "=>"); [eauto|].
    destruct (String.eqb o "&&"); [eauto|].
    destruct (String.eqb o "||"); [eauto|]. discriminate.
Qed.

(** X18: [traverse_ast] builds a sentence exactly when every operator
    of the tree is one of [|>], [<=>], [=>], [&&] and [||] and every
    atom of the tree can be built, a membership as a free term and a
    function as a relation; the atoms of the sentence are then the atoms
    of the tree, built in this way, in the order of the text. *)
Theorem traverse_ast_atoms_kept (e : ast_expr) :
  ((∃ p, traverse_ast e = Ret p) ↔
   known_ops e = true ∧
   Forall (λ leaf, ∃ a, built_from leaf a) (ast_atoms e)) ∧
  (∀ p, traverse_ast e = Ret p →
        Forall2 built_from (ast_atoms e) (all_preds p)).
Proof.
  split.
  - split.
    + intros [p Hp]. destruct (traverse_ast_atoms e p Hp) as [H1 H2].
      split; [exact H2|].
      clear -H1. induction H1; constructor; eauto.
    + intros [Hk Ha]. apply traverse_ast_total; assumption.
  - intros p Hp. exact (proj1 (traverse_ast_atoms e p Hp)).
Qed.

(** * Further properties of the store *)

(** ** Dictionaries in insertion order *)

Lemma dict_get_set_eq {V : Type} k (v : V) d :
  dict_get k (dict_set k v d) = Some v.
Proof.
  induction d as [|[k' v'] d IH]; simpl.
  - rewrite String.eqb_refl. reflexivity.
  - destruct (String.eqb k' k) eqn:E; simpl; rewrite E; [reflexivity|exact IH].
Qed.

Lemma dict_get_set_ne {V : Type} k k' (v : V) d :
  k' ≠ k → dict_get k' (dict_set k v d) = dict_get k' d.
Proof.
  intros Hne. induction d as [|[k0 v0] d IH]; simpl.
  - destruct (String.eqb_spec k k'); [congruence|reflexivity].
  - destruct (String.eqb_spec k0 k) as [->|Hk]; simpl.
    + destruct (String.eqb_spec k k'); [congruence|reflexivity].
    + destruct (String.eqb k0 k'); [reflexivity|exact IH].
Qed.

Lemma same_sent_refl s : same_sent s s = true.
Proof. apply Nat.eqb_refl. Qed.

Lemma sent_in_app s l l' : sent_in s (l ++ l') = sent_in s l || sent_in s l'.
Proof. apply existsb_app. Qed.

(** ** [up_memb] *)

(** X19: after [up_memb] the category of the atom is a class of the
    store and the subject is an individual, when its name holds a [$],
    or a class otherwise; no other individual and no other class is
    touched, and a class that the category already had is left as it
    was, unless the atom is about that class itself. *)
Theorem up_memb_registers (now : Z) (kb_ : Representation)
  (pred : LogPredicate) :
  is_Some (classes (up_memb now kb_ pred) !! parent pred) ∧
  (if has_dollar (term pred)
   then is_Some (individuals (up_memb now kb_ pred) !! term pred)
   else is_Some (classes (up_memb now kb_ pred) !! term pred) ∧
        individuals (up_memb now kb_ pred) = individuals kb_) ∧
  (∀ k, k ≠ term pred →
        individuals (up_memb now kb_ pred) !! k = individuals kb_ !! k) ∧
  (∀ k, k ≠ term pred → k ≠ parent pred →
        classes (up_memb now kb_ pred) !! k = classes kb_ !! k) ∧
  (∀ cls, parent pred ≠ term pred ∨ has_dollar (term pred) = true →
          classes kb_ !! parent pred = Some cls →
          classes (up_memb now kb_ pred) !! parent pred = Some cls).
Proof.
  unfold up_memb.
  destruct (has_dollar (term pred)) eqn:Hd; cbn [classes individuals].
  - destruct (classes kb_ !! parent pred) as [c|] eqn:Ec;
      cbn [classes individuals]; rewrite ?Ec, ?lookup_insert_eq;
      repeat split; eauto; intros;
      rewrite ?lookup_insert_ne by congruence; try reflexivity; try congruence.
  - destruct (decide (parent pred = term pred)) as [E|E].
    + rewrite E, lookup_insert_eq. cbn [classes individuals].
      rewrite lookup_insert_eq.
      repeat split; eauto; intros;
        rewrite ?lookup_insert_ne by congruence; try reflexivity.
      destruct H as [H|H]; congruence.
    + rewrite lookup_insert_ne by congruence.
      destruct (classes kb_ !! parent pred) as [c|] eqn:Ec;
        cbn [classes individuals];
        rewrite ?lookup_insert_eq, ?(lookup_insert_ne _ _ _ _ E);
        rewrite ?Ec; rewrite ?lookup_insert_eq;
        repeat split; eauto; intros;
        rewrite ?lookup_insert_ne by congruence; try reflexivity;
        try congruence.
      rewrite Ec. eauto.
Qed.

(** ** Filing sentences: [add_cog] *)

(** X20: [Individual.add_cog(p, sent)] leaves the sentence filed under
    [p] and touches no other key; a sentence that is new under [p] is
    appended, while one that was filed under [p] already replaces the
    whole list, whatever other sentences the list held. *)
Theorem individual_add_cog_files (self : Individual) (p : string)
  (sent : LogSentence) :
  (∃ l, dict_get p (cog (Individual_add_cog self p sent)) = Some l ∧
        sent_in sent l = true ∧
        l = match dict_get p (cog self) with
            | Some old => if sent_in sent old then [sent] else old ++ [sent]
            | None => [sent]
            end) ∧
  (∀ k, k ≠ p →
        dict_get k (cog (Individual_add_cog self p sent))
        = dict_get k (cog self)) ∧
  name (Individual_add_cog self p sent) = name self ∧
  categ (Individual_add_cog self p sent) = categ self ∧
  relations (Individual_add_cog self p sent) = relations self.
Proof.
  unfold Individual_add_cog.
  destruct (dict_get p (cog self)) as [old|] eqn:E;
    [destruct (sent_in sent old) eqn:Hin|]; cbn [cog name categ relations];
    (split; [eexists; split; [apply dict_get_set_eq|]; split; [|reflexivity]
            | split; [intros k Hk; apply dict_get_set_ne; exact Hk
                     | repeat split]]).
  - simpl. rewrite same_sent_refl. reflexivity.
  - rewrite sent_in_app. simpl. rewrite same_sent_refl.
    rewrite orb_true_r. reflexivity.
  - simpl. rewrite same_sent_refl. reflexivity.
Qed.

(** X21: [Category.add_cog] files a sentence once: the sentence is in
    the list afterwards, every sentence that was filed stays filed in
    its place, a second call changes nothing, and a list without
    repeated sentences stays so. *)
Theorem category_add_cog_once (self : Category) (sent : LogSentence) :
  sent_in sent (ccog (Category_add_cog self sent)) = true ∧
  (∃ new, ccog (Category_add_cog self sent) = ccog self ++ new) ∧
  Category_add_cog (Category_add_cog self sent) sent
    = Category_add_cog self sent ∧
  (NoDup (sent_id <$> ccog self) →
   NoDup (sent_id <$> ccog (Category_add_cog self sent))).
Proof.
  unfold Category_add_cog.
  destruct (sent_in sent (ccog self)) eqn:Hin; cbn [ccog].
  - rewrite Hin. repeat split; auto. exists []. rewrite app_nil_r. reflexivity.
  - rewrite sent_in_app. simpl. rewrite same_sent_refl, orb_true_r.
    repeat split; eauto.
    intros Hnd. rewrite fmap_app. simpl. apply NoDup_app. split; [exact Hnd|].
    split; [|apply NoDup_singleton].
    intros x Hx Hx'. apply list_elem_of_singleton in Hx'. subst x.
    apply list_elem_of_fmap in Hx as (s & Hs & Hsin).
    assert (H : sent_in sent (ccog self) = true).
    { apply existsb_exists. exists s. split.
      - apply list_elem_of_In. exact Hsin.
      - unfold same_sent. rewrite Hs. apply Nat.eqb_refl. }
    congruence.
Qed.

(** ** [save_rule] *)

Lemma save_rule_index_individuals proof kb_ p :
  individuals (save_rule_index proof kb_ p) = individuals kb_.
Proof.
  unfold save_rule_index.
  destruct (classes kb_ !! atom_name p) as [cls|]; [|reflexivity].
  destruct (negb (sent_in proof (ccog cls))); reflexivity.
Qed.

Lemma save_rule_indexing_individuals proof preds kb_ :
  individuals (fold_left (save_rule_index proof) preds kb_) = individuals kb_.
Proof.
  revert kb_. induction preds as [|p preds IH]; intros kb_; simpl;
    [reflexivity|].
  rewrite IH. apply save_rule_index_individuals.
Qed.

Lemma effect_for_noop {A : Type} (l : list A)
  (body : Representation → A → effect) (kb_ : Representation) :
  (∀ x, body kb_ x = (kb_, None)) → effect_for l body kb_ = (kb_, None).
Proof.
  intros H. induction l as [|x l IH]; simpl; [reflexivity|].
  rewrite H. exact IH.
Qed.

Lemma chars_length_nil obj : length (chars obj) = 0%nat → obj = "".
Proof. destruct obj; [reflexivity|discriminate]. Qed.

(** X22: a rule with variables that is told to a store is filed under
    the names of its atoms and derives nothing at that moment: the call
    [proof(self, obj)] binds the variables to the characters of the
    name, none of which is an individual (names of individuals hold a
    [$], and no individual is called [$]), so the sentence returns
    before it is evaluated and no individual is touched. *)
Theorem rule_with_variables_not_run (now : Z) (kb_ : Representation)
  (proof : LogSentence) (vo : list string) :
  reachable kb_ → individuals kb_ !! "$" = None →
  var_order proof = Some vo → vo ≠ [] →
  save_rule now kb_ proof
    = (fold_left (save_rule_index proof) (get_all_preds proof) kb_, None) ∧
  individuals (save_rule now kb_ proof).1 = individuals kb_.
Proof.
  intros Hreach Hdollar Hvo Hne.
  assert (H : save_rule now kb_ proof
              = (fold_left (save_rule_index proof) (get_all_preds proof) kb_,
                 None)).
  { unfold save_rule. apply effect_for_noop. intros obj.
    set (kb1 := fold_left (save_rule_index proof) (get_all_preds proof) kb_).
    assert (Hcall : LogSentence_call now kb1 proof (chars obj)
                    = ((kb1, RUnset), None)).
    { unfold LogSentence_call. rewrite Hvo.
      destruct (Nat.eqb_spec (length vo) (length (chars obj))) as [Hlen|Hlen];
        [|reflexivity].
      destruct obj as [|c rest].
      - destruct vo; [contradiction|discriminate].
      - destruct vo as [|v vo']; [contradiction|]. cbn [chars assign_vars].
        assert (Hk : individuals kb1 !! String c EmptyString = None).
        { unfold kb1. rewrite save_rule_indexing_individuals.
          destruct (Ascii.eqb_spec c "$"%char) as [->|Hc]; [exact Hdollar|].
          destruct (individuals kb_ !! String c EmptyString) as [ind|] eqn:E;
            [|reflexivity].
          destruct (proj1 (reachable_unique kb_ Hreach) _ _ E) as [Hd _].
          simpl in Hd. destruct (Ascii.eqb_spec c "$"%char); [contradiction|].
          discriminate. }
        rewrite Hk. reflexivity. }
    rewrite Hcall. reflexivity. }
  split; [exact H|]. rewrite H. cbn [fst].
  apply save_rule_indexing_individuals.
Qed.

Lemma rule_with_variables_not_run_witness :
  save_rule 3 (told 0 empty_Representation [memb_stmt "drunk" "$Lucy" 1])
    drunk_rule
    = (fold_left (save_rule_index drunk_rule) (get_all_preds drunk_rule)
         (told 0 empty_Representation [memb_stmt "drunk" "$Lucy" 1]), None) ∧
  individuals
    (save_rule 3 (told 0 empty_Representation [memb_stmt "drunk" "$Lucy" 1])
       drunk_rule).1
    = individuals (told 0 empty_Representation [memb_stmt "drunk" "$Lucy" 1]).
Proof.
  apply (rule_with_variables_not_run 3
           (told 0 empty_Representation [memb_stmt "drunk" "$Lucy" 1])
           drunk_rule ["x"]).
  - apply reachable_tell, reachable_empty.
  - vm_compute. reflexivity.
  - reflexivity.
  - discriminate.
Defined.

(** ** [objs_by_ctg] *)








(** ** [get_ctg] and [get_rel] *)

Lemma ctg_by_name_None atoms n :
  ctg_by_name atoms n = None ↔ n ∉ parent <$> atoms.
Proof.
  rewrite <- ctg_index_None. unfold ctg_by_name, ctg_index.
  destruct (list_find _ atoms); simpl; split; congruence.
Qed.

Lemma ctg_by_name_unique atoms c :
  NoDup (parent <$> atoms) → c ∈ atoms → ctg_by_name atoms (parent c) = Some c.
Proof.
  unfold ctg_by_name. induction atoms as [|a atoms IH]; intros Hnd Hc.
  - apply elem_of_nil in Hc. contradiction.
  - rewrite fmap_cons in Hnd. apply NoDup_cons in Hnd as [Ha Hnd]. simpl.
    apply elem_of_cons in Hc as [->|Hc].
    + rewrite decide_True by reflexivity. reflexivity.
    + rewrite decide_False.
      * specialize (IH Hnd Hc).
        destruct (list_find (λ c0, parent c0 = parent c) atoms) as [[i x]|];
          simpl in *; [exact IH|discriminate].
      * intros E. apply Ha. rewrite E. apply list_elem_of_fmap_2. exact Hc.
Qed.

Lemma ctg_values_fold atoms d0 n :
  NoDup (parent <$> atoms) →
  dict_get n (fold_left (λ d c, dict_set (parent c) (value c) d) atoms d0)
  = match ctg_by_name atoms n with
    | Some c => Some (value c)
    | None => dict_get n d0
    end.
Proof.
  unfold ctg_by_name. revert d0.
  induction atoms as [|a atoms IH]; intros d0 Hnd; simpl; [reflexivity|].
  rewrite fmap_cons in Hnd. apply NoDup_cons in Hnd as [Ha Hnd].
  rewrite (IH _ Hnd). destruct (decide (parent a = n)) as [<-|Hne].
  - simpl. pose proof (proj2 (ctg_by_name_None atoms (parent a)) Ha) as Hn.
    unfold ctg_by_name in Hn.
    destruct (list_find (λ c, parent c = parent a) atoms); [discriminate|].
    simpl. apply dict_get_set_eq.
  - destruct (list_find (λ c, parent c = n) atoms) as [[i x]|]; simpl;
      [reflexivity|].
    apply dict_get_set_ne. congruence.
Qed.

Lemma ctg_values_get atoms n :
  NoDup (parent <$> atoms) →
  dict_get n (ctg_values atoms) = value <$> ctg_by_name atoms n.
Proof.
  intros Hnd. unfold ctg_values. rewrite (ctg_values_fold atoms [] n Hnd).
  destruct (ctg_by_name atoms n); reflexivity.
Qed.

(** X24: in a store that sequences of [tell] and [ask] reach,
    [get_ctg] of an individual answers, for the category of each of its
    membership atoms, the value of that atom, and with [obj] the atom
    itself; for a category the individual is not in it answers [None].
    On a class with parents [get_ctg] answers the values in the same
    way; with [obj] a class accepts an atom alone, and a category name
    raises [AssertionError]; a class without parents raises on every
    call. *)
Theorem get_ctg_stored (now : Z) (kb_ : Representation) :
  reachable kb_ →
  (∀ k ind c, individuals kb_ !! k = Some ind → c ∈ categ ind →
     Individual_get_ctg now ind (CtgName (parent c)) false
       = Ret (CtgValue (Some (value c))) ∧
     Individual_get_ctg now ind (CtgName (parent c)) true
       = Ret (CtgObj (Some c))) ∧
  (∀ k ind n, individuals kb_ !! k = Some ind → n ∉ parent <$> categ ind →
     Individual_get_ctg now ind (CtgName n) false = Ret (CtgValue None) ∧
     Individual_get_ctg now ind (CtgName n) true = Ret (CtgObj None)) ∧
  (∀ k cls ps c, classes kb_ !! k = Some cls → parents cls = Some ps →
     c ∈ ps →
     Category_get_ctg now cls (CtgName (parent c)) false
       = Ret (CtgValue (Some (value c)))) ∧
  (∀ k cls ps n, classes kb_ !! k = Some cls → parents cls = Some ps →
     n ∉ parent <$> ps →
     Category_get_ctg now cls (CtgName n) false = Ret (CtgValue None)) ∧
  (∀ k cls n, classes kb_ !! k = Some cls →
     Category_get_ctg now cls (CtgName n) true = Raise AssertionError) ∧
  (∀ k cls ctg obj, classes kb_ !! k = Some cls → parents cls = None →
     ∃ e, Category_get_ctg now cls ctg obj = Raise e).
Proof.
  intros Hreach. destruct (reachable_unique kb_ Hreach) as [Hi Hc].
  split; [|split; [|split; [|split; [|split]]]].
  - intros k ind c Hk Hin. destruct (Hi _ _ Hk) as (_ & Hnd & _).
    unfold Individual_get_ctg, ctg_lookup.
    rewrite (ctg_values_get _ _ Hnd), (ctg_by_name_unique _ _ Hnd Hin).
    split; reflexivity.
  - intros k ind n Hk Hn. destruct (Hi _ _ Hk) as (_ & Hnd & _).
    unfold Individual_get_ctg, ctg_lookup.
    rewrite (ctg_values_get _ _ Hnd), (proj2 (ctg_by_name_None _ _) Hn).
    split; reflexivity.
  - intros k cls ps c Hk Hps Hin. pose proof (proj1 (Hc _ _ Hk) _ Hps) as Hnd.
    unfold Category_get_ctg, ctg_lookup. rewrite Hps.
    rewrite (ctg_values_get _ _ Hnd), (ctg_by_name_unique _ _ Hnd Hin).
    reflexivity.
  - intros k cls ps n Hk Hps Hn. pose proof (proj1 (Hc _ _ Hk) _ Hps) as Hnd.
    unfold Category_get_ctg, ctg_lookup. rewrite Hps.
    rewrite (ctg_values_get _ _ Hnd), (proj2 (ctg_by_name_None _ _) Hn).
    reflexivity.
  - intros k cls n _. reflexivity.
  - intros k cls ctg obj _ Hps. unfold Category_get_ctg. rewrite Hps.
    destruct obj; [destruct ctg|]; eauto.
Qed.

Lemma get_ctg_stored_witness :
  (∀ k ind c, individuals kb_cold_09 !! k = Some ind → c ∈ categ ind →
     Individual_get_ctg 1 ind (CtgName (parent c)) false
       = Ret (CtgValue (Some (value c))) ∧
     Individual_get_ctg 1 ind (CtgName (parent c)) true
       = Ret (CtgObj (Some c))) ∧
  (∀ k ind n, individuals kb_cold_09 !! k = Some ind →
     n ∉ parent <$> categ ind →
     Individual_get_ctg 1 ind (CtgName n) false = Ret (CtgValue None) ∧
     Individual_get_ctg 1 ind (CtgName n) true = Ret (CtgObj None)) ∧
  (∀ k cls ps c, classes kb_cold_09 !! k = Some cls → parents cls = Some ps →
     c ∈ ps →
     Category_get_ctg 1 cls (CtgName (parent c)) false
       = Ret (CtgValue (Some (value c)))) ∧
  (∀ k cls ps n, classes kb_cold_09 !! k = Some cls → parents cls = Some ps →
     n ∉ parent <$> ps →
     Category_get_ctg 1 cls (CtgName n) false = Ret (CtgValue None)) ∧
  (∀ k cls n, classes kb_cold_09 !! k = Some cls →
     Category_get_ctg 1 cls (CtgName n) true = Raise AssertionError) ∧
  (∀ k cls ctg obj, classes kb_cold_09 !! k = Some cls → parents cls = None →
     ∃ e, Category_get_ctg 1 cls ctg obj = Raise e).
Proof.
  apply (get_ctg_stored 1 kb_cold_09).
  apply reachable_tell, reachable_empty.
Defined.

Lemma test_rel_loop_by_id now funcs f :
  test_rel_loop now funcs f
  = match rel_by_id funcs f with
    | Some g => res_bind (RelationFunc_eq now f g) (λ b, Ret (Some b))
    | None => Ret None
    end.
Proof.
  unfold rel_by_id. induction funcs as [|g funcs IH]; simpl; [reflexivity|].
  destruct (decide (args_ID g = args_ID f)) as [E|E].
  - rewrite bool_decide_eq_true_2 by exact E. reflexivity.
  - rewrite bool_decide_eq_false_2 by exact E. rewrite IH.
    destruct (list_find (λ g0, args_ID g0 = args_ID f) funcs) as [[i x]|];
      reflexivity.
Qed.

(** X25: [test_rel] compares the query with the atom that
    [get_rel(func)] returns for it, and answers [None] when [get_rel]
    returns no atom; on an individual whose bucket holds no atom of
    these arguments [get_rel] returns the names of the relations
    instead of [None], on a class it returns [None]. *)
Theorem test_rel_by_get_rel (now : Z) (f : LogFunction) :
  (∀ ind, Individual_test_rel now ind f
          = match Individual_get_rel_func ind f with
            | RelFunc g => res_bind (RelationFunc_eq now f g)
                             (λ b, Ret (Some b))
            | RelNone | RelNames _ => Ret None
            end) ∧
  (∀ cls, Category_test_rel now cls f
          = match Category_get_rel_func cls f with
            | RelFunc g => res_bind (RelationFunc_eq now f g)
                             (λ b, Ret (Some b))
            | RelNone | RelNames _ => Ret None
            end) ∧
  (∀ ind funcs, relations ind !! func f = Some funcs →
     Forall (λ g, args_ID g ≠ args_ID f) funcs →
     Individual_get_rel_func ind f = RelNames (Individual_get_rel ind)) ∧
  (∀ cls g, Category_get_rel_func cls f = RelFunc g →
     args_ID g = args_ID f) ∧
  (∀ ind g, Individual_get_rel_func ind f = RelFunc g →
     args_ID g = args_ID f).
Proof.
  assert (Hid : ∀ funcs g, rel_by_id funcs f = Some g → args_ID g = args_ID f).
  { intros funcs g. unfold rel_by_id.
    destruct (list_find _ funcs) as [[i x]|] eqn:E; simpl; [|discriminate].
    intros [= <-]. apply list_find_Some in E as (_ & E & _). exact E. }
  split; [|split; [|split; [|split]]].
  - intros ind. unfold Individual_test_rel, Individual_get_rel_func.
    destruct (relations ind !! func f) as [funcs|]; [|reflexivity].
    rewrite test_rel_loop_by_id. destruct (rel_by_id funcs f); reflexivity.
  - intros cls. unfold Category_test_rel, Category_get_rel_func.
    destruct (crelations cls) as [rels|]; [|reflexivity].
    destruct (rels !! func f) as [funcs|]; [|reflexivity].
    rewrite test_rel_loop_by_id. destruct (rel_by_id funcs f); reflexivity.
  - intros ind funcs Hb Hall. unfold Individual_get_rel_func. rewrite Hb.
    unfold rel_by_id. rewrite (proj2 (list_find_None _ _) Hall). reflexivity.
  - intros cls g. unfold Category_get_rel_func.
    destruct (crelations cls) as [rels|]; [|discriminate].
    destruct (rels !! func f) as [funcs|]; [|discriminate].
    destruct (rel_by_id funcs f) as [g'|] eqn:E; [|discriminate].
    intros [= <-]. exact (Hid _ _ E).
  - intros ind g. unfold Individual_get_rel_func.
    destruct (relations ind !! func f) as [funcs|]; [|discriminate].
    destruct (rel_by_id funcs f) as [g'|] eqn:E; [|discriminate].
    intros [= <-]. exact (Hid _ _ E).
Qed.

(** ** The first relation told about a subject *)

Lemma starts_dollar_has_dollar s :
  first_char s = Ret "$"%char → has_dollar s = true.
Proof. destruct s as [|c s]; [discriminate|]. intros [= ->]. reflexivity. Qed.

Lemma up_rel_step_other now kb_ f subject kb' s :
  up_rel_step now kb_ f subject = Ret kb' → subject ≠ s →
  individuals kb' !! s = individuals kb_ !! s.
Proof.
  unfold up_rel_step, ensure_relation. intros H Hne.
  destruct (has_dollar subject).
  - destruct (Individual_add_rel now _ f) as [ind'|]; [|discriminate].
    cbn [res_bind classes individuals] in H.
    destruct (classes kb_ !! func f); injection H as <-;
      cbn [individuals]; apply lookup_insert_ne; exact Hne.
  - destruct (Category_add_rel now _ f) as [cat'|]; [|discriminate].
    cbn [res_bind classes individuals] in H.
    destruct (<[subject:=cat']> (classes kb_) !! func f); injection H as <-;
      reflexivity.
Qed.

Lemma up_rel_loop_other now kb_ f subjects kb' s :
  up_rel_loop now kb_ f subjects = (kb', None) → s ∉ subjects →
  individuals kb' !! s = individuals kb_ !! s.
Proof.
  revert kb_. induction subjects as [|x subjects IH]; intros kb_; simpl.
  - intros [= <-] _. reflexivity.
  - destruct (up_rel_step now kb_ f x) as [kb1|] eqn:E; [|discriminate].
    intros H Hs. apply not_elem_of_cons in Hs as [Hx Hs].
    rewrite (IH kb1 H Hs). apply (up_rel_step_other _ _ _ _ _ _ E).
    congruence.
Qed.

(** X26: the first relation atom of its name that is told about an
    individual is stored and found again: when the first argument of
    the atom names an individual that has no bucket of this relation
    yet, the atom carries a value, and [up_rel] succeeds, the bucket of
    that individual holds the atom alone and [test_pred] on the atom
    answers true. *)
Theorem first_relation_round_trip (now now' : Z) (kb_ kb' : Representation)
  (f : LogFunction) (s : string) (rest : list string) :
  get_args f = s :: rest → first_char s = Ret "$"%char → s ∉ rest →
  existsb is_valued (args f) = true →
  (∀ ind, individuals kb_ !! s = Some ind → relations ind !! func f = None) →
  up_rel now kb_ f = (kb', None) →
  individual_rels kb' s (func f) = [f] ∧
  test_pred now' kb' (AFunc f) = Ret (Some true).
Proof.
  intros Hargs Hc Hs Hval Hnew Hup.
  pose proof (starts_dollar_has_dollar s Hc) as Hd.
  unfold up_rel in Hup. rewrite Hargs in Hup. cbn [up_rel_loop] in Hup.
  destruct (up_rel_step now kb_ f s) as [kb1|] eqn:E1; [|discriminate].
  pose proof (up_rel_loop_other _ _ _ _ _ s Hup Hs) as Hkeep.
  assert (H1 : ∃ ind', individuals kb1 !! s = Some ind' ∧
                       relations ind' !! func f = Some [f]).
  { unfold up_rel_step in E1. rewrite Hd in E1.
    set (ind0 := default (new_Individual s) (individuals kb_ !! s)) in E1.
    assert (H0 : relations ind0 !! func f = None).
    { unfold ind0. destruct (individuals kb_ !! s) as [ind|] eqn:Ei; simpl.
      - apply Hnew. reflexivity.
      - apply lookup_empty. }
    unfold Individual_add_rel, add_rel_map in E1. rewrite H0 in E1.
    cbn [res_bind] in E1. injection E1 as <-.
    eexists. unfold ensure_relation. cbn [classes individuals].
    destruct (classes kb_ !! func f); cbn [individuals];
      rewrite lookup_insert_eq; (split; [reflexivity|]);
      cbn [relations]; apply lookup_insert_eq. }
  destruct H1 as (ind' & Hi & Hb). rewrite <- Hkeep in Hi.
  split.
  - unfold individual_rels. rewrite Hi, Hb. reflexivity.
  - unfold test_pred. rewrite Hargs. unfold starts_with_dollar. rewrite Hc.
    cbn [res_bind]. rewrite Hi. cbn [res_bind].
    unfold Individual_test_rel. rewrite Hb. cbn [test_rel_loop].
    rewrite bool_decide_eq_true_2 by reflexivity.
    rewrite relation_eq_self, Hval. reflexivity.
Qed.

Lemma first_relation_round_trip_witness :
  individual_rels kb_john_lucy "$John" (func (friend_atom "$John" "$Lucy" 1))
    = [friend_atom "$John" "$Lucy" 1] ∧
  test_pred 5 kb_john_lucy (AFunc (friend_atom "$John" "$Lucy" 1))
    = Ret (Some true).
Proof.
  apply (first_relation_round_trip 0 5 empty_Representation kb_john_lucy
           (friend_atom "$John" "$Lucy" 1) "$John" ["$Lucy"]).
  - reflexivity.
  - reflexivity.
  - intros H. apply list_elem_of_singleton in H. discriminate.
  - reflexivity.
  - intros ind H. vm_compute in H. discriminate.
  - vm_compute. reflexivity.
Defined.

(** * What calling a sentence and asking do *)

(** X27: [LogSentence.__call__] never evaluates a sentence and never
    changes the store.  With a number of constants other than the number
    of variables, or with a constant that is not an individual, it
    returns [None]; in every other case, a sentence without variables
    included, it raises [TypeError] before [solve_proof] runs: the atoms
    that [thread_manager] is to lock are not hashable. *)
Theorem sentence_call_never_evaluates (now : Z) (kb_ : Representation)
  (sent : LogSentence) (args_ : list string) :
  LogSentence_call now kb_ sent args_
  = ((kb_, RUnset),
     if reaches_evaluation kb_ sent args_ then Some TypeError else None) ∧
  (∀ b, thread_manager (get_preds sent "r") b = Some TypeError).
Proof.
  split.
  - unfold LogSentence_call, reaches_evaluation.
    destruct (var_order sent) as [vo|]; [|apply locked_proof_raises].
    destruct (Nat.eqb (length vo) (length args_)); [|reflexivity].
    destruct (assign_vars kb_ vo args_ []) as [assigned|]; cbn [andb].
    + rewrite bool_decide_eq_true_2 by eauto. apply locked_proof_raises.
    + rewrite bool_decide_eq_false_2 by (intros [? ?]; discriminate).
      reflexivity.
  - intros b. destruct (get_preds sent "r") eqn:E; [|reflexivity].
    exfalso. exact (get_preds_right_nonempty sent "r" eq_refl E).
Qed.

Lemma get_rules_returns fuel kb_ st :
  (length (rs_ctgs st) < fuel)%nat → ∃ r, get_rules fuel kb_ st = Some r.
Proof.
  revert st. induction fuel as [|fuel IH]; intros st Hlen; [lia|].
  cbn [get_rules].
  destruct (reverse (rs_ctgs st)) as [|c rest_rev] eqn:E; [eauto|].
  assert (Hl : S (length (reverse rest_rev)) = length (rs_ctgs st)).
  { rewrite length_reverse, <- (length_reverse (rs_ctgs st)), E. reflexivity. }
  destruct (classes kb_ !! c) as [cls|] eqn:Ec.
  - destruct (ordered_diff (ordered_set (ccog cls)) _) as [|s l];
      cbn [res_fold].
    + apply IH. cbn [rs_ctgs]. lia.
    + rewrite get_rules_sent_raises. cbn [res_bind]. eauto.
  - apply IH. cbn [rs_ctgs]. lia.
Qed.

Lemma no_false_nil : no_false [].
Proof. constructor. Qed.

Lemma get_query_no_false now kb_ sent qs :
  get_query now kb_ sent = Ret qs → no_false (qs_results qs).
Proof.
  destruct sent as [ast|[p|f]]; cbn [get_query].
  - destruct (get_query_string_raises now kb_ ast) as [e He].
    cbn [get_query] in He. rewrite He. discriminate.
  - destruct (pclass p).
    + destruct (test_pred now kb_ (APred p)) as [result|]; [|discriminate].
      cbn [res_bind]. intros [= <-]. cbn [qs_results].
      destruct (is_True result); [|constructor].
      repeat constructor. discriminate.
    + intros [= <-]. constructor.
  - destruct (test_pred now kb_ (AFunc f)) as [result|]; [|discriminate].
    cbn [res_bind].
    set (step := λ (acc : dict (dict (option bool)) * dict (list Atom))
                   (obj : string), _).
    assert (Hfold : ∀ l acc, no_false acc.1 →
              no_false (fold_left step l acc).1).
    { induction l as [|x l IH]; intros acc Hacc; simpl; [exact Hacc|].
      apply IH. unfold step. cbn [fst].
      destruct (is_True result); [|exact Hacc].
      apply (dict_set_values
               (Forall (λ kv' : string * option bool, kv'.2 ≠ Some false)));
        [|exact Hacc].
      repeat constructor. discriminate. }
    specialize (Hfold (get_args f) ([], []) no_false_nil).
    destruct (fold_left step (get_args f) ([], [])) as [rs qy].
    intros [= <-]. exact Hfold.
Qed.

Lemma get_query_ctgs now kb_ sent qs :
  get_query now kb_ sent = Ret qs → length (qs_ctgs qs) = 1%nat.
Proof.
  destruct sent as [ast|a].
  - destruct (get_query_string_raises now kb_ ast) as [e ->]. discriminate.
  - intros H. rewrite (get_query_atom_ctgs _ _ _ _ H). reflexivity.
Qed.

Lemma eng_ok_ret {A} J (a : A) : eng_ok J (eng_ret a).
Proof. intros s Hs. exists s, (Ret a). split; [reflexivity|exact Hs]. Qed.

Lemma eng_ok_raise {A} J e : eng_ok J (@eng_raise A e).
Proof. intros s Hs. exists s, (Raise e). split; [reflexivity|exact Hs]. Qed.

Lemma eng_ok_modify J f : (∀ s, J s → J (f s)) → eng_ok J (eng_modify f).
Proof. intros H s Hs. exists (f s), (Ret tt). split; [reflexivity|auto]. Qed.

Lemma eng_ok_bind {A B} J (m : eng A) (f : A → eng B) :
  eng_ok J m → (∀ a, eng_ok J (f a)) → eng_ok J (eng_bind m f).
Proof.
  intros Hm Hf s Hs. unfold eng_bind.
  destruct (Hm s Hs) as (s1 & r & -> & H1).
  destruct r as [a|e]; [exact (Hf a s1 H1)|].
  exists s1, (Raise e). split; [reflexivity|exact H1].
Qed.

Lemma eng_ok_get {B} (J : Inference → Prop) (f : Inference → eng B) :
  (∀ s, J s → ∃ s' r, f s s = Some (s', r) ∧ J s') →
  eng_ok J (eng_bind eng_get f).
Proof. intros H s Hs. exact (H s Hs). Qed.

Lemma eng_ok_for {A} J (l : list A) body :
  (∀ x, eng_ok J (body x)) → eng_ok J (eng_for l body).
Proof.
  intros H. induction l as [|x l IH]; cbn [eng_for].
  - apply eng_ok_ret.
  - apply eng_ok_bind; [apply H|intros _; exact IH].
Qed.

Lemma unify_no_nodes n now p done s :
  nodes s = [] → ∃ r, unify (S n) now p [] done s = Some (s, r).
Proof.
  intros Hn. cbn [unify]. unfold eng_bind at 1. cbn [eng_get].
  destruct (actv_q s) as [[[query_obj query_] pred]|];
    [|eexists; reflexivity].
  rewrite Hn. cbn [dict_get]. unfold eng_bind, eng_ret, eng_get.
  destruct (bool_decide _); eexists; reflexivity.
Qed.

Lemma query_quiet kb0 fuel now q :
  (2 ≤ fuel)%nat → eng_ok (quiet kb0) (query fuel now q).
Proof.
  intros Hf. destruct fuel as [|[|n]]; [lia|lia|].
  intros s ((Hk & Hn) & Hr). unfold query.
  unfold eng_bind at 1 2. cbn [eng_modify].
  set (s2 := set_updated _ []).
  assert (H2 : quiet kb0 s2) by (repeat split; assumption).
  cbn [query_loop]. unfold eng_bind at 1.
  destruct (unify_no_nodes n now q [] s2) as [r ->]; [exact Hn|].
  destruct r as [result|e]; [|exists s2, (Raise e); split; [reflexivity|exact H2]].
  unfold eng_bind, eng_get, eng_modify. cbn [updated s2 set_updated].
  rewrite bool_decide_eq_false_2 by (intros H; inversion H).
  rewrite andb_false_r. eexists _, _. split; [reflexivity|].
  repeat split; assumption.
Qed.

Lemma dict_setdefault_values {V : Type} (Q : V → Prop) k v (d : dict V) :
  Q v → Forall (λ kv, Q kv.2) d → Forall (λ kv, Q kv.2) (dict_setdefault k v d).
Proof.
  intros Hv Hd. unfold dict_setdefault.
  destruct (dict_get k d); [exact Hd|apply dict_set_values; assumption].
Qed.

Lemma no_false_get var r :
  no_false r →
  Forall (λ kv' : string * option bool, kv'.2 ≠ Some false)
    (default [] (dict_get var r)).
Proof.
  intros H. destruct (dict_get var r) as [d|] eqn:E; simpl; [|constructor].
  exact (dict_get_values _ _ _ _ H E).
Qed.

Lemma infer_pred_quiet kb0 fuel now var pred :
  (2 ≤ fuel)%nat → eng_ok (quiet kb0) (infer_pred fuel now var pred).
Proof.
  intros Hf. unfold infer_pred.
  apply eng_ok_bind;
    [apply eng_ok_modify; intros s ((Hk & Hn) & Hr); repeat split; assumption|].
  intros _. apply eng_ok_get. intros s Hs.
  apply (eng_ok_bind (quiet kb0)); [| |exact Hs].
  - destruct (bool_decide _); [apply eng_ok_ret|apply query_quiet; exact Hf].
  - intros _. apply eng_ok_modify. intros s1 ((Hk & Hn) & Hr).
    repeat split; [assumption..|]. cbn [results set_results].
    apply (dict_set_values
             (Forall (λ kv' : string * option bool, kv'.2 ≠ Some false)));
      [|exact Hr].
    apply (dict_setdefault_values (λ v : option bool, v ≠ Some false));
      [discriminate|]. apply no_false_get, Hr.
Qed.

Lemma infer_var_pred_quiet kb0 pred : eng_ok (quiet kb0) (infer_var_pred pred).
Proof.
  unfold infer_var_pred. apply eng_ok_get. intros s Hs.
  destruct (obj_dic s); [exact (eng_ok_ret _ tt s Hs)|].
  destruct pred;
    [exact (eng_ok_raise _ _ s Hs) | exact (eng_ok_raise _ _ s Hs)].
Qed.

Lemma infer_query_item_quiet kb0 fuel now item :
  (2 ≤ fuel)%nat → eng_ok (quiet kb0) (infer_query_item fuel now item).
Proof.
  intros Hf. destruct item as [var preds]. cbn [infer_query_item].
  apply eng_ok_get. intros s Hs.
  destruct (bool_decide _).
  - exact (eng_ok_for _ preds _ (infer_var_pred_quiet kb0) s Hs).
  - apply (eng_ok_bind (quiet kb0)); [| |exact Hs].
    + apply eng_ok_modify. intros s1 ((Hk & Hn) & Hr).
      repeat split; [assumption..|]. cbn [results set_results].
      apply (dict_setdefault_values
               (Forall (λ kv' : string * option bool, kv'.2 ≠ Some false)));
        [constructor|exact Hr].
    + intros _. apply eng_ok_for. intros x. apply infer_pred_quiet, Hf.
Qed.

Lemma ask_values_no_false vals :
  Forall (λ v : option bool, v ≠ Some false) vals →
  ask_values vals ≠ Some false.
Proof.
  induction 1 as [|v vals Hv _ IH]; cbn [ask_values]; [discriminate|].
  destruct v as [[|]|]; [exact IH|congruence|discriminate].
Qed.

Lemma ask_single_no_false r : no_false r → ask_single r ≠ Some false.
Proof.
  intros H. apply ask_values_no_false. unfold ask_single.
  induction H as [|[k d] r Hd _ IH]; cbn [flat_map]; [constructor|].
  apply Forall_app. split; [|exact IH]. cbn [snd] in *.
  clear -Hd. induction Hd as [|[k' v] d Hv _ IH]; simpl; constructor; assumption.
Qed.

(** X28: [ask] always comes back, leaves the store as it was and never
    answers [False].  With fuel for two rounds the call returns or
    raises; under [single] the answer is [True] or [None], otherwise no
    entry of the results is [False]: an atom that the store contradicts
    is answered [None], because no rule is indexed and the lookup of
    [get_query] records [True] alone. *)
Theorem ask_returns_never_false (fuel : nat) (now : Z) (kb_ : Representation)
  (sent : ask_sent) (single : bool) :
  (2 ≤ fuel)%nat →
  ∃ r, ask fuel now kb_ sent single = Some (kb_, r) ∧
       match r with
       | Ret (Single v) => v ≠ Some false
       | Ret (Mapping m) => no_false m
       | Raise _ => True
       end.
Proof.
  intros Hfuel. unfold ask, infer_facts.
  destruct (get_query now kb_ sent) as [qs|e] eqn:Eq;
    [|exists (Raise e); split; [reflexivity|exact I]].
  pose proof (get_query_no_false _ _ _ _ Eq) as Hr.
  pose proof (get_query_ctgs _ _ _ _ Eq) as Hl.
  destruct (get_rules_returns fuel kb_ (mkRules [] 0 (qs_ctgs qs) [None] []))
    as [[[rs chk]|e] Hg]; [cbn [rs_ctgs]; lia| |].
  - rewrite Hg. pose proof (get_rules_nodes _ _ _ _ _ Hg) as Hnodes.
    cbn [rs_nodes] in Hnodes.
    match goal with
    | |- context [eng_for ?l ?b ?s] =>
        destruct (eng_ok_for (quiet kb_) l b
                    (λ x, infer_query_item_quiet kb_ fuel now x Hfuel) s)
          as (s' & r & -> & (Hk & Hn) & Hres)
    end.
    { repeat split; [exact Hnodes|exact Hr]. }
    rewrite Hk. destruct r as [[]|e].
    + eexists. split; [reflexivity|]. destruct single;
        [apply ask_single_no_false|]; exact Hres.
    + exists (Raise e). split; [reflexivity|exact I].
  - rewrite Hg. exists (Raise e). split; [reflexivity|exact I].
Qed.

Lemma ask_returns_never_false_witness :
  (2 ≤ 2)%nat ∧
  ∃ r, ask 2 1 kb_john_lucy (AskAtom (AFunc (friend_atom "$John" "$Lucy" 0))) true
       = Some (kb_john_lucy, r) ∧
       match r with
       | Ret (Single v) => v ≠ Some false
       | Ret (Mapping m) => no_false m
       | Raise _ => True
       end.
Proof.
  split; [lia|].
  apply (ask_returns_never_false 2 1 kb_john_lucy
           (AskAtom (AFunc (friend_atom "$John" "$Lucy" 0))) true).
  lia.
Defined.

(** The relation [<friend[$John,u=1;$Lucy]>] is stored; the query for
    the same relation with the value 0 is contradicted by the lookup and
    answered [None]. *)
Example contradicted_relation_unknown :
  test_pred 1 kb_john_lucy (AFunc (friend_atom "$John" "$Lucy" 0))
    = Ret (Some false) ∧
  ask 2 1 kb_john_lucy (AskAtom (AFunc (friend_atom "$John" "$Lucy" 0))) true
    = Some (kb_john_lucy, Ret (Single None)).
Proof. vm_compute. split; reflexivity. Qed.
